(** * Railway network: stations, regions, trains and route queries

    A shallow embedding of [datastructures.hh] / [datastructures.cc].

    The class [Datastructures] owns three [std::unordered_map]s.  Stations
    are referred to by raw [Station*] pointers (edge targets in
    [stations_to], the predecessor link [pi]), so the station map is
    modelled as node storage ([nodes], address to record) together with the
    key lookup ([stations], identifier to address).  Addresses are never
    handed out twice; reading through the address of an erased node is
    undefined behaviour and is reported as a fault.  Loops that the C++
    program runs until a condition holds take a fuel argument. *)

From stdpp Require Import gmap strings list fin_maps sorting.
From Stdlib Require Import ZArith Lia.
From Stdlib Require OrderedTypeEx.

Local Open Scope Z_scope.

(** ** Types for IDs and the "not found" constants (datastructures.hh) *)

Abbreviation StationID := string (only parsing).
Abbreviation TrainID := string (only parsing).
Abbreviation RegionID := N (only parsing).      (* unsigned long long int *)
Abbreviation Name := string (only parsing).
Abbreviation Time := Z (only parsing).          (* unsigned short int, 0..65535 *)
Abbreviation Distance := Z (only parsing).      (* int *)
Abbreviation ptr := nat (only parsing).         (* Station* : address of a map node *)

Definition NO_STATION : StationID := "---"%string.
Definition NO_TRAIN : TrainID := "---"%string.
Definition NO_REGION : RegionID := (2 ^ 64 - 1)%N.   (* RegionID(-1) *)
Definition NO_NAME : Name := "!NO_NAME!"%string.
Definition NO_TIME : Time := 9999.
Definition NO_VALUE : Z := - 2 ^ 31.                 (* numeric_limits<int>::min() *)

Record Coord := mkCoord { cx : Z; cy : Z }.

Definition NO_COORD : Coord := mkCoord NO_VALUE NO_VALUE.
Definition NO_DISTANCE : Distance := NO_VALUE.

Global Instance Coord_eq_dec : EqDecision Coord.
Proof. solve_decision. Defined.

(** Conversion of an [int] to [Time] (unsigned short): reduction modulo 2^16. *)
Definition to_Time (v : Z) : Time := v mod 65536.

(** ** The private records of the class *)

Record Region := mkRegion {
  r_id : RegionID;
  r_name : Name;
  r_coordinates : list Coord;
  r_parent : RegionID;
  r_subregions : gset N
}.

(** An outgoing edge [(departure, (arrival, destination))], an element of
    [std::list<std::pair<Time, std::pair<Time, Station*>>>]. *)
Abbreviation Edge := (Z * (Z * nat))%type (only parsing).

Record Station := mkStation {
  s_id : StationID;
  s_name : Name;
  s_location : Coord;
  s_region : RegionID;
  s_departures : gmap Z (gset string);
  s_stations_to : list Edge;
  s_color : Z;                 (* unsigned short *)
  s_d : Distance;
  s_de : Distance;
  s_pi : option ptr            (* Station*, None is nullptr *)
}.

Record Train := mkTrain {
  t_id : TrainID;
  t_stationtimes : list (string * Z)
}.

Record Datastructures := mkDS {
  stations : gmap string nat;     (* key lookup of the station map *)
  nodes : gmap nat Station;       (* the nodes of the station map, by address *)
  next_node : nat;                (* addresses from here on were never used *)
  regions : gmap N Region;
  trains : gmap string Train
}.

(** The state a default-constructed object starts in. *)
Definition Datastructures_init : Datastructures := mkDS ∅ ∅ 0%nat ∅ ∅.

(** Field assignments. *)
Definition set_location (v : Coord) (s : Station) : Station :=
  mkStation (s_id s) (s_name s) v (s_region s) (s_departures s)
            (s_stations_to s) (s_color s) (s_d s) (s_de s) (s_pi s).
Definition set_region (v : RegionID) (s : Station) : Station :=
  mkStation (s_id s) (s_name s) (s_location s) v (s_departures s)
            (s_stations_to s) (s_color s) (s_d s) (s_de s) (s_pi s).
Definition set_departures (v : gmap Z (gset string)) (s : Station) : Station :=
  mkStation (s_id s) (s_name s) (s_location s) (s_region s) v
            (s_stations_to s) (s_color s) (s_d s) (s_de s) (s_pi s).
Definition set_stations_to (v : list Edge) (s : Station) : Station :=
  mkStation (s_id s) (s_name s) (s_location s) (s_region s) (s_departures s)
            v (s_color s) (s_d s) (s_de s) (s_pi s).
Definition set_color (v : Z) (s : Station) : Station :=
  mkStation (s_id s) (s_name s) (s_location s) (s_region s) (s_departures s)
            (s_stations_to s) v (s_d s) (s_de s) (s_pi s).
Definition set_d (v : Distance) (s : Station) : Station :=
  mkStation (s_id s) (s_name s) (s_location s) (s_region s) (s_departures s)
            (s_stations_to s) (s_color s) v (s_de s) (s_pi s).
Definition set_de (v : Distance) (s : Station) : Station :=
  mkStation (s_id s) (s_name s) (s_location s) (s_region s) (s_departures s)
            (s_stations_to s) (s_color s) (s_d s) v (s_pi s).
Definition set_pi (v : option ptr) (s : Station) : Station :=
  mkStation (s_id s) (s_name s) (s_location s) (s_region s) (s_departures s)
            (s_stations_to s) (s_color s) (s_d s) (s_de s) v.

Definition set_r_parent (v : RegionID) (r : Region) : Region :=
  mkRegion (r_id r) (r_name r) (r_coordinates r) v (r_subregions r).
Definition set_r_subregions (v : gset N) (r : Region) : Region :=
  mkRegion (r_id r) (r_name r) (r_coordinates r) (r_parent r) v.

Definition with_stations (ix : gmap string nat) (nd : gmap nat Station) (nx : nat)
    (ds : Datastructures) : Datastructures :=
  mkDS ix nd nx (regions ds) (trains ds).
Definition with_nodes (nd : gmap nat Station) (ds : Datastructures) : Datastructures :=
  mkDS (stations ds) nd (next_node ds) (regions ds) (trains ds).
Definition with_regions (rg : gmap N Region) (ds : Datastructures) : Datastructures :=
  mkDS (stations ds) (nodes ds) (next_node ds) rg (trains ds).
Definition with_trains (tr : gmap string Train) (ds : Datastructures) : Datastructures :=
  mkDS (stations ds) (nodes ds) (next_node ds) (regions ds) tr.

(** ** Outcomes of a call *)

Inductive fault :=
  | UndefinedBehaviour    (* read or write through a dangling pointer or end() *)
  | OutOfRange            (* std::out_of_range thrown by unordered_map::at *)
  | OutOfFuel.            (* the loop did not finish within the given fuel *)

Inductive res (A : Type) :=
  | Ok (a : A)
  | Fail (f : fault).
Arguments Ok {A} a.
Arguments Fail {A} f.

Global Instance res_ret : MRet res := fun A a => Ok a.
Global Instance res_bind : MBind res := fun A B k m =>
  match m with
  | Ok a => k a
  | Fail f => Fail f
  end.
Global Instance res_fmap : FMap res := fun A B f m =>
  match m with
  | Ok a => Ok (f a)
  | Fail f => Fail f
  end.

(** ** Access to the station map *)

(** [stations.find(id)]; [None] is [stations.end()]. *)
Definition stations_find (ds : Datastructures) (id : StationID) : option ptr :=
  stations ds !! id.

(** [&stations.at(id)]. *)
Definition stations_at (ds : Datastructures) (id : StationID) : res ptr :=
  match stations ds !! id with
  | Some p => Ok p
  | None => Fail OutOfRange
  end.

(** [*p] for a [Station* p]. *)
Definition deref (ds : Datastructures) (p : ptr) : res Station :=
  match nodes ds !! p with
  | Some s => Ok s
  | None => Fail UndefinedBehaviour
  end.

(** [p->field = ...], one or several assignments to fields of [*p]. *)
Definition modify (ds : Datastructures) (p : ptr) (f : Station -> Station)
    : res Datastructures :=
  s ← deref ds p;
  Ok (with_nodes (<[p := f s]> (nodes ds)) ds).

(** ** Station and region registry *)

Definition station_count (ds : Datastructures) : nat := size (stations ds).

Definition clear_all (ds : Datastructures) : Datastructures :=
  mkDS ∅ ∅ (next_node ds) ∅ (trains ds).

Definition add_station (ds : Datastructures) (id : StationID) (name : Name) (xy : Coord)
    : bool * Datastructures :=
  match stations_find ds id with
  | None =>
      if bool_decide (id ≠ NO_STATION) && bool_decide (name ≠ NO_NAME)
         && bool_decide (xy ≠ NO_COORD)
      then
        let p := next_node ds in
        let s := mkStation id name xy NO_REGION ∅ [] 0 999999 999999 None in
        (true, with_stations (<[id := p]> (stations ds)) (<[p := s]> (nodes ds)) (S p) ds)
      else (false, ds)
  | Some _ => (false, ds)
  end.

Definition change_station_coord (ds : Datastructures) (id : StationID) (newcoord : Coord)
    : res (bool * Datastructures) :=
  match stations_find ds id with
  | Some p => ds' ← modify ds p (set_location newcoord); Ok (true, ds')
  | None => Ok (false, ds)
  end.

Definition add_departure (ds : Datastructures) (stationid : StationID) (trainid : TrainID)
    (time : Time) : res (bool * Datastructures) :=
  match stations_find ds stationid with
  | Some p =>
      s ← deref ds p;
      match s_departures s !! time with
      | Some tr =>
          if bool_decide (trainid ∈ tr) then Ok (false, ds)
          else
            ds' ← modify ds p
                     (fun s => set_departures (<[time := tr ∪ {[trainid]}]> (s_departures s)) s);
            Ok (true, ds')
      | None =>
          ds' ← modify ds p
                   (fun s => set_departures (<[time := {[trainid]}]> (s_departures s)) s);
          Ok (true, ds')
      end
  | None => Ok (false, ds)
  end.

Definition remove_departure (ds : Datastructures) (stationid : StationID) (trainid : TrainID)
    (time : Time) : res (bool * Datastructures) :=
  match stations_find ds stationid with
  | Some p =>
      s ← deref ds p;
      match s_departures s !! time with
      | None => Ok (false, ds)
      | Some tr =>
          if bool_decide (trainid ∈ tr) then
            let tr' := tr ∖ {[trainid]} in
            let dep' := if bool_decide (size tr' = 0%nat)
                        then delete time (s_departures s)
                        else <[time := tr']> (s_departures s) in
            ds' ← modify ds p (set_departures dep');
            Ok (true, ds')
          else Ok (false, ds)
      end
  | None => Ok (false, ds)
  end.

Definition add_region (ds : Datastructures) (id : RegionID) (name : Name)
    (coords : list Coord) : bool * Datastructures :=
  match regions ds !! id with
  | None => (true, with_regions (<[id := mkRegion id name coords NO_REGION ∅]> (regions ds)) ds)
  | Some _ => (false, ds)
  end.

Definition add_subregion_to_region (ds : Datastructures) (id parentid : RegionID)
    : bool * Datastructures :=
  match regions ds !! id, regions ds !! parentid with
  | Some r, Some rp =>
      if bool_decide (r_parent r ≠ NO_REGION) then (false, ds)
      else
        (* it2->second.subregions.insert(id), then it->second.parent = it2->first;
           both iterators may denote the same node *)
        let rg1 := <[parentid := set_r_subregions (r_subregions rp ∪ {[id]}) rp]> (regions ds) in
        let rg2 := alter (set_r_parent parentid) id rg1 in
        (true, with_regions rg2 ds)
  | _, _ => (false, ds)
  end.

Definition add_station_to_region (ds : Datastructures) (id : StationID) (parentid : RegionID)
    : res (bool * Datastructures) :=
  match stations_find ds id, regions ds !! parentid with
  | Some p, Some _ =>
      s ← deref ds p;
      if bool_decide (s_region s ≠ NO_REGION) then Ok (false, ds)
      else ds' ← modify ds p (set_region parentid); Ok (true, ds')
  | _, _ => Ok (false, ds)
  end.

Definition remove_station (ds : Datastructures) (id : StationID) : bool * Datastructures :=
  match stations_find ds id with
  | None => (false, ds)
  | Some p => (true, with_stations (delete id (stations ds)) (delete p (nodes ds))
                                   (next_node ds) ds)
  end.

(** ** Region hierarchy: nearest common parent *)

(** [it->second] for an iterator into [regions]; [None] is [regions.end()]. *)
Definition region_of (it : option Region) : res Region :=
  match it with
  | Some r => Ok r
  | None => Fail UndefinedBehaviour
  end.

(** The [while (true)] loop of [common_parent_of_regions]: both parent chains
    grow by one link per round until both iterators rest on a root. *)
Fixpoint parents_loop (fuel : nat) (ds : Datastructures) (it1 it2 : option Region)
    (parents_of_id1 parents_of_id2 : list N) : res (list N * list N) :=
  match fuel with
  | O => Fail OutOfFuel
  | S fuel' =>
      r1 ← region_of it1;
      let '(it1', l1) :=
        if bool_decide (r_parent r1 ≠ NO_REGION)
        then (regions ds !! r_parent r1, parents_of_id1 ++ [r_parent r1])
        else (it1, parents_of_id1) in
      r2 ← region_of it2;
      let '(it2', l2) :=
        if bool_decide (r_parent r2 ≠ NO_REGION)
        then (regions ds !! r_parent r2, parents_of_id2 ++ [r_parent r2])
        else (it2, parents_of_id2) in
      let at_root (it : option Region) :=
        match it with
        | None => true
        | Some r => bool_decide (r_parent r = NO_REGION)
        end in
      if at_root it1' && at_root it2' then Ok (l1, l2)
      else parents_loop fuel' ds it1' it2' l1 l2
  end.

(** [std::find_first_of]: the first element of the first range that occurs
    in the second range. *)
Fixpoint find_first_of (l1 l2 : list N) : option N :=
  match l1 with
  | [] => None
  | a :: l1' => if bool_decide (a ∈ l2) then Some a else find_first_of l1' l2
  end.

Definition common_parent_of_regions (fuel : nat) (ds : Datastructures) (id1 id2 : RegionID)
    : res RegionID :=
  match regions ds !! id1, regions ds !! id2 with
  | Some r1, Some r2 =>
      if bool_decide (r_parent r1 = r_parent r2) then Ok (r_parent r1)
      else
        '(l1, l2) ← parents_loop fuel ds (Some r1) (Some r2) [] [];
        match l1, l2 with
        | [], _ | _, [] => Ok NO_REGION
        | _, _ =>
            match find_first_of l1 l2 with
            | Some a => Ok a
            | None => Ok NO_REGION
            end
        end
  | _, _ => Ok NO_REGION
  end.

(** ** Trains *)

(** The validation loop of [add_train]: every stop names a known station. *)
Fixpoint stops_known (ds : Datastructures) (stationtimes : list (string * Z)) : bool :=
  match stationtimes with
  | [] => true
  | (sid, _) :: rest =>
      match stations_find ds sid with
      | None => false
      | Some _ => stops_known ds rest
      end
  end.

(** The second loop of [add_train]: for every stop but the last, a departure
    is registered and the edge to the next stop is appended. *)
Fixpoint add_train_edges (ds : Datastructures) (trainid : TrainID)
    (stationtimes : list (string * Z)) : res Datastructures :=
  match stationtimes with
  | (sid, t) :: (((sid', t') :: _) as rest) =>
      '(_, ds1) ← add_departure ds sid trainid t;
      p ← stations_at ds1 sid';
      q ← stations_at ds1 sid;
      ds2 ← modify ds1 q (fun s => set_stations_to (s_stations_to s ++ [(t, (t', p))]) s);
      add_train_edges ds2 trainid rest
  | _ => Ok ds
  end.

Definition add_train (ds : Datastructures) (trainid : TrainID)
    (stationtimes : list (string * Z)) : res (bool * Datastructures) :=
  match trains ds !! trainid with
  | Some _ => Ok (false, ds)
  | None =>
      if stops_known ds stationtimes then
        let ds1 := with_trains (<[trainid := mkTrain trainid stationtimes]> (trains ds)) ds in
        ds2 ← add_train_edges ds1 trainid stationtimes;
        Ok (true, ds2)
      else Ok (false, ds)
  end.

Definition clear_trains (ds : Datastructures) : Datastructures :=
  with_trains ∅ ds.

(** ** Distances *)

(** [sqrt(pow(a.x - b.x, 2) + pow(a.y - b.y, 2))] converted to [int].  The
    squares and their sum are exact in double precision and the rounded
    square root truncates to the integer square root as long as the sum
    stays below 2^53, which holds for coordinates of magnitude up to 2^25.
    The model is the exact integer square root. *)
Definition distance_between_points (a b : Coord) : Distance :=
  Z.sqrt ((cx a - cx b) ^ 2 + (cy a - cy b) ^ 2).

(** ** Route queries: breadth-first search *)

(** The reset loops at the start of the queries. *)
Definition reset_any (ds : Datastructures) : Datastructures :=
  with_nodes ((fun s => set_pi None (set_d 999999 s)) <$> nodes ds) ds.
Definition reset_least_stations (ds : Datastructures) : Datastructures :=
  with_nodes ((fun s => set_pi None (set_de 999999 (set_d 999999 s))) <$> nodes ds) ds.
Definition reset_cycle (ds : Datastructures) : Datastructures :=
  with_nodes ((fun s => set_pi None (set_color 0 s)) <$> nodes ds) ds.
Definition reset_shortest_distance (ds : Datastructures) : Datastructures :=
  with_nodes ((fun s => set_pi None (set_de 999999 (set_d 999999 (set_color 0 s))))
                <$> nodes ds) ds.
Definition reset_earliest_arrival (ds : Datastructures) : Datastructures :=
  with_nodes ((fun s => set_pi None (set_d 999999 (set_color 0 s))) <$> nodes ds) ds.

(** The [for] loop over [u->stations_to] in [route_any]; the flag returned is
    [found_station]. *)
Fixpoint scan_any (ds : Datastructures) (u : ptr) (toid : StationID) (edges : list Edge)
    (Q : list (Z * nat)) : res (Datastructures * list (Z * nat) * bool) :=
  match edges with
  | [] => Ok (ds, Q, false)
  | (_, (_, v)) :: rest =>
      sv ← deref ds v;
      '(ds1, Q1) ←
        match s_pi sv with
        | None =>
            su ← deref ds u;
            let dv := s_d su + distance_between_points (s_location su) (s_location sv) in
            ds1 ← modify ds v (fun s => set_pi (Some u) (set_d dv s));
            Ok (ds1, Q ++ [(dv, v)])
        | Some _ => Ok (ds, Q)
        end;
      sv1 ← deref ds1 v;
      if bool_decide (s_id sv1 = toid) then Ok (ds1, Q1, true)
      else scan_any ds1 u toid rest Q1
  end.

(** The [while (!Q.empty())] loop of [route_any]. *)
Fixpoint bfs_any (fuel : nat) (ds : Datastructures) (toid : StationID) (Q : list (Z * nat))
    (found_station : bool) : res Datastructures :=
  match fuel with
  | O => Fail OutOfFuel
  | S fuel' =>
      match Q with
      | [] => Ok ds
      | (_, u) :: Q' =>
          if found_station then Ok ds
          else
            su ← deref ds u;
            '(ds1, Q1, found) ← scan_any ds u toid (s_stations_to su) Q';
            bfs_any fuel' ds1 toid Q1 found
      end
  end.

(** The path reconstruction of [route_any] and [route_shortest_distance]:
    follow [pi] from the goal; [None] stands for the early [return {}]. *)
Fixpoint walk_back (fuel : nat) (ds : Datastructures) (fromid : StationID) (i : option ptr)
    (result : list (string * Z)) : res (option (list (string * Z))) :=
  match fuel with
  | O => Fail OutOfFuel
  | S fuel' =>
      match i with
      | None => Ok None
      | Some p =>
          si ← deref ds p;
          let result' := result ++ [(s_id si, s_d si)] in
          if bool_decide (s_id si = fromid) then Ok (Some result')
          else walk_back fuel' ds fromid (s_pi si) result'
      end
  end.

Definition route_any (fuel : nat) (ds : Datastructures) (fromid toid : StationID)
    : res (list (string * Z) * Datastructures) :=
  match stations_find ds fromid, stations_find ds toid with
  | Some _, Some _ =>
      if bool_decide (fromid = toid) then Ok ([(fromid, 0)], ds)
      else
        let ds0 := reset_any ds in
        s ← stations_at ds0 fromid;
        g ← stations_at ds0 toid;
        ds1 ← modify ds0 s (set_d 0);
        ds2 ← bfs_any fuel ds1 toid [(0, s)] false;
        sg ← deref ds2 g;
        r ← walk_back fuel ds2 fromid (s_pi sg) [(s_id sg, s_d sg)];
        match r with
        | None => Ok ([], ds2)
        | Some result => Ok (reverse result, ds2)
        end
  | _, _ => Ok ([(NO_STATION, NO_DISTANCE)], ds)
  end.

(** [route_least_stations]: the same search, with [d] counting hops and [de]
    accumulating the distance. *)
Fixpoint scan_least_stations (ds : Datastructures) (u : ptr) (toid : StationID)
    (edges : list Edge) (Q : list (Z * nat))
    : res (Datastructures * list (Z * nat) * bool) :=
  match edges with
  | [] => Ok (ds, Q, false)
  | (_, (_, v)) :: rest =>
      sv ← deref ds v;
      '(ds1, Q1) ←
        match s_pi sv with
        | None =>
            su ← deref ds u;
            let dv := s_d su + 1 in
            let dev := s_de su + distance_between_points (s_location su) (s_location sv) in
            ds1 ← modify ds v (fun s => set_pi (Some u) (set_de dev (set_d dv s)));
            Ok (ds1, Q ++ [(dv, v)])
        | Some _ => Ok (ds, Q)
        end;
      sv1 ← deref ds1 v;
      if bool_decide (s_id sv1 = toid) then Ok (ds1, Q1, true)
      else scan_least_stations ds1 u toid rest Q1
  end.

Fixpoint bfs_least_stations (fuel : nat) (ds : Datastructures) (toid : StationID)
    (Q : list (Z * nat)) (found_station : bool) : res Datastructures :=
  match fuel with
  | O => Fail OutOfFuel
  | S fuel' =>
      match Q with
      | [] => Ok ds
      | (_, u) :: Q' =>
          if found_station then Ok ds
          else
            su ← deref ds u;
            '(ds1, Q1, found) ← scan_least_stations ds u toid (s_stations_to su) Q';
            bfs_least_stations fuel' ds1 toid Q1 found
      end
  end.

Fixpoint walk_back_least_stations (fuel : nat) (ds : Datastructures) (fromid : StationID)
    (i : option ptr) (result : list (string * Z)) : res (option (list (string * Z))) :=
  match fuel with
  | O => Fail OutOfFuel
  | S fuel' =>
      match i with
      | None => Ok None
      | Some p =>
          si ← deref ds p;
          if bool_decide (s_id si = fromid) then Ok (Some (result ++ [(s_id si, 0)]))
          else walk_back_least_stations fuel' ds fromid (s_pi si)
                 (result ++ [(s_id si, s_de si)])
      end
  end.

Definition route_least_stations (fuel : nat) (ds : Datastructures) (fromid toid : StationID)
    : res (list (string * Z) * Datastructures) :=
  match stations_find ds fromid, stations_find ds toid with
  | Some _, Some _ =>
      if bool_decide (fromid = toid) then Ok ([(fromid, 0)], ds)
      else
        let ds0 := reset_least_stations ds in
        s ← stations_at ds0 fromid;
        g ← stations_at ds0 toid;
        ds1 ← modify ds0 s (fun s => set_de 0 (set_d 0 s));
        ds2 ← bfs_least_stations fuel ds1 toid [(0, s)] false;
        sg ← deref ds2 g;
        r ← walk_back_least_stations fuel ds2 fromid (s_pi sg) [(s_id sg, s_de sg)];
        match r with
        | None => Ok ([], ds2)
        | Some result => Ok (reverse result, ds2)
        end
  | _, _ => Ok ([(NO_STATION, NO_DISTANCE)], ds)
  end.

(** ** Route queries: depth-first search for a cycle *)

(** The [for] loop over [u->stations_to] in [route_with_cycle]; [Some (g, cycled)]
    is returned when the loop breaks with [found_cycle]. *)
Fixpoint scan_cycle (ds : Datastructures) (u : ptr) (edges : list Edge) (S : list nat)
    : res (Datastructures * list nat * option (nat * nat)) :=
  match edges with
  | [] => Ok (ds, S, None)
  | (_, (_, v)) :: rest =>
      sv ← deref ds v;
      if s_color sv =? 0 then
        ds1 ← modify ds v (set_pi (Some u));
        scan_cycle ds1 u rest (v :: S)
      else if s_color sv =? 1 then Ok (ds, S, Some (u, v))
      else scan_cycle ds u rest S
  end.

Fixpoint dfs_cycle (fuel : nat) (ds : Datastructures) (S : list nat)
    : res (Datastructures * option (nat * nat)) :=
  match fuel with
  | O => Fail OutOfFuel
  | Datatypes.S fuel' =>
      match S with
      | [] => Ok (ds, None)
      | u :: S' =>
          su ← deref ds u;
          if s_color su =? 0 then
            ds1 ← modify ds u (set_color 1);
            '(ds2, S2, found) ← scan_cycle ds1 u (s_stations_to su) (u :: S');
            match found with
            | Some gc => Ok (ds2, Some gc)
            | None => dfs_cycle fuel' ds2 S2
            end
          else dfs_cycle fuel' ds S'
      end
  end.

Fixpoint walk_back_cycle (fuel : nat) (ds : Datastructures) (sid : StationID)
    (i : option ptr) (result : list string) : res (option (list string)) :=
  match fuel with
  | O => Fail OutOfFuel
  | S fuel' =>
      match i with
      | None => Ok None
      | Some p =>
          si ← deref ds p;
          let result' := result ++ [s_id si] in
          if bool_decide (s_id si = sid) then Ok (Some result')
          else walk_back_cycle fuel' ds sid (s_pi si) result'
      end
  end.

Definition route_with_cycle (fuel : nat) (ds : Datastructures) (fromid : StationID)
    : res (list string * Datastructures) :=
  match stations_find ds fromid with
  | None => Ok ([NO_STATION], ds)
  | Some _ =>
      let ds0 := reset_cycle ds in
      s ← stations_at ds0 fromid;
      '(ds1, found) ← dfs_cycle fuel ds0 [s];
      match found with
      | None => Ok ([], ds1)
      | Some (g, cycled) =>
          sc ← deref ds1 cycled;
          sg ← deref ds1 g;
          ss ← deref ds1 s;
          r ← walk_back_cycle fuel ds1 (s_id ss) (s_pi sg) [s_id sc; s_id sg];
          match r with
          | None => Ok ([], ds1)
          | Some result => Ok (reverse result, ds1)
          end
      end
  end.

(** ** Route queries: priority searches *)

Section Priority.

(** The searches keep their frontier in a [std::set<std::pair<K, Station*>>],
    whose order compares the key and then the pointer.  Where the allocator
    puts a node is not fixed by the program: [place] gives the machine
    address of each node. *)
Variable place : nat -> Z.

Definition pair_lt (a b : Z * nat) : bool :=
  (a.1 <? b.1) || ((a.1 =? b.1) && (place a.2 <? place b.2)).

Definition pair_equiv (a b : Z * nat) : bool :=
  negb (pair_lt a b) && negb (pair_lt b a).

(** [Q.insert(x)]: ordered, and without effect when an equivalent element
    is present. *)
Fixpoint set_insert (x : Z * nat) (Q : list (Z * nat)) : list (Z * nat) :=
  match Q with
  | [] => [x]
  | y :: Q' =>
      if pair_lt x y then x :: Q
      else if pair_lt y x then y :: set_insert x Q'
      else Q
  end.

(** [Q.find(x) != Q.end()]. *)
Definition set_find (x : Z * nat) (Q : list (Z * nat)) : bool :=
  existsb (pair_equiv x) Q.

(** [Q.erase(Q.find(x))]. *)
Definition set_erase (x : Z * nat) (Q : list (Z * nat)) : list (Z * nat) :=
  filter (fun y => pair_equiv x y = false) Q.

(** The decrease-key attempt shared by both searches: the element looked up
    carries the key the node has now. *)
Definition set_requeue (x : Z * nat) (Q : list (Z * nat)) : list (Z * nat) :=
  if set_find x Q then set_insert x (set_erase x Q) else Q.

Definition relax_astar (ds : Datastructures) (u v g : ptr) : res Datastructures :=
  su ← deref ds u;
  sv ← deref ds v;
  let new_d := distance_between_points (s_location su) (s_location sv) in
  if s_d sv >? s_d su + new_d then
    sg ← deref ds g;
    let min_est := distance_between_points (s_location sv) (s_location sg) in
    let dv := s_d su + new_d in
    modify ds v (fun s => set_pi (Some u) (set_de (dv + min_est) (set_d dv s)))
  else Ok ds.

Definition relax_dijkstra (ds : Datastructures) (u v : ptr) (u_depart at_v : Time)
    : res Datastructures :=
  su ← deref ds u;
  sv ← deref ds v;
  if (s_d sv >? at_v) && (s_d su <? at_v) && (s_d su <=? u_depart) && (u_depart <? at_v)
  then
    ds1 ← modify ds u (set_d u_depart);
    modify ds1 v (fun s => set_pi (Some u) (set_d at_v s))
  else Ok ds.

Fixpoint scan_astar (ds : Datastructures) (u g : ptr) (edges : list Edge)
    (Q : list (Z * nat)) : res (Datastructures * list (Z * nat)) :=
  match edges with
  | [] => Ok (ds, Q)
  | (_, (_, v)) :: rest =>
      sv ← deref ds v;
      let de := s_de sv in
      ds1 ← relax_astar ds u v g;
      sv1 ← deref ds1 v;
      if s_color sv1 =? 0 then
        ds2 ← modify ds1 v (set_color 1);
        scan_astar ds2 u g rest (set_insert (s_de sv1, v) Q)
      else if de >? s_de sv1 then
        scan_astar ds1 u g rest (set_requeue (s_de sv1, v) Q)
      else scan_astar ds1 u g rest Q
  end.

Fixpoint astar_loop (fuel : nat) (ds : Datastructures) (g : ptr) (Q : list (Z * nat))
    : res Datastructures :=
  match fuel with
  | O => Fail OutOfFuel
  | S fuel' =>
      match Q with
      | [] => Ok ds
      | (_, u) :: Q' =>
          su ← deref ds u;
          sg ← deref ds g;
          if bool_decide (s_id su = s_id sg) then Ok ds
          else
            '(ds1, Q1) ← scan_astar ds u g (s_stations_to su) Q';
            astar_loop fuel' ds1 g Q1
      end
  end.

Definition route_shortest_distance (fuel : nat) (ds : Datastructures)
    (fromid toid : StationID) : res (list (string * Z) * Datastructures) :=
  match stations_find ds fromid, stations_find ds toid with
  | Some _, Some _ =>
      if bool_decide (fromid = toid) then Ok ([(fromid, 0)], ds)
      else
        let ds0 := reset_shortest_distance ds in
        s ← stations_at ds0 fromid;
        g ← stations_at ds0 toid;
        ds1 ← modify ds0 s (set_d 0);
        ds2 ← astar_loop fuel ds1 g (set_insert (0, s) []);
        sg ← deref ds2 g;
        r ← walk_back fuel ds2 fromid (s_pi sg) [(s_id sg, s_d sg)];
        match r with
        | None => Ok ([], ds2)
        | Some result => Ok (reverse result, ds2)
        end
  | _, _ => Ok ([(NO_STATION, NO_DISTANCE)], ds)
  end.

(** [route_earliest_arrival]: the keys of the frontier are [Time]s, so every
    [d] that enters it is converted. *)
Fixpoint scan_dijkstra (ds : Datastructures) (u : ptr) (edges : list Edge)
    (Q : list (Z * nat)) : res (Datastructures * list (Z * nat)) :=
  match edges with
  | [] => Ok (ds, Q)
  | (u_depart, (at_v, v)) :: rest =>
      sv ← deref ds v;
      let d := to_Time (s_d sv) in
      ds1 ← relax_dijkstra ds u v u_depart at_v;
      sv1 ← deref ds1 v;
      if s_color sv1 =? 0 then
        ds2 ← modify ds1 v (set_color 1);
        scan_dijkstra ds2 u rest (set_insert (to_Time (s_d sv1), v) Q)
      else if d >? s_d sv1 then
        scan_dijkstra ds1 u rest (set_requeue (to_Time (s_d sv1), v) Q)
      else scan_dijkstra ds1 u rest Q
  end.

Fixpoint dijkstra_loop (fuel : nat) (ds : Datastructures) (g : ptr) (Q : list (Z * nat))
    : res Datastructures :=
  match fuel with
  | O => Fail OutOfFuel
  | S fuel' =>
      match Q with
      | [] => Ok ds
      | (_, u) :: Q' =>
          su ← deref ds u;
          sg ← deref ds g;
          if bool_decide (s_id su = s_id sg) then Ok ds
          else
            '(ds1, Q1) ← scan_dijkstra ds u (s_stations_to su) Q';
            dijkstra_loop fuel' ds1 g Q1
      end
  end.

(** Collects the pointers from the goal back to the start. *)
Fixpoint walk_back_path (fuel : nat) (ds : Datastructures) (fromid : StationID)
    (i : option ptr) (path : list nat) : res (option (list nat)) :=
  match fuel with
  | O => Fail OutOfFuel
  | S fuel' =>
      match i with
      | None => Ok None
      | Some p =>
          si ← deref ds p;
          let path' := path ++ [p] in
          if bool_decide (s_id si = fromid) then Ok (Some path')
          else walk_back_path fuel' ds fromid (s_pi si) path'
      end
  end.

(** The inner loop of the second pass: among the edges of [cur] that lead
    to [nxt], a departure inside the window replaces [cur->d]. *)
Fixpoint scan_hop (ds : Datastructures) (cur nxt : ptr) (edges : list Edge)
    (prev_arrival tracker : Time) : res (Datastructures * Z) :=
  match edges with
  | [] => Ok (ds, tracker)
  | (dep, (arr, v)) :: rest =>
      sv ← deref ds v;
      snxt ← deref ds nxt;
      if bool_decide (s_id sv = s_id snxt) then
        scur ← deref ds cur;
        if (dep <? s_d scur) && (dep >=? prev_arrival) && (arr <=? s_d snxt) then
          ds1 ← modify ds cur (set_d dep);
          scan_hop ds1 cur nxt rest prev_arrival arr
        else scan_hop ds cur nxt rest prev_arrival tracker
      else scan_hop ds cur nxt rest prev_arrival tracker
  end.

(** The second pass over the path, from the start to the goal. *)
Fixpoint fix_departures (ds : Datastructures) (path : list nat)
    (prev_arrival tracker : Time) : res Datastructures :=
  match path with
  | cur :: ((nxt :: _) as rest) =>
      scur ← deref ds cur;
      '(ds1, tracker1) ← scan_hop ds cur nxt (s_stations_to scur) prev_arrival tracker;
      fix_departures ds1 rest tracker1 tracker1
  | _ => Ok ds
  end.

Fixpoint path_times (ds : Datastructures) (path : list nat) : res (list (string * Z)) :=
  match path with
  | [] => Ok []
  | p :: rest =>
      sp ← deref ds p;
      r ← path_times ds rest;
      Ok ((s_id sp, to_Time (s_d sp)) :: r)
  end.

Definition route_earliest_arrival (fuel : nat) (ds : Datastructures)
    (fromid toid : StationID) (starttime : Time)
    : res (list (string * Z) * Datastructures) :=
  match stations_find ds fromid, stations_find ds toid with
  | Some _, Some _ =>
      if bool_decide (fromid = toid) then Ok ([(fromid, starttime)], ds)
      else
        let ds0 := reset_earliest_arrival ds in
        s ← stations_at ds0 fromid;
        g ← stations_at ds0 toid;
        ds1 ← modify ds0 s (set_d starttime);
        ds2 ← dijkstra_loop fuel ds1 g (set_insert (0, s) []);
        sg ← deref ds2 g;
        r ← walk_back_path fuel ds2 fromid (s_pi sg) [g];
        match r with
        | None => Ok ([], ds2)
        | Some path =>
            ds3 ← fix_departures ds2 (reverse path) starttime 2500;
            result ← path_times ds3 (reverse path);
            Ok (result, ds3)
        end
  | _, _ => Ok ([(NO_STATION, NO_TIME)], ds)
  end.

End Priority.

(** ** The public operations as a transition system *)

Inductive op :=
  | AddStation (id : string) (name : string) (xy : Coord)
  | ChangeStationCoord (id : string) (newcoord : Coord)
  | AddDeparture (stationid trainid : string) (time : Z)
  | RemoveDeparture (stationid trainid : string) (time : Z)
  | AddRegion (id : N) (name : string) (coords : list Coord)
  | AddSubregionToRegion (id parentid : N)
  | AddStationToRegion (id : string) (parentid : N)
  | RemoveStation (id : string)
  | AddTrain (trainid : string) (stationtimes : list (string * Z))
  | ClearTrains
  | ClearAll
  | RouteAny (fuel : nat) (fromid toid : string)
  | RouteLeastStations (fuel : nat) (fromid toid : string)
  | RouteWithCycle (fuel : nat) (fromid : string)
  | RouteShortestDistance (fuel : nat) (fromid toid : string)
  | RouteEarliestArrival (fuel : nat) (fromid toid : string) (starttime : Z).

Inductive answer :=
  | ABool (b : bool)
  | AVoid
  | ARoute (r : list (string * Z))
  | AStations (r : list string).

Definition is_query (o : op) : bool :=
  match o with
  | RouteAny _ _ _ | RouteLeastStations _ _ _ | RouteWithCycle _ _
  | RouteShortestDistance _ _ _ | RouteEarliestArrival _ _ _ _ => true
  | _ => false
  end.

Definition pure_bool (r : bool * Datastructures) : res (answer * Datastructures) :=
  Ok (ABool r.1, r.2).
Definition lift_bool (r : res (bool * Datastructures)) : res (answer * Datastructures) :=
  '(b, ds) ← r; Ok (ABool b, ds).
Definition lift_route (r : res (list (string * Z) * Datastructures))
    : res (answer * Datastructures) :=
  '(l, ds) ← r; Ok (ARoute l, ds).

Section Calls.

Variable place : nat -> Z.

(** One call of a public operation: its return value and the state after it. *)
Definition call (o : op) (ds : Datastructures) : res (answer * Datastructures) :=
  match o with
  | AddStation id name xy => pure_bool (add_station ds id name xy)
  | ChangeStationCoord id c => lift_bool (change_station_coord ds id c)
  | AddDeparture s t time => lift_bool (add_departure ds s t time)
  | RemoveDeparture s t time => lift_bool (remove_departure ds s t time)
  | AddRegion id name coords => pure_bool (add_region ds id name coords)
  | AddSubregionToRegion id parentid => pure_bool (add_subregion_to_region ds id parentid)
  | AddStationToRegion id parentid => lift_bool (add_station_to_region ds id parentid)
  | RemoveStation id => pure_bool (remove_station ds id)
  | AddTrain t stops => lift_bool (add_train ds t stops)
  | ClearTrains => Ok (AVoid, clear_trains ds)
  | ClearAll => Ok (AVoid, clear_all ds)
  | RouteAny fuel a b => lift_route (route_any fuel ds a b)
  | RouteLeastStations fuel a b => lift_route (route_least_stations fuel ds a b)
  | RouteWithCycle fuel a =>
      '(l, ds') ← route_with_cycle fuel ds a; Ok (AStations l, ds')
  | RouteShortestDistance fuel a b => lift_route (route_shortest_distance place fuel ds a b)
  | RouteEarliestArrival fuel a b t =>
      lift_route (route_earliest_arrival place fuel ds a b t)
  end.

Definition exec (o : op) (ds : Datastructures) : res Datastructures :=
  snd <$> call o ds.

Fixpoint run (ops : list op) (ds : Datastructures) : res Datastructures :=
  match ops with
  | [] => Ok ds
  | o :: ops' => ds1 ← exec o ds; run ops' ds1
  end.

(** The states the object can be in: those obtained from the freshly
    constructed one by calls that return. *)
Definition reachable (ds : Datastructures) : Prop :=
  ∃ ops, run ops Datastructures_init = Ok ds.

End Calls.

(** ** The network as a graph *)

(** [edge ds p q]: the station at [p] has an outgoing edge to the one at [q]. *)
Definition edge (ds : Datastructures) (p q : ptr) : Prop :=
  ∃ s dep arr, nodes ds !! p = Some s ∧ (dep, (arr, q)) ∈ s_stations_to s.

(** A cycle can be reached from station [A] along outgoing edges. *)
Definition cycle_reachable (ds : Datastructures) (A : StationID) : Prop :=
  ∃ p q, stations ds !! A = Some p ∧ rtc (edge ds) p q ∧ tc (edge ds) q q.

(** Every stored edge leads to a node with a larger address; such a network
    has no cycle. *)
Definition edges_ascend (ds : Datastructures) : Prop :=
  map_Forall (fun p s => Forall (fun e : Edge => (p < e.2.2)%nat) (s_stations_to s)) (nodes ds).

Fixpoint path_edges (ds : Datastructures) (ps : list nat) : Prop :=
  match ps with
  | p :: ((q :: _) as rest) => edge ds p q ∧ path_edges ds rest
  | _ => True
  end.

(** The sum of the edge distances along a sequence of nodes. *)
Fixpoint path_distance (ds : Datastructures) (ps : list nat) : Z :=
  match ps with
  | p :: ((q :: _) as rest) =>
      match nodes ds !! p, nodes ds !! q with
      | Some a, Some b => distance_between_points (s_location a) (s_location b)
      | _, _ => 0
      end + path_distance ds rest
  | _ => 0
  end.

(** [ps] is a simple path from station [a] to station [b] in the multigraph
    of edges. *)
Definition simple_path (ds : Datastructures) (a b : StationID) (ps : list nat) : Prop :=
  NoDup ps ∧ head ps = stations ds !! a ∧ last ps = stations ds !! b ∧
  is_Some (head ps) ∧ path_edges ds ps.

(** ** Invariants of the edges *)

(** Every outgoing edge departs no later than it arrives. *)
Definition edges_timed (ds : Datastructures) : Prop :=
  map_Forall (fun _ s => Forall (fun e : Edge => e.1 <= e.2.1) (s_stations_to s)) (nodes ds).

(** The departure times of a stop list never decrease. *)
Fixpoint nondecreasing (stationtimes : list (string * Z)) : Prop :=
  match stationtimes with
  | (_, t) :: (((_, t') :: _) as rest) => t <= t' ∧ nondecreasing rest
  | _ => True
  end.

Definition op_timed (o : op) : Prop :=
  match o with
  | AddTrain _ stationtimes => nondecreasing stationtimes
  | _ => True
  end.

(** Every node lies below [next_node]: the address handed out next is free. *)
Definition nodes_bounded (ds : Datastructures) : Prop :=
  ∀ p, is_Some (nodes ds !! p) -> (p < next_node ds)%nat.

(** [same_on π ds ds']: the two states have the same nodes, and every node
    has the same [π] in both. *)
Definition same_on {A : Type} (π : Station -> A) (ds ds' : Datastructures) : Prop :=
  next_node ds' = next_node ds ∧ ∀ p, π <$> nodes ds' !! p = π <$> nodes ds !! p.

(** Every predecessor link that is set belongs to a node that can be
    reached from [s] by at least one edge of [E]. *)
Definition pi_sound (E : nat -> nat -> Prop) (s : nat) (ds : Datastructures) : Prop :=
  ∀ p sp, nodes ds !! p = Some sp -> is_Some (s_pi sp) -> tc E s p.

(** ** Scratch fields *)

(** The station with its four search fields blanked: what a query leaves
    alone. *)
Definition blank (s : Station) : Station :=
  set_pi None (set_de 0 (set_d 0 (set_color 0 s))).

(** [wipe W ds]: the state with [W] applied to every station. *)
Definition wipe (W : Station -> Station) (ds : Datastructures) : Datastructures :=
  with_nodes (W <$> nodes ds) ds.

(** The state up to the search fields of its stations. *)
Definition frame (ds : Datastructures) : Datastructures := wipe blank ds.

(** The search fields a query neither resets nor reads, blanked:
    [route_any] leaves [color] and [de] alone, [route_least_stations] leaves
    [color], [route_with_cycle] leaves [d] and [de], and
    [route_earliest_arrival] leaves [de]. *)
Definition ignore_color_de (s : Station) : Station := set_de 0 (set_color 0 s).
Definition ignore_color (s : Station) : Station := set_color 0 s.
Definition ignore_d_de (s : Station) : Station := set_de 0 (set_d 0 s).
Definition ignore_de (s : Station) : Station := set_de 0 s.

(** ** Scenarios *)

Definition default_place : nat -> Z := Z.of_nat.

Definition setup (ops : list op) : res Datastructures :=
  run default_place ops Datastructures_init.

(** The state a script ends in (the initial state if it does not return). *)
Definition the_state (r : res Datastructures) : Datastructures :=
  match r with
  | Ok ds => ds
  | Fail _ => Datastructures_init
  end.

(** Stations S1(0,0), S2(3,4), S3(6,8) and the train T1. *)
Definition line_ops : list op :=
  [AddStation "S1" "S1" (mkCoord 0 0); AddStation "S2" "S2" (mkCoord 3 4);
   AddStation "S3" "S3" (mkCoord 6 8);
   AddTrain "T1" [("S1", 100); ("S2", 110); ("S3", 130)]]%string.
Definition line_network : Datastructures := the_state (setup line_ops).

(** A→B→C by one train and A→C by another: no cycle. *)
Definition triangle_ops : list op :=
  [AddStation "A" "A" (mkCoord 0 0); AddStation "B" "B" (mkCoord 1 0);
   AddStation "C" "C" (mkCoord 2 0);
   AddTrain "T1" [("A", 1); ("B", 2); ("C", 3)];
   AddTrain "T2" [("A", 1); ("C", 5)]]%string.
Definition triangle_network : Datastructures := the_state (setup triangle_ops).

(** A→B→D and A→C→D: two routes to D, no cycle. *)
Definition diamond_ops : list op :=
  [AddStation "A" "A" (mkCoord 0 0); AddStation "B" "B" (mkCoord 1 1);
   AddStation "C" "C" (mkCoord 1 (-1)); AddStation "D" "D" (mkCoord 2 0);
   AddTrain "T1" [("A", 1); ("B", 2); ("D", 3)];
   AddTrain "T2" [("A", 1); ("C", 2); ("D", 3)]]%string.
Definition diamond_network : Datastructures := the_state (setup diamond_ops).

(** Six stations; the route s→b→w→g has length 140. *)
Definition detour_ops : list op :=
  [AddStation "s" "s" (mkCoord 0 0); AddStation "a" "a" (mkCoord 10 0);
   AddStation "b" "b" (mkCoord (-10) 0); AddStation "w" "w" (mkCoord (-20) 0);
   AddStation "x" "x" (mkCoord 50 50); AddStation "g" "g" (mkCoord 100 0);
   AddTrain "T1" [("s", 1); ("a", 2); ("w", 3); ("g", 4)];
   AddTrain "T2" [("s", 1); ("b", 2); ("w", 3)];
   AddTrain "T3" [("a", 1); ("x", 2); ("g", 3)]]%string.
Definition detour_network : Datastructures := the_state (setup detour_ops).

(** One station and a train that stops there twice in a row: an edge from
    A to itself. *)
Definition loop_ops : list op :=
  [AddStation "A" "A" (mkCoord 0 0); AddTrain "T" [("A", 1); ("A", 2)]]%string.
Definition loop_network : Datastructures := the_state (setup loop_ops).

(** A train whose second stop is timed before its first. *)
Definition backwards_ops : list op :=
  [AddStation "A" "A" (mkCoord 0 0); AddStation "B" "B" (mkCoord 1 0);
   AddTrain "T" [("A", 200); ("B", 100)]]%string.
Definition backwards_network : Datastructures := the_state (setup backwards_ops).

(** Country 1, State 2 and City 3, each the parent of the next. *)
Definition three_levels_ops : list op :=
  [AddRegion 1 "Country" []; AddRegion 2 "State" []; AddRegion 3 "City" [];
   AddSubregionToRegion 2 1; AddSubregionToRegion 3 2]%string%N.
Definition three_levels : Datastructures := the_state (setup three_levels_ops).

(** The regions and the line together, with S1 assigned to City. *)
Definition regional_ops : list op :=
  three_levels_ops ++ line_ops ++ [AddStationToRegion "S1" 3].
Definition regional_network : Datastructures := the_state (setup regional_ops).

(** ** Lookups *)

Definition get_station_name (ds : Datastructures) (id : StationID) : res Name :=
  match stations_find ds id with
  | Some _ =>
      if bool_decide (id ≠ NO_STATION) then
        p ← stations_at ds id; s ← deref ds p; Ok (s_name s)
      else Ok NO_NAME
  | None => Ok NO_NAME
  end.

Definition get_station_coordinates (ds : Datastructures) (id : StationID) : res Coord :=
  match stations_find ds id with
  | Some _ =>
      if bool_decide (id ≠ NO_STATION) then
        p ← stations_at ds id; s ← deref ds p; Ok (s_location s)
      else Ok NO_COORD
  | None => Ok NO_COORD
  end.

Definition get_region_name (ds : Datastructures) (id : RegionID) : Name :=
  match regions ds !! id with
  | None => NO_NAME
  | Some r => r_name r
  end.

Definition get_region_coords (ds : Datastructures) (id : RegionID) : list Coord :=
  match regions ds !! id with
  | None => [NO_COORD]
  | Some r => r_coordinates r
  end.

(** The [while (true)] loop of [station_in_regions]: the identifier stored in
    the region is recorded, then the parent is looked up. *)
Fixpoint regions_walk (fuel : nat) (ds : Datastructures) (help_it : option Region)
    (result : list N) : res (list N) :=
  match fuel with
  | O => Fail OutOfFuel
  | S fuel' =>
      match help_it with
      | Some r => regions_walk fuel' ds (regions ds !! r_parent r) (result ++ [r_id r])
      | None => Ok result
      end
  end.

Definition station_in_regions (fuel : nat) (ds : Datastructures) (id : StationID)
    : res (list N) :=
  match stations_find ds id with
  | None => Ok [NO_REGION]
  | Some p =>
      s ← deref ds p;
      if bool_decide (s_region s = NO_REGION) then Ok []
      else regions_walk fuel ds (regions ds !! s_region s) []
  end.

(** The comparison given to [std::sort] in [station_departures_after]: by
    time, then by train identifier ([std::string] compares character by
    character as unsigned bytes, and so does [String.ltb]). *)
Definition departure_lt (a b : Z * string) : bool :=
  if bool_decide (a.1 ≠ b.1) then a.1 <? b.1 else String.ltb a.2 b.2.

(** The relation that sorting by [departure_lt] establishes between an
    element and every later one. *)
Definition departure_le (a b : Z * string) : Prop := departure_lt b a = false.

(** What [std::sort] establishes for a comparison [lt]: no element is
    followed by one that [lt] puts before it. *)
Definition sort_by (lt : Z * string -> Z * string -> bool) (l : list (Z * string))
    : list (Z * string) :=
  @merge_sort _ (fun a b => lt b a = false) (fun a b => decide (lt b a = false)) l.

(** The pairs collected by the two nested loops of
    [station_departures_after]; the order in which the containers are walked
    does not reach the result, which is sorted afterwards. *)
Definition departures_from (time : Time) (deps : gmap Z (gset string)) : list (Z * string) :=
  '(t, trs) ← map_to_list deps;
  if bool_decide (time <= t) then (fun tr => (t, tr)) <$> elements trs else [].

Definition station_departures_after (ds : Datastructures) (stationid : StationID)
    (time : Time) : res (list (Z * string)) :=
  match stations_find ds stationid with
  | None => Ok [(NO_TIME, NO_TRAIN)]
  | Some p =>
      s ← deref ds p;
      Ok (sort_by departure_lt (departures_from time (s_departures s)))
  end.

(** The second loop of [train_stations_from]: every stop after the first
    occurrence of [stationid] is recorded. *)
Fixpoint stops_after (stationid : StationID) (stationtimes : list (string * Z))
    (found_station : bool) (result : list string) : bool * list string :=
  match stationtimes with
  | [] => (found_station, result)
  | (sid, _) :: rest =>
      let result' := if found_station then result ++ [sid] else result in
      let found' := if bool_decide (sid = stationid) then true else found_station in
      stops_after stationid rest found' result'
  end.

Definition train_stations_from (ds : Datastructures) (stationid : StationID)
    (trainid : TrainID) : res (list string) :=
  match stations_find ds stationid, trains ds !! trainid with
  | Some _, Some tr =>
      p ← stations_at ds stationid;
      s ← deref ds p;
      if bool_decide (map_Exists (fun _ trs => trainid ∈ trs) (s_departures s)) then
        let '(found_station, result) := stops_after stationid (t_stationtimes tr) false [] in
        if found_station then Ok result else Ok [NO_STATION]
      else Ok [NO_STATION]
  | _, _ => Ok [NO_STATION]
  end.

(** ** Well-formed registries *)

(** The key lookup and the nodes of the station map agree: every key leads to
    a node that carries it, every node is found under its identifier, and no
    node lies at or above [next_node]. *)
Definition registry_wf (ds : Datastructures) : Prop :=
  (∀ id p, stations ds !! id = Some p -> ∃ s, nodes ds !! p = Some s ∧ s_id s = id) ∧
  (∀ p s, nodes ds !! p = Some s -> stations ds !! s_id s = Some p) ∧
  nodes_bounded ds.

(** Train [tr] leaves station record [s] at time [t]. *)
Definition departs (s : Station) (t : Time) (tr : TrainID) : Prop :=
  ∃ trs, s_departures s !! t = Some trs ∧ tr ∈ trs.

(** No departure time of [s] is kept with an empty set of trains. *)
Definition departures_tidy (s : Station) : Prop :=
  ∀ t trs, s_departures s !! t = Some trs -> trs ≠ ∅.

(** [parent_of ds c p]: region [c] is registered with parent link [p], and
    the link is set. *)
Definition parent_of (ds : Datastructures) (c p : RegionID) : Prop :=
  ∃ r, regions ds !! c = Some r ∧ r_parent r = p ∧ p ≠ NO_REGION.

(** The region records agree with one another: a record is stored under its
    own identifier, a parent link that is set names a registered region that
    lists the child, and every listed child other than those of the region
    whose identifier is NO_REGION is registered with that parent. *)
Definition hierarchy_wf (ds : Datastructures) : Prop :=
  (∀ k r, regions ds !! k = Some r -> r_id r = k) ∧
  (∀ c p, parent_of ds c p -> ∃ rp, regions ds !! p = Some rp ∧ c ∈ r_subregions rp) ∧
  (∀ p rp c, regions ds !! p = Some rp -> c ∈ r_subregions rp ->
     is_Some (regions ds !! c) ∧ (p ≠ NO_REGION -> parent_of ds c p)).

(** [chain_from ds k l]: [l] lists [k], its parent link, the parent link of
    that, and so on, up to the first link that names no registered region. *)
Fixpoint chain_from (ds : Datastructures) (k : RegionID) (l : list N) : Prop :=
  match l with
  | [] => regions ds !! k = None
  | a :: rest => a = k ∧ ∃ r, regions ds !! k = Some r ∧ chain_from ds (r_parent r) rest
  end.

(** [plink ds c p]: region [c] is registered and its parent link is [p]. *)
Definition plink (ds : Datastructures) (c p : RegionID) : Prop :=
  ∃ r, regions ds !! c = Some r ∧ r_parent r = p.

(** [ancestors ds k l]: region [k] is registered and [l] lists its parent,
    the parent of that, and so on, up to a registered region whose parent
    link is not set. *)
Fixpoint ancestors (ds : Datastructures) (k : RegionID) (l : list N) : Prop :=
  ∃ r, regions ds !! k = Some r ∧
    match l with
    | [] => r_parent r = NO_REGION
    | p :: rest => r_parent r = p ∧ p ≠ NO_REGION ∧ ancestors ds p rest
    end.

(** The region of every station that has one is registered. *)
Definition regions_live (ds : Datastructures) : Prop :=
  ∀ p s, nodes ds !! p = Some s -> s_region s ≠ NO_REGION ->
    is_Some (regions ds !! s_region s).

(** The operations that leave the region map as it is. *)
Definition keeps_regions (o : op) : bool :=
  match o with
  | AddRegion _ _ _ | AddSubregionToRegion _ _ | ClearAll => false
  | _ => true
  end.

(** Every edge of a node leads to a node. *)
Definition edges_live (ds : Datastructures) : Prop :=
  ∀ p s, nodes ds !! p = Some s ->
    Forall (fun e : Edge => is_Some (nodes ds !! e.2.2)) (s_stations_to s).

(** The call stays inside the defined behaviour of the program: it returns a
    value that satisfies [P], or the fuel runs out. *)
Definition safely {A} (P : A -> Prop) (r : res A) : Prop :=
  match r with
  | Ok a => P a
  | Fail f => f = OutOfFuel
  end.

(** The outcome is a fault of the program itself, not the end of the fuel. *)
Definition faulty {A} (r : res A) : Prop :=
  r = Fail UndefinedBehaviour ∨ r = Fail OutOfRange.

(** The edges [add_train] appends at node [p] for a stop list: one for each
    stop at the station of [p] that is followed by another stop. *)
Fixpoint edges_of_stops (ds : Datastructures) (p : ptr) (stationtimes : list (string * Z))
    : list Edge :=
  match stationtimes with
  | (sid, t) :: (((sid', t') :: _) as rest) =>
      match stations ds !! sid, stations ds !! sid' with
      | Some q, Some q' =>
          if bool_decide (q = p) then (t, (t', q')) :: edges_of_stops ds p rest
          else edges_of_stops ds p rest
      | _, _ => edges_of_stops ds p rest
      end
  | _ => []
  end.

(** The operations that leave the set of stations as it is. *)
Definition keeps_stations (o : op) : bool :=
  match o with
  | AddStation _ _ _ | RemoveStation _ | ClearAll => false
  | _ => true
  end.

(** * Properties *)

(** ** Outcomes *)

Lemma bind_Ok {A B} (m : res A) (k : A -> res B) (b : B) :
  m ≫= k = Ok b -> ∃ a, m = Ok a ∧ k a = Ok b.
Proof. destruct m as [a|f]; simpl; [eauto | discriminate]. Qed.

Lemma fmap_Ok {A B} (f : A -> B) (m : res A) (b : B) :
  f <$> m = Ok b -> ∃ a, m = Ok a ∧ b = f a.
Proof. destruct m as [a|e]; simpl; [intros [= <-]; eauto | discriminate]. Qed.

(** Splits a hypothesis [prog = Ok r] along the binds, branches and matches
    of [prog]. *)
Ltac inv_ok :=
  repeat (simplify_eq; match goal with
  | H : _ ≫= _ = Ok _ |- _ =>
      apply bind_Ok in H as (? & ? & H); cbv beta iota zeta in H
  | H : _ <$> _ = Ok _ |- _ => apply fmap_Ok in H as (? & ? & H)
  | H : (if ?b then _ else _) = Ok _ |- _ => destruct b eqn:?
  | H : match ?x with _ => _ end = Ok _ |- _ =>
      destruct x eqn:?; cbv beta iota zeta in H
  | H : (if ?b then _ else _) = (_, _) |- _ => destruct b eqn:?
  | H : match ?x with _ => _ end = (_, _) |- _ =>
      destruct x eqn:?; cbv beta iota zeta in H
  end); simplify_eq.

Lemma deref_Some ds p s : deref ds p = Ok s <-> nodes ds !! p = Some s.
Proof. unfold deref. destruct (nodes ds !! p); split; congruence. Qed.

Lemma modify_Ok ds p f ds' :
  modify ds p f = Ok ds' ->
  ∃ s, nodes ds !! p = Some s ∧ ds' = with_nodes (<[p := f s]> (nodes ds)) ds.
Proof.
  unfold modify. intros H. apply bind_Ok in H as (s & Hs & H).
  apply deref_Some in Hs. injection H as <-. eauto.
Qed.

(** ** The scenarios are states the program reaches *)

Lemma scenarios_reached :
  setup line_ops = Ok line_network ∧ setup triangle_ops = Ok triangle_network ∧
  setup diamond_ops = Ok diamond_network ∧ setup detour_ops = Ok detour_network ∧
  setup backwards_ops = Ok backwards_network ∧ setup three_levels_ops = Ok three_levels ∧
  setup regional_ops = Ok regional_network.
Proof. split_and!; vm_compute; reflexivity. Qed.

(** ** add_train validates before it mutates *)

Lemma stops_known_unknown ds (stationtimes : list (string * Z)) sid t :
  (sid, t) ∈ stationtimes -> stations_find ds sid = None ->
  stops_known ds stationtimes = false.
Proof.
  induction stationtimes as [|[sid' t'] rest IH]; intros Hin Hnone.
  - inversion Hin.
  - simpl. apply elem_of_cons in Hin as [[= <- <-]|Hin].
    + by rewrite Hnone.
    + destruct (stations_find ds sid'); [by apply IH | done].
Qed.

(** C5. [add_train] is all-or-nothing: when the train identifier is already
    registered, or some stop names a station that is not registered, the call
    returns false and the state after it is the state before it. *)
Theorem add_train_all_or_nothing ds trainid (stationtimes : list (string * Z)) :
  is_Some (trains ds !! trainid) ∨
  (∃ sid t, (sid, t) ∈ stationtimes ∧ stations_find ds sid = None) ->
  add_train ds trainid stationtimes = Ok (false, ds).
Proof.
  intros [[tr Htr]|(sid & t & Hin & Hnone)]; unfold add_train.
  - by rewrite Htr.
  - destruct (trains ds !! trainid); [done|].
    by rewrite (stops_known_unknown _ _ _ _ Hin Hnone).
Qed.

Lemma add_train_all_or_nothing_witness :
  add_train Datastructures_init "T1" [("S1", 100); ("S2", 110)]%string
  = Ok (false, Datastructures_init).
Proof.
  apply add_train_all_or_nothing. right.
  exists "S1"%string, 100. split; [apply list_elem_of_here | reflexivity].
Defined.

(** ** clear_all and the train registry *)

Lemma modify_trains ds p f ds' : modify ds p f = Ok ds' -> trains ds' = trains ds.
Proof. intros H. apply modify_Ok in H as (s & _ & ->). done. Qed.

Lemma modify_stations ds p f ds' : modify ds p f = Ok ds' -> stations ds' = stations ds.
Proof. intros H. apply modify_Ok in H as (s & _ & ->). done. Qed.

Lemma modify_regions ds p f ds' : modify ds p f = Ok ds' -> regions ds' = regions ds.
Proof. intros H. apply modify_Ok in H as (s & _ & ->). done. Qed.

Lemma add_departure_trains ds sid tid t b ds' :
  add_departure ds sid tid t = Ok (b, ds') -> trains ds' = trains ds.
Proof.
  unfold add_departure. intros H. inv_ok; eauto using modify_trains.
Qed.

Lemma add_train_edges_cons ds trainid sid t sid' t' (rest : list (string * Z)) :
  add_train_edges ds trainid ((sid, t) :: (sid', t') :: rest) =
  '(_, ds1) ← add_departure ds sid trainid t;
  p ← stations_at ds1 sid';
  q ← stations_at ds1 sid;
  ds2 ← modify ds1 q (fun s => set_stations_to (s_stations_to s ++ [(t, (t', p))]) s);
  add_train_edges ds2 trainid ((sid', t') :: rest).
Proof. reflexivity. Qed.

Lemma add_train_edges_trains trainid (stationtimes : list (string * Z)) :
  ∀ ds ds', add_train_edges ds trainid stationtimes = Ok ds' -> trains ds' = trains ds.
Proof.
  induction stationtimes as [|[sid t] rest IH]; intros ds ds' H.
  - by injection H as <-.
  - destruct rest as [|[sid' t'] rest]; [by injection H as <-|].
    rewrite add_train_edges_cons in H.
    inv_ok. apply IH in H. rewrite H.
    erewrite modify_trains by eassumption.
    eauto using add_departure_trains.
Qed.

Lemma add_train_registers ds trainid stationtimes ds' :
  add_train ds trainid stationtimes = Ok (true, ds') ->
  trains ds' !! trainid = Some (mkTrain trainid stationtimes).
Proof.
  unfold add_train. intros H. inv_ok.
  erewrite add_train_edges_trains by eassumption. simpl. apply lookup_insert_eq.
Qed.

(** C9. [clear_all] empties the station and region registries and leaves the
    train registry as it is: a train identifier that is registered stays
    registered, so adding it again after [clear_all] returns false. *)
Theorem clear_all_keeps_trains ds trainid :
  is_Some (trains ds !! trainid) ->
  stations (clear_all ds) = ∅ ∧ nodes (clear_all ds) = ∅ ∧ regions (clear_all ds) = ∅ ∧
  trains (clear_all ds) = trains ds ∧
  ∀ stationtimes, add_train (clear_all ds) trainid stationtimes = Ok (false, clear_all ds).
Proof.
  intros [tr Htr]. split_and!; try reflexivity.
  intros stationtimes. unfold add_train.
  change (trains (clear_all ds)) with (trains ds). by rewrite Htr.
Qed.

Lemma clear_all_keeps_trains_witness :
  trains (clear_all line_network) = trains line_network ∧
  add_train (clear_all line_network) "T1" [("S1", 100)]%string
  = Ok (false, clear_all line_network).
Proof.
  assert (H : is_Some (trains line_network !! "T1"%string)).
  { vm_compute. eexists. reflexivity. }
  destruct (clear_all_keeps_trains line_network "T1"%string H) as (_ & _ & _ & Ht & Hadd).
  split; [exact Ht | apply Hadd].
Defined.

(** ** Stations and regions *)

(** A station that has a region is refused another one. *)
Lemma add_station_to_region_once ds id p s :
  stations_find ds id = Some p -> nodes ds !! p = Some s -> s_region s ≠ NO_REGION ->
  ∀ parentid, add_station_to_region ds id parentid = Ok (false, ds).
Proof.
  intros Hid Hp Hr parentid. unfold add_station_to_region.
  rewrite Hid. destruct (regions ds !! parentid); [|done].
  apply deref_Some in Hp. rewrite Hp. simpl.
  by rewrite bool_decide_eq_true_2.
Qed.

(** ** Nearest common parent *)

(** In the chain Country, State, City the query for City and Country builds
    the chain [State; Country] for City and the empty chain for Country. *)
Lemma parents_loop_three_levels ds fuel rc rs rk :
  regions ds !! r_parent rc = Some rs -> regions ds !! r_parent rs = Some rk ->
  r_parent rk = NO_REGION -> r_parent rc ≠ NO_REGION -> r_parent rs ≠ NO_REGION ->
  parents_loop (2 + fuel) ds (Some rc) (Some rk) [] []
  = Ok ([r_parent rc; r_parent rs], []).
Proof.
  intros Hs Hk Hroot Hns Hnk. simpl.
  rewrite (bool_decide_eq_true_2 _ Hns), Hs, Hroot. simpl.
  rewrite (bool_decide_eq_false_2 (r_parent rs = NO_REGION)) by done. simpl.
  rewrite (bool_decide_eq_true_2 _ Hnk), Hk, Hroot. simpl.
  by rewrite bool_decide_eq_true_2.
Qed.

(** C3 (amended). In a hierarchy where Country has no parent, Country is the
    parent of State and State the parent of City, the common parent of City
    and Country is NO_REGION: a region is not among its own parents.  Two
    Cities with the same immediate parent State have State as their common
    parent. *)
Theorem common_parent_three_levels ds fuel city state country rc rs rk :
  regions ds !! city = Some rc -> r_parent rc = state ->
  regions ds !! state = Some rs -> r_parent rs = country ->
  regions ds !! country = Some rk -> r_parent rk = NO_REGION ->
  state ≠ NO_REGION -> country ≠ NO_REGION ->
  common_parent_of_regions (2 + fuel) ds city country = Ok NO_REGION ∧
  ∀ fuel' city' rc', regions ds !! city' = Some rc' -> r_parent rc' = state ->
    common_parent_of_regions fuel' ds city city' = Ok state.
Proof.
  intros Hc <- Hs <- Hk Hroot Hns Hnk. split.
  - unfold common_parent_of_regions. rewrite Hc, Hk.
    rewrite bool_decide_eq_false_2 by congruence.
    by rewrite (parents_loop_three_levels ds fuel rc rs rk).
  - intros fuel' city' rc' Hc' Hp. unfold common_parent_of_regions.
    rewrite Hc, Hc'. by rewrite bool_decide_eq_true_2.
Qed.

Lemma common_parent_three_levels_witness :
  common_parent_of_regions 2 three_levels 3 1 = Ok NO_REGION.
Proof.
  refine (proj1 (common_parent_three_levels three_levels 0 3 2 1
    (mkRegion 3 "City" [] 2 ∅) (mkRegion 2 "State" [] 1 {[3%N]})
    (mkRegion 1 "Country" [] NO_REGION {[2%N]}) _ _ _ _ _ _ _ _));
    try (vm_compute; reflexivity); vm_compute; discriminate.
Defined.

(** C3 as stated fails: for City and Country the code answers NO_REGION,
    not Country. *)
Lemma common_parent_not_country :
  common_parent_of_regions 10 three_levels 3 1 = Ok NO_REGION ∧
  common_parent_of_regions 10 three_levels 3 1 ≠ Ok 1%N.
Proof. split; vm_compute; [reflexivity | discriminate]. Qed.

(** ** Earliest arrival on the line S1, S2, S3 *)

(** C2 (amended). With S1(0,0), S2(3,4), S3(6,8) and the train T1 leaving S1
    at 100, S2 at 110 and reaching S3 at 130, [route_earliest_arrival] from S1
    to S3 with start time 90 pairs every station with the time the route
    leaves it: the first entry is (S1, 100), the departure of T1, and the
    result is [(S1,100); (S2,110); (S3,130)]. *)
Theorem earliest_arrival_on_line :
  setup line_ops = Ok line_network ∧
  ∀ place n,
    fst <$> route_earliest_arrival place (3 + n) line_network "S1" "S3" 90
    = Ok [("S1", 100); ("S2", 110); ("S3", 130)]%string.
Proof.
  split; [vm_compute; reflexivity|].
  intros place n. vm_compute. reflexivity.
Qed.

(** C2 as stated fails: the result does not start with (S1, 90). *)
Lemma earliest_arrival_not_start_time :
  fst <$> route_earliest_arrival default_place 10 line_network "S1" "S3" 90
  ≠ Ok [("S1", 90); ("S2", 110); ("S3", 130)]%string.
Proof. vm_compute. discriminate. Qed.

(** ** Networks without cycles *)

Lemma edges_ascend_edge ds p q : edges_ascend ds -> edge ds p q -> (p < q)%nat.
Proof.
  intros Hasc (s & dep & arr & Hs & Hin).
  specialize (Hasc p s Hs). simpl in Hasc.
  rewrite Forall_forall in Hasc. exact (Hasc _ Hin).
Qed.

Lemma edges_ascend_tc ds p q : edges_ascend ds -> tc (edge ds) p q -> (p < q)%nat.
Proof.
  intros Hasc Htc. induction Htc as [p q He|p q r He _ IH].
  - eauto using edges_ascend_edge.
  - apply (edges_ascend_edge ds p q Hasc) in He. lia.
Qed.

Lemma edges_ascend_acyclic ds A : edges_ascend ds -> ¬ cycle_reachable ds A.
Proof.
  intros Hasc (p & q & _ & _ & Hcyc).
  apply (edges_ascend_tc ds q q Hasc) in Hcyc. lia.
Qed.

Lemma triangle_ascends : edges_ascend triangle_network.
Proof. apply map_Forall_to_list. vm_compute. repeat constructor. Qed.

Lemma diamond_ascends : edges_ascend diamond_network.
Proof. apply map_Forall_to_list. vm_compute. repeat constructor. Qed.

(** ** route_with_cycle on networks without cycles *)

(** C1 (failing input). Stations A, B, C with the trains A→B→C and A→C: no
    cycle can be reached from A, and [route_with_cycle] returns the route
    A, B, C, in which no station occurs twice. *)
Theorem route_with_cycle_triangle :
  setup triangle_ops = Ok triangle_network ∧
  ¬ cycle_reachable triangle_network "A" ∧
  ∀ n, fst <$> route_with_cycle (5 + n) triangle_network "A" = Ok ["A"; "B"; "C"]%string.
Proof.
  split_and!.
  - vm_compute. reflexivity.
  - apply edges_ascend_acyclic, triangle_ascends.
  - intros n. vm_compute. reflexivity.
Qed.

(** The converse also fails at the start station: with an edge from A to
    itself a cycle can be reached from A, but the station that closes the
    cycle is the start, whose [pi] is null, and the result is empty. *)
Lemma route_with_cycle_self_loop :
  setup loop_ops = Ok loop_network ∧
  cycle_reachable loop_network "A" ∧
  ∀ n, fst <$> route_with_cycle (2 + n) loop_network "A" = Ok [].
Proof.
  split_and!.
  - vm_compute. reflexivity.
  - exists 0%nat, 0%nat. split_and!; [vm_compute; reflexivity | apply rtc_refl |].
    apply tc_once.
    eexists _, _, _; split; [vm_compute; reflexivity|]. apply list_elem_of_here.
  - intros n. vm_compute. reflexivity.
Qed.

(** C6 (failing input). Stations A, B, C, D with the trains A→B→D and A→C→D:
    the start station is known and no cycle can be reached from it, and the
    result of [route_with_cycle] is neither empty nor the not-found answer. *)
Theorem route_with_cycle_diamond :
  setup diamond_ops = Ok diamond_network ∧
  is_Some (stations_find diamond_network "A") ∧
  ¬ cycle_reachable diamond_network "A" ∧
  ∀ n, ∃ r, fst <$> route_with_cycle (7 + n) diamond_network "A" = Ok r ∧
            r ≠ [] ∧ r ≠ [NO_STATION].
Proof.
  split_and!.
  - vm_compute. reflexivity.
  - vm_compute. eexists. reflexivity.
  - apply edges_ascend_acyclic, diamond_ascends.
  - intros n. eexists. split_and!; [vm_compute; reflexivity | discriminate..].
Qed.

(** ** Unknown endpoints *)

Lemma route_unknown_endpoint place fuel ds fromid toid starttime :
  stations_find ds fromid = None ∨ stations_find ds toid = None ->
  route_any fuel ds fromid toid = Ok ([(NO_STATION, NO_DISTANCE)], ds) ∧
  route_least_stations fuel ds fromid toid = Ok ([(NO_STATION, NO_DISTANCE)], ds) ∧
  route_shortest_distance place fuel ds fromid toid = Ok ([(NO_STATION, NO_DISTANCE)], ds) ∧
  route_earliest_arrival place fuel ds fromid toid starttime = Ok ([(NO_STATION, NO_TIME)], ds).
Proof.
  unfold route_any, route_least_stations, route_shortest_distance, route_earliest_arrival.
  intros [-> | ->]; [done|]. by destruct (stations_find ds fromid).
Qed.

Lemma route_with_cycle_unknown fuel ds fromid :
  stations_find ds fromid = None -> route_with_cycle fuel ds fromid = Ok ([NO_STATION], ds).
Proof. unfold route_with_cycle. by intros ->. Qed.

(** ** route_shortest_distance against the shortest simple path *)

Ltac find_edge :=
  eexists _, _, _; split; [vm_compute; reflexivity|];
  solve [repeat first [apply list_elem_of_here | apply list_elem_of_further]].

(** C7 (failing input). Six stations s(0,0), a(10,0), b(-10,0), w(-20,0),
    x(50,50), g(100,0) with the trains s→a→w→g, s→b→w and a→x→g.  The simple
    path s, b, w, g has length 10 + 10 + 120 = 140, and
    [route_shortest_distance] from s to g returns the route s, a, x, g with
    total distance 144, whatever the addresses of the nodes are. *)
Theorem route_shortest_distance_detour :
  setup detour_ops = Ok detour_network ∧
  (∀ place n,
     fst <$> route_shortest_distance place (5 + n) detour_network "s" "g"
     = Ok [("s", 0); ("a", 10); ("x", 74); ("g", 144)]%string) ∧
  ∃ ps, simple_path detour_network "s" "g" ps ∧ path_distance detour_network ps = 140.
Proof.
  split_and!.
  - vm_compute. reflexivity.
  - intros place n. vm_compute. reflexivity.
  - exists [0; 2; 3; 5]%nat. split; [|vm_compute; reflexivity].
    unfold simple_path. split_and!.
    + apply (bool_decide_unpack _). vm_compute. exact I.
    + vm_compute. reflexivity.
    + vm_compute. reflexivity.
    + eexists. reflexivity.
    + simpl. split_and!; [find_edge..|exact I].
Qed.

(** ** Queries touch the search fields only *)

Arguments deref : simpl never.
Arguments modify : simpl never.
Arguments wipe : simpl never.
Arguments stations_at : simpl never.

Lemma deref_wipe W ds p : deref (wipe W ds) p = W <$> deref ds p.
Proof.
  unfold deref, wipe. simpl. rewrite lookup_fmap.
  by destruct (nodes ds !! p).
Qed.

Lemma modify_wipe W ds p f :
  (∀ s, f (W s) = W (f s)) -> modify (wipe W ds) p f = wipe W <$> modify ds p f.
Proof.
  intros Hf. unfold modify. rewrite deref_wipe.
  destruct (deref ds p) as [s|]; [|done]. simpl.
  unfold wipe, with_nodes. simpl. by rewrite fmap_insert, Hf.
Qed.

Lemma wipe_wipe W R ds : wipe W (wipe R ds) = wipe (W ∘ R) ds.
Proof. unfold wipe, with_nodes. simpl. by rewrite <- map_fmap_compose. Qed.

Lemma wipe_ext W R ds : (∀ s, W s = R s) -> wipe W ds = wipe R ds.
Proof.
  intros H. unfold wipe, with_nodes. f_equal.
  apply map_fmap_ext. intros; apply H.
Qed.

(** What does not look at the search fields takes the same value on states
    with the same frame. *)
Lemma wipe_frame F ds1 ds2 :
  (∀ s, F (blank s) = F s) -> frame ds1 = frame ds2 -> wipe F ds1 = wipe F ds2.
Proof.
  intros HF Hfr.
  assert (Hw : ∀ ds, wipe F ds = wipe F (frame ds)).
  { intros ds. unfold frame. rewrite wipe_wipe. apply wipe_ext. intros s; symmetry; apply HF. }
  by rewrite (Hw ds1), (Hw ds2), Hfr.
Qed.

Lemma frame_wipe R ds : (∀ s, blank (R s) = blank s) -> frame (wipe R ds) = frame ds.
Proof. intros H. unfold frame. rewrite wipe_wipe. by apply wipe_ext. Qed.

Lemma modify_frame ds p f ds' :
  (∀ s, blank (f s) = blank s) -> modify ds p f = Ok ds' -> frame ds' = frame ds.
Proof.
  intros Hf H. apply modify_Ok in H as (s & Hs & ->).
  unfold frame, wipe, with_nodes. simpl. f_equal.
  rewrite fmap_insert, Hf. apply insert_id. by rewrite lookup_fmap, Hs.
Qed.

Lemma frame_stations ds ds' : frame ds' = frame ds -> stations ds' = stations ds.
Proof. intros H. exact (f_equal stations H). Qed.

Lemma frame_lookup ds ds' p s' :
  frame ds' = frame ds -> nodes ds' !! p = Some s' ->
  ∃ s, nodes ds !! p = Some s ∧ blank s = blank s'.
Proof.
  intros H Hs'. apply (f_equal (fun d => nodes d !! p)) in H.
  unfold frame, wipe in H. simpl in H. rewrite !lookup_fmap, Hs' in H.
  destruct (nodes ds !! p) as [s|]; [|done]. exists s. split; [done|].
  simpl in H. congruence.
Qed.

(** Closes a goal [frame ds' = frame ds] from the hypotheses that the
    inversion of the run leaves. *)
Ltac frame_step :=
  repeat match goal with
  | H : modify _ _ _ = Ok _ |- _ => apply modify_frame in H; [|reflexivity]
  end.

Lemma scan_any_frame toid edges : ∀ ds u Q ds' Q' b,
  scan_any ds u toid edges Q = Ok (ds', Q', b) -> frame ds' = frame ds.
Proof.
  induction edges as [|[dep [arr v]] rest IH]; intros ds u Q ds' Q' b H; simpl in H.
  - by simplify_eq.
  - inv_ok; frame_step; try (apply IH in H); congruence.
Qed.

Lemma bfs_any_frame toid fuel : ∀ ds Q found ds',
  bfs_any fuel ds toid Q found = Ok ds' -> frame ds' = frame ds.
Proof.
  induction fuel as [|fuel IH]; intros ds Q found ds' H; simpl in H; [done|].
  inv_ok; try done;
    repeat match goal with
    | H : scan_any _ _ _ _ _ = Ok _ |- _ => apply scan_any_frame in H
    | H : bfs_any _ _ _ _ _ = Ok _ |- _ => apply IH in H
    end; congruence.
Qed.

Lemma scan_least_stations_frame toid edges : ∀ ds u Q ds' Q' b,
  scan_least_stations ds u toid edges Q = Ok (ds', Q', b) -> frame ds' = frame ds.
Proof.
  induction edges as [|[dep [arr v]] rest IH]; intros ds u Q ds' Q' b H; simpl in H.
  - by simplify_eq.
  - inv_ok; frame_step; try (apply IH in H); congruence.
Qed.

Lemma bfs_least_stations_frame toid fuel : ∀ ds Q found ds',
  bfs_least_stations fuel ds toid Q found = Ok ds' -> frame ds' = frame ds.
Proof.
  induction fuel as [|fuel IH]; intros ds Q found ds' H; simpl in H; [done|].
  inv_ok; try done;
    repeat match goal with
    | H : scan_least_stations _ _ _ _ _ = Ok _ |- _ => apply scan_least_stations_frame in H
    | H : bfs_least_stations _ _ _ _ _ = Ok _ |- _ => apply IH in H
    end; congruence.
Qed.

Lemma scan_cycle_frame edges : ∀ ds u S ds' S' found,
  scan_cycle ds u edges S = Ok (ds', S', found) -> frame ds' = frame ds.
Proof.
  induction edges as [|[dep [arr v]] rest IH]; intros ds u S ds' S' found H; simpl in H.
  - by simplify_eq.
  - inv_ok; frame_step; try (apply IH in H); congruence.
Qed.

Lemma dfs_cycle_frame fuel : ∀ ds S ds' found,
  dfs_cycle fuel ds S = Ok (ds', found) -> frame ds' = frame ds.
Proof.
  induction fuel as [|fuel IH]; intros ds S ds' found H; simpl in H; [done|].
  inv_ok; try done; frame_step;
    repeat match goal with
    | H : scan_cycle _ _ _ _ = Ok _ |- _ => apply scan_cycle_frame in H
    | H : dfs_cycle _ _ _ = Ok _ |- _ => apply IH in H
    end; congruence.
Qed.

Lemma reset_frame ds :
  frame (reset_any ds) = frame ds ∧ frame (reset_least_stations ds) = frame ds ∧
  frame (reset_cycle ds) = frame ds ∧ frame (reset_shortest_distance ds) = frame ds ∧
  frame (reset_earliest_arrival ds) = frame ds.
Proof. split_and!; by apply frame_wipe. Qed.

Lemma relax_astar_frame ds u v g ds' :
  relax_astar ds u v g = Ok ds' -> frame ds' = frame ds.
Proof. unfold relax_astar. intros H. inv_ok; frame_step; congruence. Qed.

Lemma relax_dijkstra_frame ds u v u_depart at_v ds' :
  relax_dijkstra ds u v u_depart at_v = Ok ds' -> frame ds' = frame ds.
Proof. unfold relax_dijkstra. intros H. inv_ok; frame_step; congruence. Qed.

Lemma scan_astar_frame place edges : ∀ ds u g Q ds' Q',
  scan_astar place ds u g edges Q = Ok (ds', Q') -> frame ds' = frame ds.
Proof.
  induction edges as [|[dep [arr v]] rest IH]; intros ds u g Q ds' Q' H; simpl in H.
  - by simplify_eq.
  - inv_ok; frame_step;
      repeat match goal with
      | H : relax_astar _ _ _ _ = Ok _ |- _ => apply relax_astar_frame in H
      | H : scan_astar _ _ _ _ _ _ = Ok _ |- _ => apply IH in H
      end; congruence.
Qed.

Lemma astar_loop_frame place fuel : ∀ ds g Q ds',
  astar_loop place fuel ds g Q = Ok ds' -> frame ds' = frame ds.
Proof.
  induction fuel as [|fuel IH]; intros ds g Q ds' H; simpl in H; [done|].
  inv_ok; try done;
    repeat match goal with
    | H : scan_astar _ _ _ _ _ _ = Ok _ |- _ => apply scan_astar_frame in H
    | H : astar_loop _ _ _ _ _ = Ok _ |- _ => apply IH in H
    end; congruence.
Qed.

Lemma scan_dijkstra_frame place edges : ∀ ds u Q ds' Q',
  scan_dijkstra place ds u edges Q = Ok (ds', Q') -> frame ds' = frame ds.
Proof.
  induction edges as [|[dep [arr v]] rest IH]; intros ds u Q ds' Q' H; simpl in H.
  - by simplify_eq.
  - inv_ok; frame_step;
      repeat match goal with
      | H : relax_dijkstra _ _ _ _ _ = Ok _ |- _ => apply relax_dijkstra_frame in H
      | H : scan_dijkstra _ _ _ _ _ = Ok _ |- _ => apply IH in H
      end; congruence.
Qed.

Lemma dijkstra_loop_frame place fuel : ∀ ds g Q ds',
  dijkstra_loop place fuel ds g Q = Ok ds' -> frame ds' = frame ds.
Proof.
  induction fuel as [|fuel IH]; intros ds g Q ds' H; simpl in H; [done|].
  inv_ok; try done;
    repeat match goal with
    | H : scan_dijkstra _ _ _ _ _ = Ok _ |- _ => apply scan_dijkstra_frame in H
    | H : dijkstra_loop _ _ _ _ _ = Ok _ |- _ => apply IH in H
    end; congruence.
Qed.

Lemma scan_hop_frame edges : ∀ ds cur nxt prev_arrival tracker ds' tracker',
  scan_hop ds cur nxt edges prev_arrival tracker = Ok (ds', tracker') ->
  frame ds' = frame ds.
Proof.
  induction edges as [|[dep [arr v]] rest IH];
    intros ds cur nxt prev_arrival tracker ds' tracker' H; simpl in H.
  - by simplify_eq.
  - inv_ok; frame_step;
      repeat match goal with
      | H : scan_hop _ _ _ _ _ _ = Ok _ |- _ => apply IH in H
      end; congruence.
Qed.

Lemma fix_departures_cons ds cur nxt rest prev_arrival tracker :
  fix_departures ds (cur :: nxt :: rest) prev_arrival tracker =
  scur ← deref ds cur;
  '(ds1, tracker1) ← scan_hop ds cur nxt (s_stations_to scur) prev_arrival tracker;
  fix_departures ds1 (nxt :: rest) tracker1 tracker1.
Proof. reflexivity. Qed.

Lemma fix_departures_frame path : ∀ ds prev_arrival tracker ds',
  fix_departures ds path prev_arrival tracker = Ok ds' -> frame ds' = frame ds.
Proof.
  induction path as [|cur rest IH]; intros ds prev_arrival tracker ds' H.
  - simpl in H. by simplify_eq.
  - destruct rest as [|nxt rest]; [simpl in H; by simplify_eq|].
    rewrite fix_departures_cons in H. inv_ok.
    apply IH in H.
    match goal with
    | H : scan_hop _ _ _ _ _ _ = Ok _ |- _ => apply scan_hop_frame in H
    end. congruence.
Qed.

(** Closes [frame ds' = frame ds] for a query from the inversion of its run. *)
Ltac query_frame place :=
  repeat match goal with
  | H : modify _ _ _ = Ok _ |- _ => apply modify_frame in H; [|reflexivity]
  | H : bfs_any _ _ _ _ _ = Ok _ |- _ => apply bfs_any_frame in H
  | H : bfs_least_stations _ _ _ _ _ = Ok _ |- _ => apply bfs_least_stations_frame in H
  | H : dfs_cycle _ _ _ = Ok _ |- _ => apply dfs_cycle_frame in H
  | H : astar_loop _ _ _ _ _ = Ok _ |- _ => apply astar_loop_frame in H
  | H : dijkstra_loop _ _ _ _ _ = Ok _ |- _ => apply dijkstra_loop_frame in H
  | H : fix_departures _ _ _ _ = Ok _ |- _ => apply fix_departures_frame in H
  end;
  pose proof reset_frame as Hreset;
  first [ done
        | match goal with
          | |- frame _ = frame ?ds =>
              destruct (Hreset ds) as (? & ? & ? & ? & ?); congruence
          end ].

(** Every route query leaves the frame of the state as it was. *)
Lemma query_frame_preserved place o ds a ds' :
  is_query o = true -> call place o ds = Ok (a, ds') -> frame ds' = frame ds.
Proof.
  destruct o; try discriminate; intros _ H; simpl in H; unfold lift_route in H.
  - unfold route_any in H. inv_ok; query_frame place.
  - unfold route_least_stations in H. inv_ok; query_frame place.
  - unfold route_with_cycle in H. inv_ok; query_frame place.
  - unfold route_shortest_distance in H. inv_ok; query_frame place.
  - unfold route_earliest_arrival in H. inv_ok; query_frame place.
Qed.

(** ** What the operations keep of every node *)

Section Projection.

Context {A : Type} (π : Station -> A).

Lemma same_on_refl ds : same_on π ds ds.
Proof. by split. Qed.

Lemma same_on_trans ds1 ds2 ds3 :
  same_on π ds1 ds2 -> same_on π ds2 ds3 -> same_on π ds1 ds3.
Proof. intros [Hn1 H1] [Hn2 H2]. split; [congruence|]. intros p. by rewrite H2, H1. Qed.

Lemma modify_same_on ds p f ds' :
  (∀ s, π (f s) = π s) -> modify ds p f = Ok ds' -> same_on π ds ds'.
Proof.
  intros Hf H. apply modify_Ok in H as (s & Hs & ->). split; [done|].
  intros q. simpl. destruct (decide (p = q)) as [<-|Hne].
  - by rewrite lookup_insert_eq, Hs; simpl; rewrite Hf.
  - by rewrite lookup_insert_ne.
Qed.

Lemma frame_same_on ds ds' :
  (∀ s, π (blank s) = π s) -> frame ds' = frame ds -> same_on π ds ds'.
Proof.
  intros Hb H. split; [exact (f_equal next_node H)|].
  intros p. apply (f_equal (fun d => nodes d !! p)) in H.
  unfold frame, wipe in H. simpl in H. rewrite !lookup_fmap in H.
  destruct (nodes ds' !! p) as [s'|], (nodes ds !! p) as [s|]; try done.
  apply (inj Some) in H. change (Some (π s') = Some (π s)). f_equal.
  transitivity (π (blank s')); [symmetry; apply Hb|].
  rewrite H. apply Hb.
Qed.

Hypothesis π_location : ∀ v s, π (set_location v s) = π s.
Hypothesis π_departures : ∀ v s, π (set_departures v s) = π s.
Hypothesis π_blank : ∀ s, π (blank s) = π s.

Lemma change_station_coord_same_on ds id c b ds' :
  change_station_coord ds id c = Ok (b, ds') -> same_on π ds ds'.
Proof.
  unfold change_station_coord. intros H.
  inv_ok; first [apply same_on_refl
                | eapply modify_same_on; [|eassumption]; intros; cbv beta; auto].
Qed.

Lemma add_departure_same_on ds sid tid t b ds' :
  add_departure ds sid tid t = Ok (b, ds') -> same_on π ds ds'.
Proof.
  unfold add_departure. intros H.
  inv_ok; first [apply same_on_refl
                | eapply modify_same_on; [|eassumption]; intros; cbv beta; auto].
Qed.

Lemma remove_departure_same_on ds sid tid t b ds' :
  remove_departure ds sid tid t = Ok (b, ds') -> same_on π ds ds'.
Proof.
  unfold remove_departure. intros H.
  inv_ok; first [apply same_on_refl
                | eapply modify_same_on; [|eassumption]; intros; cbv beta; auto].
Qed.

Lemma query_same_on place o ds a ds' :
  is_query o = true -> call place o ds = Ok (a, ds') -> same_on π ds ds'.
Proof. intros Hq H. eapply frame_same_on, query_frame_preserved; eauto. Qed.

Lemma add_station_to_region_same_on ds id r b ds' :
  (∀ v s, π (set_region v s) = π s) ->
  add_station_to_region ds id r = Ok (b, ds') -> same_on π ds ds'.
Proof.
  unfold add_station_to_region. intros Hr H.
  inv_ok; first [apply same_on_refl
                | eapply modify_same_on; [|eassumption]; intros; cbv beta; auto].
Qed.

Lemma add_train_edges_same_on trainid (stationtimes : list (string * Z)) :
  (∀ v s, π (set_stations_to v s) = π s) ->
  ∀ ds ds', add_train_edges ds trainid stationtimes = Ok ds' -> same_on π ds ds'.
Proof.
  intros He. induction stationtimes as [|[sid t] rest IH]; intros ds ds' H.
  - simpl in H. simplify_eq. apply same_on_refl.
  - destruct rest as [|[sid' t'] rest]; [simpl in H; simplify_eq; apply same_on_refl|].
    rewrite add_train_edges_cons in H. inv_ok.
    eapply same_on_trans; [eapply add_departure_same_on; eassumption|].
    eapply same_on_trans; [|eapply IH; eassumption].
    eapply modify_same_on; [|eassumption]. intros s; apply He.
Qed.

Lemma add_train_same_on ds trainid stationtimes b ds' :
  (∀ v s, π (set_stations_to v s) = π s) ->
  add_train ds trainid stationtimes = Ok (b, ds') -> same_on π ds ds'.
Proof.
  unfold add_train. intros He H. inv_ok; try apply same_on_refl.
  match goal with
  | H : add_train_edges _ _ _ = Ok _ |- _ =>
      apply (add_train_edges_same_on _ _ He) in H; destruct H as [Hn Hp]
  end.
  split; [done|]. intros p. by rewrite Hp.
Qed.

End Projection.

Arguments pure_bool : simpl never.
Arguments lift_bool : simpl never.
Arguments lift_route : simpl never.

Lemma pure_bool_Ok r a ds' : pure_bool r = Ok (a, ds') -> ∃ b, r = (b, ds').
Proof. destruct r as [b ds]. unfold pure_bool. simpl. intros [= <- <-]. eauto. Qed.

Lemma lift_bool_Ok r a ds' : lift_bool r = Ok (a, ds') -> ∃ b, r = Ok (b, ds').
Proof.
  destruct r as [[b ds]|f]; unfold lift_bool; simpl; [|done].
  intros [= <- <-]. eauto.
Qed.

(** Unfolds one call in a hypothesis [exec place o ds = Ok ds']. *)
Ltac exec_inv H :=
  unfold exec in H; apply fmap_Ok in H as ([? ?] & H & ->);
  simpl in H; cbn [snd] in *;
  first [ apply pure_bool_Ok in H as [? H]
        | apply lift_bool_Ok in H as [? H]
        | idtac ].

Lemma same_on_live {A} (π : Station -> A) ds ds' p :
  same_on π ds ds' -> is_Some (nodes ds' !! p) <-> is_Some (nodes ds !! p).
Proof.
  intros [_ H]. specialize (H p). rewrite <- !(fmap_is_Some π). by rewrite H.
Qed.

Lemma same_on_bounded {A} (π : Station -> A) ds ds' :
  same_on π ds ds' -> nodes_bounded ds -> nodes_bounded ds'.
Proof.
  intros Hs Hb p Hp. rewrite (proj1 Hs). apply Hb.
  by apply (same_on_live π ds ds' p Hs).
Qed.

(** Every operation keeps the nodes below [next_node], which never decreases. *)
Lemma exec_nodes_bounded place o ds ds' :
  exec place o ds = Ok ds' -> nodes_bounded ds ->
  nodes_bounded ds' ∧ (next_node ds <= next_node ds')%nat.
Proof.
  intros H Hb.
  assert (Hsame : same_on (fun _ => ()) ds ds' ->
                  nodes_bounded ds' ∧ (next_node ds <= next_node ds')%nat).
  { intros Hs. split; [by eapply same_on_bounded|]. rewrite (proj1 Hs). lia. }
  destruct (is_query o) eqn:Hq.
  { unfold exec in H. apply fmap_Ok in H as ([a ds1] & H & ->).
    apply Hsame. eapply query_same_on; eauto. }
  destruct o; try discriminate Hq; exec_inv H.
  - (* add_station *)
    unfold add_station in H. inv_ok; try (split; [done|lia]).
    unfold nodes_bounded. simpl. split; [|lia]. intros p Hp.
    destruct (decide (next_node ds = p)) as [<-|Hne]; [lia|].
    rewrite lookup_insert_ne in Hp by done. apply Hb in Hp. lia.
  - inv_ok. apply Hsame. eapply change_station_coord_same_on; eauto.
  - inv_ok. apply Hsame. eapply add_departure_same_on; eauto.
  - inv_ok. apply Hsame. eapply remove_departure_same_on; eauto.
  - unfold add_region in H. inv_ok; apply Hsame; by split.
  - unfold add_subregion_to_region in H. inv_ok; apply Hsame; by split.
  - inv_ok. apply Hsame. eapply add_station_to_region_same_on; eauto.
  - (* remove_station *)
    unfold remove_station in H. inv_ok; try (split; [done|lia]).
    unfold nodes_bounded. simpl. split; [|lia]. intros p Hp.
    apply Hb. apply lookup_delete_is_Some in Hp. tauto.
  - inv_ok. apply Hsame. eapply add_train_same_on; eauto.
  - inv_ok. apply Hsame; by split.
  - inv_ok. unfold nodes_bounded. simpl. split; [|lia]. intros p Hp.
    rewrite lookup_empty in Hp. by destruct Hp.
Qed.

(** ** Edge times *)

Lemma same_on_edges_timed ds ds' :
  same_on s_stations_to ds ds' -> edges_timed ds -> edges_timed ds'.
Proof.
  intros [_ Hs] Ht p s' Hp. specialize (Hs p). rewrite Hp in Hs.
  destruct (nodes ds !! p) as [s|] eqn:E; [|done].
  simpl in Hs. injection Hs as ->. exact (Ht p s E).
Qed.

Lemma add_train_edges_timed trainid (stationtimes : list (string * Z)) :
  nondecreasing stationtimes ->
  ∀ ds ds', add_train_edges ds trainid stationtimes = Ok ds' ->
            edges_timed ds -> edges_timed ds'.
Proof.
  induction stationtimes as [|[sid t] rest IH]; intros Hnd ds ds' H Ht.
  - simpl in H. by simplify_eq.
  - destruct rest as [|[sid' t'] rest]; [simpl in H; by simplify_eq|].
    destruct Hnd as [Hle Hnd]. rewrite add_train_edges_cons in H. inv_ok.
    eapply (IH Hnd); [eassumption|].
    match goal with
    | H : add_departure _ _ _ _ = Ok _ |- _ =>
        apply (add_departure_same_on s_stations_to) in H; [|done]
    end.
    match goal with
    | H : modify _ _ _ = Ok _ |- _ => apply modify_Ok in H as (s & Hs & ->)
    end.
    simpl. apply map_Forall_insert_2.
    + simpl. apply Forall_app. split; [|by repeat constructor].
      eapply (same_on_edges_timed ds); eauto.
    + eapply same_on_edges_timed; eauto.
Qed.

(** An operation whose train, if it adds one, is timed in order keeps every
    edge timed in order. *)
Lemma exec_edges_timed place o ds ds' :
  op_timed o -> exec place o ds = Ok ds' -> edges_timed ds -> edges_timed ds'.
Proof.
  intros Ho H Ht.
  destruct (is_query o) eqn:Hq.
  { unfold exec in H. apply fmap_Ok in H as ([a ds1] & H & ->).
    eapply same_on_edges_timed; [|done]. eapply query_same_on; eauto. }
  destruct o; try discriminate Hq; exec_inv H.
  - unfold add_station in H. inv_ok; try done.
    simpl. apply map_Forall_insert_2; [constructor | done].
  - inv_ok. eapply same_on_edges_timed; [|done].
    eapply change_station_coord_same_on; eauto.
  - inv_ok. eapply same_on_edges_timed; [|done].
    eapply add_departure_same_on; eauto.
  - inv_ok. eapply same_on_edges_timed; [|done].
    eapply remove_departure_same_on; eauto.
  - unfold add_region in H. by inv_ok.
  - unfold add_subregion_to_region in H. by inv_ok.
  - inv_ok. eapply same_on_edges_timed; [|done].
    eapply add_station_to_region_same_on; eauto.
  - unfold remove_station in H. inv_ok; try done.
    simpl. by apply map_Forall_delete.
  - unfold add_train in H. inv_ok; try done.
    eapply add_train_edges_timed; eauto.
  - by inv_ok.
  - inv_ok. simpl. apply map_Forall_empty.
Qed.

Lemma run_edges_timed place ops : ∀ ds ds',
  Forall op_timed ops -> run place ops ds = Ok ds' -> edges_timed ds -> edges_timed ds'.
Proof.
  induction ops as [|o ops IH]; intros ds ds' Hops H Ht; simpl in H.
  - by simplify_eq.
  - apply Forall_cons in Hops as [Ho Hops].
    apply bind_Ok in H as (ds1 & H1 & H).
    eapply IH; eauto using exec_edges_timed.
Qed.

(** C4 (amended). In every state reached by operations whose [add_train]
    calls list their stops with times that never decrease, every outgoing
    edge stored at a station departs no later than it arrives.  ([add_train]
    itself does not compare the times of a stop list: an edge carries the
    times of its two stops as they were given.) *)
Theorem edges_timed_invariant place ops ds :
  Forall op_timed ops -> run place ops Datastructures_init = Ok ds -> edges_timed ds.
Proof.
  intros Hops H. eapply run_edges_timed; eauto. apply map_Forall_empty.
Qed.

Lemma edges_timed_invariant_witness : edges_timed line_network.
Proof.
  apply (edges_timed_invariant default_place line_ops).
  - unfold line_ops. repeat constructor; simpl; lia.
  - vm_compute. reflexivity.
Defined.

(** C4 as stated fails: after add_train(T, [(A,200),(B,100)]) station A holds
    an edge that departs at 200 and arrives at 100. *)
Lemma edges_timed_not_invariant :
  run default_place backwards_ops Datastructures_init = Ok backwards_network ∧
  ¬ edges_timed backwards_network.
Proof.
  split; [vm_compute; reflexivity|].
  intros H. specialize (H 0%nat). vm_compute in H.
  specialize (H _ eq_refl). inversion H as [|e l Hle _]; subst. by apply Hle.
Qed.

(** ** The region of a station *)

Lemma same_on_region_kept ds ds' p s s' :
  same_on s_region ds ds' -> nodes ds !! p = Some s -> nodes ds' !! p = Some s' ->
  s_region s' = s_region s.
Proof.
  intros [_ H] Hs Hs'. specialize (H p). rewrite Hs, Hs' in H. simpl in H. congruence.
Qed.

(** No operation changes the region of a node that has one. *)
Lemma exec_region_kept place o ds ds' p s s' :
  nodes_bounded ds -> exec place o ds = Ok ds' ->
  nodes ds !! p = Some s -> s_region s ≠ NO_REGION ->
  nodes ds' !! p = Some s' -> s_region s' = s_region s.
Proof.
  intros Hb H Hs Hr Hs'.
  destruct (is_query o) eqn:Hq.
  { unfold exec in H. apply fmap_Ok in H as ([a ds1] & H & ->).
    eapply same_on_region_kept; [|done..]. eapply query_same_on; eauto. }
  destruct o; try discriminate Hq; exec_inv H.
  - unfold add_station in H. inv_ok; try congruence.
    simpl in Hs'. rewrite lookup_insert_ne in Hs'; [congruence|].
    intros <-. assert (next_node ds < next_node ds)%nat; [|lia]. apply Hb. eauto.
  - eapply same_on_region_kept; [|done..]. eapply change_station_coord_same_on; eauto.
  - eapply same_on_region_kept; [|done..]. eapply add_departure_same_on; eauto.
  - eapply same_on_region_kept; [|done..]. eapply remove_departure_same_on; eauto.
  - unfold add_region in H. inv_ok; simpl in *; congruence.
  - unfold add_subregion_to_region in H. inv_ok; simpl in *; congruence.
  - (* add_station_to_region: the guard admits only a node without region *)
    unfold add_station_to_region in H. inv_ok; try congruence.
    match goal with
    | H : modify _ _ _ = Ok _ |- _ => apply modify_Ok in H as (s0 & Hs0 & ->)
    end.
    simpl in Hs'.
    match goal with
    | H : deref _ _ = Ok _ |- _ => apply deref_Some in H
    end.
    match goal with
    | H : bool_decide _ = false |- _ => apply bool_decide_eq_false_1 in H
    end.
    match type of Hs0 with nodes ds !! ?q = _ =>
      destruct (decide (q = p)) as [->|Hne] end.
    + exfalso. simplify_eq. apply Hr. by apply dec_stable.
    + rewrite lookup_insert_ne in Hs' by done. congruence.
  - unfold remove_station in H. inv_ok; try congruence.
    simpl in Hs'. apply lookup_delete_Some in Hs' as [_ Hs']. congruence.
  - eapply same_on_region_kept; [|done..]. eapply add_train_same_on; eauto.
  - simplify_eq; simpl in *; congruence.
  - simplify_eq; simpl in *; try rewrite lookup_empty in *; congruence.
Qed.

(** An address that was handed out and is free stays free. *)
Lemma exec_dead place o ds ds' p :
  nodes_bounded ds -> (p < next_node ds)%nat -> nodes ds !! p = None ->
  exec place o ds = Ok ds' -> nodes ds' !! p = None.
Proof.
  intros Hb Hp Hnone H.
  assert (Hsame : same_on (fun _ => ()) ds ds' -> nodes ds' !! p = None).
  { intros Hs. apply eq_None_not_Some. rewrite (same_on_live _ _ _ p Hs).
    by rewrite Hnone; intros []. }
  destruct (is_query o) eqn:Hq.
  { unfold exec in H. apply fmap_Ok in H as ([a ds1] & H & ->).
    apply Hsame. eapply query_same_on; eauto. }
  destruct o; try discriminate Hq; exec_inv H.
  - unfold add_station in H. inv_ok; try done.
    simpl. rewrite lookup_insert_ne; [done|lia].
  - apply Hsame. eapply change_station_coord_same_on; eauto.
  - apply Hsame. eapply add_departure_same_on; eauto.
  - apply Hsame. eapply remove_departure_same_on; eauto.
  - unfold add_region in H. by inv_ok.
  - unfold add_subregion_to_region in H. by inv_ok.
  - apply Hsame. eapply add_station_to_region_same_on; eauto.
  - unfold remove_station in H. inv_ok; try done.
    simpl. apply lookup_delete_None. by right.
  - apply Hsame. eapply add_train_same_on; eauto.
  - by simplify_eq.
  - by simplify_eq.
Qed.

Lemma run_dead place ops : ∀ ds ds' p,
  nodes_bounded ds -> (p < next_node ds)%nat -> nodes ds !! p = None ->
  run place ops ds = Ok ds' -> nodes ds' !! p = None.
Proof.
  induction ops as [|o ops IH]; intros ds ds' p Hb Hp Hnone H; simpl in H.
  - by simplify_eq.
  - apply bind_Ok in H as (ds1 & H1 & H).
    destruct (exec_nodes_bounded place o ds ds1 H1 Hb) as [Hb1 Hle].
    eapply (IH ds1); eauto using exec_dead. lia.
Qed.

Lemma run_region_kept place ops : ∀ ds ds' p s s',
  nodes_bounded ds -> run place ops ds = Ok ds' ->
  nodes ds !! p = Some s -> s_region s ≠ NO_REGION ->
  nodes ds' !! p = Some s' -> s_region s' = s_region s.
Proof.
  induction ops as [|o ops IH]; intros ds ds' p s s' Hb H Hs Hr Hs'; simpl in H.
  - simplify_eq. congruence.
  - apply bind_Ok in H as (ds1 & H1 & H).
    destruct (exec_nodes_bounded place o ds ds1 H1 Hb) as [Hb1 Hle].
    destruct (nodes ds1 !! p) as [s1|] eqn:E1.
    + pose proof (exec_region_kept place o ds ds1 p s s1 Hb H1 Hs Hr E1) as Hreg.
      rewrite <- Hreg. eapply (IH ds1); eauto. congruence.
    + assert (Hp : (p < next_node ds1)%nat).
      { assert (p < next_node ds)%nat by (apply Hb; eauto). lia. }
      rewrite (run_dead place ops ds1 ds' p Hb1 Hp E1 H) in Hs'. discriminate.
Qed.

Lemma run_nodes_bounded place ops : ∀ ds ds',
  nodes_bounded ds -> run place ops ds = Ok ds' -> nodes_bounded ds'.
Proof.
  induction ops as [|o ops IH]; intros ds ds' Hb H; simpl in H.
  - by simplify_eq.
  - apply bind_Ok in H as (ds1 & H1 & H).
    eapply IH; [|eassumption]. by eapply exec_nodes_bounded.
Qed.

Lemma reachable_nodes_bounded place ds : reachable place ds -> nodes_bounded ds.
Proof.
  intros [ops H]. eapply run_nodes_bounded; [|eassumption].
  intros p Hp. simpl in Hp. rewrite lookup_empty in Hp. by destruct Hp.
Qed.

(** C10. A station's region, once set, is not overwritten.  In a reachable
    state in which station [id] has a region, [add_station_to_region] returns
    false for every region and leaves the state as it was; and whatever
    operations follow, the station has that same region for as long as it
    exists. *)
Theorem region_assigned_once place ds id p s :
  reachable place ds ->
  stations_find ds id = Some p -> nodes ds !! p = Some s -> s_region s ≠ NO_REGION ->
  (∀ parentid, add_station_to_region ds id parentid = Ok (false, ds)) ∧
  (∀ ops ds' s', run place ops ds = Ok ds' -> nodes ds' !! p = Some s' ->
                 s_region s' = s_region s).
Proof.
  intros Hreach Hid Hs Hr. split.
  - eauto using add_station_to_region_once.
  - intros ops ds' s' H Hs'.
    eapply run_region_kept; eauto using reachable_nodes_bounded.
Qed.

Lemma region_assigned_once_witness :
  add_station_to_region regional_network "S1" 2 = Ok (false, regional_network).
Proof.
  refine (proj1 (region_assigned_once default_place regional_network "S1" 0%nat _ _ _ _ _)
                2%N).
  - exists regional_ops. vm_compute. reflexivity.
  - vm_compute. reflexivity.
  - vm_compute. reflexivity.
  - vm_compute. discriminate.
Defined.

(** ** Queries do not read what they do not reset *)

(** Rewrites reads and writes on a wiped state into reads and writes on the
    state itself. *)
Ltac wipe_step :=
  repeat first
    [ rewrite deref_wipe
    | rewrite modify_wipe by reflexivity ].

Lemma scan_any_wipe toid edges : ∀ ds u Q,
  scan_any (wipe ignore_color_de ds) u toid edges Q =
  (fun '(ds', Q', b) => (wipe ignore_color_de ds', Q', b)) <$> scan_any ds u toid edges Q.
Proof.
  induction edges as [|[dep [arr v]] rest IH]; intros ds u Q; simpl; [done|].
  wipe_step. destruct (deref ds v) as [sv|] eqn:Ev; simpl; [|done].
  destruct (s_pi sv) as [pv|] eqn:Epi; simpl.
  - wipe_step. rewrite Ev. simpl.
    destruct (bool_decide (s_id sv = toid)); [done|]. apply IH.
  - wipe_step. destruct (deref ds u) as [su|] eqn:Eu; simpl; [|done].
    wipe_step.
    destruct (modify ds v _) as [ds1|] eqn:Em; simpl; [|done].
    wipe_step. destruct (deref ds1 v) as [sv1|]; simpl; [|done].
    destruct (bool_decide (s_id sv1 = toid)); [done|]. apply IH.
Qed.

(** Follows the program text on both sides of a commutation goal: rewrites
    with [rw], splits on the next scrutinee, and closes with [IH]. *)
Ltac head_of t :=
  lazymatch t with
  | ?f _ => head_of f
  | _ => t
  end.

(** [m] is a call of one of the program's functions. *)
Ltac stuck_call m :=
  lazymatch m with
  | mbind _ _ => fail
  | fmap _ _ => fail
  | context [wipe _ _] => fail
  | _ => let h := head_of m in is_const h
  end.

Ltac wipe_solve rw IH :=
  repeat (simpl; simplify_eq; first
    [ done
    | apply IH
    | progress wipe_step
    | progress rw
    | match goal with
      | |- context [_ <$> ?m] => stuck_call m; destruct m as [?|?] eqn:?
      | |- context [?m ≫= _] => stuck_call m; destruct m as [?|?] eqn:?
      | |- context [match ?x with _ => _ end] =>
          lazymatch x with
          | context [wipe _ _] => fail
          | _ => destruct x eqn:?
          end
      end ]).

Lemma stations_find_wipe W ds id : stations_find (wipe W ds) id = stations_find ds id.
Proof. reflexivity. Qed.

Lemma stations_at_wipe W ds id : stations_at (wipe W ds) id = stations_at ds id.
Proof. reflexivity. Qed.

Lemma wipe_comm W R ds : (∀ s, W (R s) = R (W s)) -> wipe R (wipe W ds) = wipe W (wipe R ds).
Proof. intros H. rewrite !wipe_wipe. apply wipe_ext. intros s; symmetry; apply H. Qed.

Lemma bfs_any_wipe toid fuel : ∀ ds Q found,
  bfs_any fuel (wipe ignore_color_de ds) toid Q found =
  wipe ignore_color_de <$> bfs_any fuel ds toid Q found.
Proof.
  induction fuel as [|fuel IH]; intros ds Q found; [done|].
  wipe_solve ltac:(rewrite scan_any_wipe) IH.
Qed.

Lemma walk_back_wipe fromid fuel : ∀ ds i result,
  walk_back fuel (wipe ignore_color_de ds) fromid i result = walk_back fuel ds fromid i result.
Proof.
  induction fuel as [|fuel IH]; intros ds i result; [done|].
  wipe_solve idtac IH.
Qed.

Lemma route_any_wipe fuel ds fromid toid :
  fst <$> route_any fuel (wipe ignore_color_de ds) fromid toid =
  fst <$> route_any fuel ds fromid toid.
Proof.
  unfold route_any. rewrite !stations_find_wipe.
  destruct (stations_find ds fromid); [|done].
  destruct (stations_find ds toid); [|done].
  destruct (bool_decide (fromid = toid)); [done|].
  cbv zeta. unfold reset_any.
  change (with_nodes (?R <$> nodes ?d) ?d) with (wipe R d).
  rewrite (wipe_comm ignore_color_de) by reflexivity.
  rewrite !stations_at_wipe.
  match goal with
  | |- context [wipe ignore_color_de (wipe ?R ds)] => generalize (wipe R ds); intros ds0
  end.
  wipe_solve ltac:(first [rewrite bfs_any_wipe | rewrite walk_back_wipe]) I.
Qed.

Lemma scan_least_stations_wipe toid edges : ∀ ds u Q,
  scan_least_stations (wipe ignore_color ds) u toid edges Q =
  (fun '(ds', Q', b) => (wipe ignore_color ds', Q', b))
    <$> scan_least_stations ds u toid edges Q.
Proof.
  induction edges as [|[dep [arr v]] rest IH]; intros ds u Q; [done|].
  wipe_solve idtac IH.
Qed.

Lemma bfs_least_stations_wipe toid fuel : ∀ ds Q found,
  bfs_least_stations fuel (wipe ignore_color ds) toid Q found =
  wipe ignore_color <$> bfs_least_stations fuel ds toid Q found.
Proof.
  induction fuel as [|fuel IH]; intros ds Q found; [done|].
  wipe_solve ltac:(rewrite scan_least_stations_wipe) IH.
Qed.

Lemma walk_back_least_stations_wipe fromid fuel : ∀ ds i result,
  walk_back_least_stations fuel (wipe ignore_color ds) fromid i result =
  walk_back_least_stations fuel ds fromid i result.
Proof.
  induction fuel as [|fuel IH]; intros ds i result; [done|].
  wipe_solve idtac IH.
Qed.

Lemma route_least_stations_wipe fuel ds fromid toid :
  fst <$> route_least_stations fuel (wipe ignore_color ds) fromid toid =
  fst <$> route_least_stations fuel ds fromid toid.
Proof.
  unfold route_least_stations. rewrite !stations_find_wipe.
  destruct (stations_find ds fromid); [|done].
  destruct (stations_find ds toid); [|done].
  destruct (bool_decide (fromid = toid)); [done|].
  cbv zeta. unfold reset_least_stations.
  change (with_nodes (?R <$> nodes ?d) ?d) with (wipe R d).
  rewrite (wipe_comm ignore_color) by reflexivity.
  rewrite !stations_at_wipe.
  match goal with
  | |- context [wipe ignore_color (wipe ?R ds)] => generalize (wipe R ds); intros ds0
  end.
  wipe_solve ltac:(first [rewrite bfs_least_stations_wipe
                         | rewrite walk_back_least_stations_wipe]) I.
Qed.

Lemma scan_cycle_wipe edges : ∀ ds u S,
  scan_cycle (wipe ignore_d_de ds) u edges S =
  (fun '(ds', S', found) => (wipe ignore_d_de ds', S', found)) <$> scan_cycle ds u edges S.
Proof.
  induction edges as [|[dep [arr v]] rest IH]; intros ds u S; [done|].
  wipe_solve idtac IH.
Qed.

Lemma dfs_cycle_wipe fuel : ∀ ds S,
  dfs_cycle fuel (wipe ignore_d_de ds) S =
  (fun '(ds', found) => (wipe ignore_d_de ds', found)) <$> dfs_cycle fuel ds S.
Proof.
  induction fuel as [|fuel IH]; intros ds S; [done|].
  wipe_solve ltac:(rewrite scan_cycle_wipe) IH.
Qed.

Lemma walk_back_cycle_wipe sid fuel : ∀ ds i result,
  walk_back_cycle fuel (wipe ignore_d_de ds) sid i result =
  walk_back_cycle fuel ds sid i result.
Proof.
  induction fuel as [|fuel IH]; intros ds i result; [done|].
  wipe_solve idtac IH.
Qed.

Lemma route_with_cycle_wipe fuel ds fromid :
  fst <$> route_with_cycle fuel (wipe ignore_d_de ds) fromid =
  fst <$> route_with_cycle fuel ds fromid.
Proof.
  unfold route_with_cycle. rewrite !stations_find_wipe.
  destruct (stations_find ds fromid); [|done].
  cbv zeta. unfold reset_cycle.
  change (with_nodes (?R <$> nodes ?d) ?d) with (wipe R d).
  rewrite (wipe_comm ignore_d_de) by reflexivity.
  rewrite !stations_at_wipe.
  match goal with
  | |- context [wipe ignore_d_de (wipe ?R ds)] => generalize (wipe R ds); intros ds0
  end.
  wipe_solve ltac:(first [rewrite dfs_cycle_wipe | rewrite walk_back_cycle_wipe]) I.
Qed.

Lemma relax_dijkstra_wipe ds u v u_depart at_v :
  relax_dijkstra (wipe ignore_de ds) u v u_depart at_v =
  wipe ignore_de <$> relax_dijkstra ds u v u_depart at_v.
Proof. unfold relax_dijkstra. wipe_solve idtac I. Qed.

Lemma scan_dijkstra_wipe place edges : ∀ ds u Q,
  scan_dijkstra place (wipe ignore_de ds) u edges Q =
  (fun '(ds', Q') => (wipe ignore_de ds', Q')) <$> scan_dijkstra place ds u edges Q.
Proof.
  induction edges as [|[dep [arr v]] rest IH]; intros ds u Q; [done|].
  wipe_solve ltac:(rewrite relax_dijkstra_wipe) IH.
Qed.

Lemma dijkstra_loop_wipe place fuel : ∀ ds g Q,
  dijkstra_loop place fuel (wipe ignore_de ds) g Q =
  wipe ignore_de <$> dijkstra_loop place fuel ds g Q.
Proof.
  induction fuel as [|fuel IH]; intros ds g Q; [done|].
  wipe_solve ltac:(rewrite scan_dijkstra_wipe) IH.
Qed.

Lemma walk_back_path_wipe fromid fuel : ∀ ds i path,
  walk_back_path fuel (wipe ignore_de ds) fromid i path =
  walk_back_path fuel ds fromid i path.
Proof.
  induction fuel as [|fuel IH]; intros ds i path; [done|].
  wipe_solve idtac IH.
Qed.

Lemma scan_hop_wipe edges : ∀ ds cur nxt prev_arrival tracker,
  scan_hop (wipe ignore_de ds) cur nxt edges prev_arrival tracker =
  (fun '(ds', t) => (wipe ignore_de ds', t))
    <$> scan_hop ds cur nxt edges prev_arrival tracker.
Proof.
  induction edges as [|[dep [arr v]] rest IH]; intros ds cur nxt prev_arrival tracker;
    [done|].
  wipe_solve idtac IH.
Qed.

Lemma fix_departures_wipe path : ∀ ds prev_arrival tracker,
  fix_departures (wipe ignore_de ds) path prev_arrival tracker =
  wipe ignore_de <$> fix_departures ds path prev_arrival tracker.
Proof.
  induction path as [|cur rest IH]; intros ds prev_arrival tracker; [done|].
  destruct rest as [|nxt rest]; [done|].
  rewrite !fix_departures_cons.
  wipe_solve ltac:(rewrite scan_hop_wipe) IH.
Qed.

Lemma path_times_wipe path : ∀ ds,
  path_times (wipe ignore_de ds) path = path_times ds path.
Proof.
  induction path as [|p rest IH]; intros ds; [done|].
  simpl. rewrite deref_wipe, IH. by destruct (deref ds p).
Qed.

Lemma route_earliest_arrival_wipe place fuel ds fromid toid starttime :
  fst <$> route_earliest_arrival place fuel (wipe ignore_de ds) fromid toid starttime =
  fst <$> route_earliest_arrival place fuel ds fromid toid starttime.
Proof.
  unfold route_earliest_arrival. rewrite !stations_find_wipe.
  destruct (stations_find ds fromid); [|done].
  destruct (stations_find ds toid); [|done].
  destruct (bool_decide (fromid = toid)); [done|].
  cbv zeta. unfold reset_earliest_arrival.
  change (with_nodes (?R <$> nodes ?d) ?d) with (wipe R d).
  rewrite (wipe_comm ignore_de) by reflexivity.
  rewrite !stations_at_wipe.
  match goal with
  | |- context [wipe ignore_de (wipe ?R ds)] => generalize (wipe R ds); intros ds0
  end.
  wipe_solve ltac:(first [rewrite dijkstra_loop_wipe | rewrite walk_back_path_wipe
                         | rewrite fix_departures_wipe | rewrite path_times_wipe]) I.
Qed.

(** ** Independence of route queries *)

Lemma reset_wipe_frame W R ds1 ds2 :
  (∀ s, R (W (blank s)) = R (W s)) -> frame ds1 = frame ds2 ->
  wipe R (wipe W ds1) = wipe R (wipe W ds2).
Proof. intros H Hfr. rewrite !wipe_wipe. by apply wipe_frame. Qed.

Lemma route_any_frame fuel ds1 ds2 fromid toid :
  frame ds1 = frame ds2 ->
  fst <$> route_any fuel ds1 fromid toid = fst <$> route_any fuel ds2 fromid toid.
Proof.
  intros Hfr.
  rewrite <- (route_any_wipe fuel ds1), <- (route_any_wipe fuel ds2).
  unfold route_any, reset_any. rewrite !stations_find_wipe.
  unfold stations_find. rewrite (frame_stations _ _ Hfr).
  try change (with_nodes (?R <$> nodes ?d) ?d) with (wipe R d).
  rewrite (reset_wipe_frame ignore_color_de _ ds1 ds2) by done.
  destruct (stations ds2 !! fromid); [|done].
  destruct (stations ds2 !! toid); [|done].
  by destruct (bool_decide (fromid = toid)).
Qed.

Lemma route_least_stations_frame fuel ds1 ds2 fromid toid :
  frame ds1 = frame ds2 ->
  fst <$> route_least_stations fuel ds1 fromid toid
  = fst <$> route_least_stations fuel ds2 fromid toid.
Proof.
  intros Hfr.
  rewrite <- (route_least_stations_wipe fuel ds1), <- (route_least_stations_wipe fuel ds2).
  unfold route_least_stations, reset_least_stations. rewrite !stations_find_wipe.
  unfold stations_find. rewrite (frame_stations _ _ Hfr).
  try change (with_nodes (?R <$> nodes ?d) ?d) with (wipe R d).
  rewrite (reset_wipe_frame ignore_color _ ds1 ds2) by done.
  destruct (stations ds2 !! fromid); [|done].
  destruct (stations ds2 !! toid); [|done].
  by destruct (bool_decide (fromid = toid)).
Qed.

Lemma route_with_cycle_frame fuel ds1 ds2 fromid :
  frame ds1 = frame ds2 ->
  fst <$> route_with_cycle fuel ds1 fromid = fst <$> route_with_cycle fuel ds2 fromid.
Proof.
  intros Hfr.
  rewrite <- (route_with_cycle_wipe fuel ds1), <- (route_with_cycle_wipe fuel ds2).
  unfold route_with_cycle, reset_cycle. rewrite !stations_find_wipe.
  unfold stations_find. rewrite (frame_stations _ _ Hfr).
  try change (with_nodes (?R <$> nodes ?d) ?d) with (wipe R d).
  rewrite (reset_wipe_frame ignore_d_de _ ds1 ds2) by done.
  by destruct (stations ds2 !! fromid).
Qed.

(** [route_shortest_distance] resets all four search fields. *)
Lemma route_shortest_distance_frame place fuel ds1 ds2 fromid toid :
  frame ds1 = frame ds2 ->
  fst <$> route_shortest_distance place fuel ds1 fromid toid
  = fst <$> route_shortest_distance place fuel ds2 fromid toid.
Proof.
  intros Hfr.
  unfold route_shortest_distance, reset_shortest_distance.
  unfold stations_find. rewrite (frame_stations _ _ Hfr).
  try change (with_nodes (?R <$> nodes ?d) ?d) with (wipe R d).
  rewrite (wipe_frame _ ds1 ds2) by done.
  destruct (stations ds2 !! fromid); [|done].
  destruct (stations ds2 !! toid); [|done].
  by destruct (bool_decide (fromid = toid)).
Qed.

Lemma route_earliest_arrival_frame place fuel ds1 ds2 fromid toid starttime :
  frame ds1 = frame ds2 ->
  fst <$> route_earliest_arrival place fuel ds1 fromid toid starttime
  = fst <$> route_earliest_arrival place fuel ds2 fromid toid starttime.
Proof.
  intros Hfr.
  rewrite <- (route_earliest_arrival_wipe place fuel ds1),
          <- (route_earliest_arrival_wipe place fuel ds2).
  unfold route_earliest_arrival, reset_earliest_arrival. rewrite !stations_find_wipe.
  unfold stations_find. rewrite (frame_stations _ _ Hfr).
  try change (with_nodes (?R <$> nodes ?d) ?d) with (wipe R d).
  rewrite (reset_wipe_frame ignore_de _ ds1 ds2) by done.
  destruct (stations ds2 !! fromid); [|done].
  destruct (stations ds2 !! toid); [|done].
  by destruct (bool_decide (fromid = toid)).
Qed.

Lemma fst_lift_route r : fst <$> lift_route r = ARoute <$> (fst <$> r).
Proof. by destruct r as [[l ds]|f]. Qed.

(** The answer of a query depends on the frame of the state only. *)
Lemma query_answer_frame place q ds1 ds2 :
  is_query q = true -> frame ds1 = frame ds2 ->
  fst <$> call place q ds1 = fst <$> call place q ds2.
Proof.
  intros Hq Hfr. destruct q; try discriminate Hq; simpl; rewrite ?fst_lift_route.
  - by rewrite (route_any_frame fuel ds1 ds2).
  - by rewrite (route_least_stations_frame fuel ds1 ds2).
  - pose proof (route_with_cycle_frame fuel ds1 ds2 fromid Hfr) as H.
    destruct (route_with_cycle fuel ds1 fromid) as [[l1 d1]|f1],
             (route_with_cycle fuel ds2 fromid) as [[l2 d2]|f2];
      simpl in *; congruence.
  - by rewrite (route_shortest_distance_frame place fuel ds1 ds2).
  - by rewrite (route_earliest_arrival_frame place fuel ds1 ds2).
Qed.

Lemma run_queries_frame place qs : ∀ ds ds',
  Forall (fun o => is_query o = true) qs -> run place qs ds = Ok ds' ->
  frame ds' = frame ds.
Proof.
  induction qs as [|o qs IH]; intros ds ds' Hqs H; simpl in H.
  - by simplify_eq.
  - apply Forall_cons in Hqs as [Hq Hqs].
    apply bind_Ok in H as (ds1 & H1 & H).
    unfold exec in H1. apply fmap_Ok in H1 as ([a ds2] & H1 & ->).
    rewrite (IH _ _ Hqs H). simpl. by eapply query_frame_preserved.
Qed.

(** C8. Route queries are independent of one another: a query asked after
    any finite sequence of other route queries, with no other operation in
    between, gives the answer it gives when asked first.  What earlier
    queries leave in the search fields does not reach the answer. *)
Theorem queries_independent place qs q ds ds' :
  Forall (fun o => is_query o = true) qs -> is_query q = true ->
  run place qs ds = Ok ds' ->
  fst <$> call place q ds' = fst <$> call place q ds.
Proof.
  intros Hqs Hq H. apply query_answer_frame; [done|].
  by eapply run_queries_frame.
Qed.

Lemma queries_independent_witness :
  fst <$> call default_place (RouteEarliestArrival 10 "S1" "S3" 90)
            (the_state (run default_place
               [RouteShortestDistance 10 "S1" "S3"; RouteWithCycle 10 "S1";
                RouteAny 10 "S2" "S3"] line_network))
  = fst <$> call default_place (RouteEarliestArrival 10 "S1" "S3" 90) line_network.
Proof.
  apply (queries_independent default_place
           [RouteShortestDistance 10 "S1" "S3"; RouteWithCycle 10 "S1";
            RouteAny 10 "S2" "S3"]%string).
  - repeat constructor.
  - reflexivity.
  - vm_compute. reflexivity.
Defined.

(** ** No route: the searches set predecessor links along edges only *)

Section Unreachable.

Variable ds0 : Datastructures.
Variable s : nat.

Let E := edge ds0.
Let reach (q : Z * nat) := rtc E s q.2.

Lemma same_on_edge ds u su e :
  same_on s_stations_to ds0 ds -> nodes ds !! u = Some su -> e ∈ s_stations_to su ->
  E u e.2.2.
Proof.
  intros [_ H] Hu He. specialize (H u). rewrite Hu in H.
  destruct (nodes ds0 !! u) as [su0|] eqn:E0; [|done].
  simpl in H. injection H as H. destruct e as [dep [arr v]].
  exists su0, dep, arr. by rewrite <- H.
Qed.

Lemma same_on_edges ds u su :
  same_on s_stations_to ds0 ds -> deref ds u = Ok su ->
  Forall (fun e : Edge => E u e.2.2) (s_stations_to su).
Proof.
  intros Hs Hu. apply deref_Some in Hu. apply Forall_forall.
  intros e He. eapply same_on_edge; eauto.
Qed.

Lemma modify_pi_kept ds p f ds' :
  (∀ x, s_pi (f x) = s_pi x) -> modify ds p f = Ok ds' ->
  pi_sound E s ds -> pi_sound E s ds'.
Proof.
  intros Hf H Hpi. apply modify_Ok in H as (x & Hx & ->).
  intros q sq Hq Hsome. simpl in Hq.
  destruct (decide (p = q)) as [<-|Hne].
  - rewrite lookup_insert_eq in Hq. simplify_eq. rewrite Hf in Hsome. eauto.
  - rewrite lookup_insert_ne in Hq by done. eauto.
Qed.

Lemma modify_pi_set ds u v f ds' :
  rtc E s u -> E u v -> modify ds v f = Ok ds' ->
  pi_sound E s ds -> pi_sound E s ds'.
Proof.
  intros Hu Huv H Hpi. apply modify_Ok in H as (x & Hx & ->).
  intros q sq Hq Hsome. simpl in Hq.
  destruct (decide (v = q)) as [<-|Hne].
  - eapply tc_rtc_l; [exact Hu | by apply tc_once].
  - rewrite lookup_insert_ne in Hq by done. eauto.
Qed.

Lemma reach_step u v : rtc E s u -> E u v -> rtc E s v.
Proof. intros Hu Huv. eapply rtc_r; eauto. Qed.

Lemma scan_any_sound toid u edges : ∀ ds Q ds' Q' b,
  scan_any ds u toid edges Q = Ok (ds', Q', b) ->
  rtc E s u -> Forall (fun e : Edge => E u e.2.2) edges ->
  pi_sound E s ds -> Forall reach Q ->
  pi_sound E s ds' ∧ Forall reach Q'.
Proof.
  induction edges as [|[dep [arr v]] rest IH]; intros ds Q ds' Q' b H Hu He Hpi HQ;
    simpl in H.
  - by simplify_eq.
  - apply Forall_cons in He as [Huv He]. simpl in Huv.
    inv_ok; try done;
      repeat match goal with
      | H : modify _ _ _ = Ok _ |- _ => apply (modify_pi_set _ u v _ _ Hu Huv) in H; [|done]
      end;
      try (eapply IH; [eassumption|done..]);
      try (split; [done|]);
      try (eapply IH; [eassumption|done|done|done|]);
      apply Forall_app; (split; [done|]); repeat constructor;
      unfold reach; simpl; eauto using reach_step.
Qed.

Lemma same_on_frame ds ds' :
  same_on s_stations_to ds0 ds -> frame ds' = frame ds -> same_on s_stations_to ds0 ds'.
Proof.
  intros Hs Hfr. eapply same_on_trans; [exact Hs|]. by apply frame_same_on.
Qed.

Lemma bfs_any_sound toid fuel : ∀ ds Q found ds',
  bfs_any fuel ds toid Q found = Ok ds' ->
  same_on s_stations_to ds0 ds -> pi_sound E s ds -> Forall reach Q ->
  pi_sound E s ds'.
Proof.
  induction fuel as [|fuel IH]; intros ds Q found ds' H Hs Hpi HQ; simpl in H; [done|].
  inv_ok; try done.
  apply Forall_cons in HQ as [Hu HQ].
  match goal with
  | Hsc : scan_any _ _ _ _ _ = Ok _, Hd : deref _ _ = Ok _ |- _ =>
      pose proof (scan_any_frame _ _ _ _ _ _ _ _ Hsc) as Hfr;
      apply (scan_any_sound _ _ _ _ _ _ _ _) in Hsc as [Hpi1 HQ1];
        [|done|by eapply same_on_edges|done|done]
  end.
  eapply IH; eauto using same_on_frame.
Qed.

Lemma scan_least_stations_sound toid u edges : ∀ ds Q ds' Q' b,
  scan_least_stations ds u toid edges Q = Ok (ds', Q', b) ->
  rtc E s u -> Forall (fun e : Edge => E u e.2.2) edges ->
  pi_sound E s ds -> Forall reach Q ->
  pi_sound E s ds' ∧ Forall reach Q'.
Proof.
  induction edges as [|[dep [arr v]] rest IH]; intros ds Q ds' Q' b H Hu He Hpi HQ;
    simpl in H.
  - by simplify_eq.
  - apply Forall_cons in He as [Huv He]. simpl in Huv.
    inv_ok; try done;
      repeat match goal with
      | H : modify _ _ _ = Ok _ |- _ => apply (modify_pi_set _ u v _ _ Hu Huv) in H; [|done]
      end;
      try (eapply IH; [eassumption|done..]);
      try (split; [done|]);
      try (eapply IH; [eassumption|done|done|done|]);
      apply Forall_app; (split; [done|]); repeat constructor;
      unfold reach; simpl; eauto using reach_step.
Qed.

Lemma bfs_least_stations_sound toid fuel : ∀ ds Q found ds',
  bfs_least_stations fuel ds toid Q found = Ok ds' ->
  same_on s_stations_to ds0 ds -> pi_sound E s ds -> Forall reach Q ->
  pi_sound E s ds'.
Proof.
  induction fuel as [|fuel IH]; intros ds Q found ds' H Hs Hpi HQ; simpl in H; [done|].
  inv_ok; try done.
  apply Forall_cons in HQ as [Hu HQ].
  match goal with
  | Hsc : scan_least_stations _ _ _ _ _ = Ok _, Hd : deref _ _ = Ok _ |- _ =>
      pose proof (scan_least_stations_frame _ _ _ _ _ _ _ _ Hsc) as Hfr;
      apply (scan_least_stations_sound _ _ _ _ _ _ _ _) in Hsc as [Hpi1 HQ1];
        [|done|by eapply same_on_edges|done|done]
  end.
  eapply IH; eauto using same_on_frame.
Qed.

(** The ordered frontier holds what was inserted. *)
Lemma set_insert_Forall place (P : Z * nat -> Prop) x Q :
  P x -> Forall P Q -> Forall P (set_insert place x Q).
Proof.
  intros Hx HQ. induction HQ as [|y Q Hy HQ IH]; simpl; [by repeat constructor|].
  repeat case_match; repeat constructor; done.
Qed.

Lemma set_requeue_Forall place (P : Z * nat -> Prop) x Q :
  P x -> Forall P Q -> Forall P (set_requeue place x Q).
Proof.
  intros Hx HQ. unfold set_requeue. case_match; [|done].
  apply set_insert_Forall; [done|]. unfold set_erase.
  rewrite Forall_forall in HQ. apply Forall_forall. intros y Hy.
  apply list_elem_of_filter in Hy as [_ Hy]. by apply HQ.
Qed.

Lemma relax_astar_sound ds u v g ds' :
  relax_astar ds u v g = Ok ds' -> rtc E s u -> E u v ->
  pi_sound E s ds -> pi_sound E s ds'.
Proof.
  unfold relax_astar. intros H Hu Huv Hpi. inv_ok; try done.
  eauto using modify_pi_set.
Qed.

Lemma relax_dijkstra_sound ds u v u_depart at_v ds' :
  relax_dijkstra ds u v u_depart at_v = Ok ds' -> rtc E s u -> E u v ->
  pi_sound E s ds -> pi_sound E s ds'.
Proof.
  unfold relax_dijkstra. intros H Hu Huv Hpi. inv_ok; try done.
  eapply modify_pi_set; [done..|eassumption|].
  eapply modify_pi_kept; [|eassumption|done]. done.
Qed.

Lemma scan_astar_sound place u g edges : ∀ ds Q ds' Q',
  scan_astar place ds u g edges Q = Ok (ds', Q') ->
  rtc E s u -> Forall (fun e : Edge => E u e.2.2) edges ->
  pi_sound E s ds -> Forall reach Q ->
  pi_sound E s ds' ∧ Forall reach Q'.
Proof.
  induction edges as [|[dep [arr v]] rest IH]; intros ds Q ds' Q' H Hu He Hpi HQ;
    simpl in H.
  - by simplify_eq.
  - apply Forall_cons in He as [Huv He]. simpl in Huv.
    assert (Hv : ∀ k, reach (k, v)) by (intros k; unfold reach; simpl; eauto using reach_step).
    inv_ok;
      repeat match goal with
      | H : relax_astar _ _ _ _ = Ok _ |- _ =>
          apply relax_astar_sound in H; [|done..]
      | H : modify _ _ _ = Ok _ |- _ =>
          apply modify_pi_kept in H; [|done..]
      end;
      (eapply IH; [eassumption|done|done|done|]);
      first [ done | by apply set_insert_Forall | by apply set_requeue_Forall ].
Qed.

Lemma astar_loop_sound place fuel : ∀ ds g Q ds',
  astar_loop place fuel ds g Q = Ok ds' ->
  same_on s_stations_to ds0 ds -> pi_sound E s ds -> Forall reach Q ->
  pi_sound E s ds'.
Proof.
  induction fuel as [|fuel IH]; intros ds g Q ds' H Hs Hpi HQ; simpl in H; [done|].
  inv_ok; try done.
  apply Forall_cons in HQ as [Hu HQ].
  match goal with
  | Hsc : scan_astar _ _ _ _ _ _ = Ok _, Hd : deref _ ?u = Ok ?su |- _ =>
      pose proof (scan_astar_frame _ _ _ _ _ _ _ _ Hsc) as Hfr;
      apply (scan_astar_sound _ _ _ _ _ _ _ _) in Hsc as [Hpi1 HQ1];
        [|done|by eapply same_on_edges|done|done]
  end.
  eapply IH; eauto using same_on_frame.
Qed.

Lemma scan_dijkstra_sound place u edges : ∀ ds Q ds' Q',
  scan_dijkstra place ds u edges Q = Ok (ds', Q') ->
  rtc E s u -> Forall (fun e : Edge => E u e.2.2) edges ->
  pi_sound E s ds -> Forall reach Q ->
  pi_sound E s ds' ∧ Forall reach Q'.
Proof.
  induction edges as [|[dep [arr v]] rest IH]; intros ds Q ds' Q' H Hu He Hpi HQ;
    simpl in H.
  - by simplify_eq.
  - apply Forall_cons in He as [Huv He]. simpl in Huv.
    assert (Hv : ∀ k, reach (k, v)) by (intros k; unfold reach; simpl; eauto using reach_step).
    inv_ok;
      repeat match goal with
      | H : relax_dijkstra _ _ _ _ _ = Ok _ |- _ =>
          apply relax_dijkstra_sound in H; [|done..]
      | H : modify _ _ _ = Ok _ |- _ =>
          apply modify_pi_kept in H; [|done..]
      end;
      (eapply IH; [eassumption|done|done|done|]);
      first [ done | by apply set_insert_Forall | by apply set_requeue_Forall ].
Qed.

Lemma dijkstra_loop_sound place fuel : ∀ ds g Q ds',
  dijkstra_loop place fuel ds g Q = Ok ds' ->
  same_on s_stations_to ds0 ds -> pi_sound E s ds -> Forall reach Q ->
  pi_sound E s ds'.
Proof.
  induction fuel as [|fuel IH]; intros ds g Q ds' H Hs Hpi HQ; simpl in H; [done|].
  inv_ok; try done.
  apply Forall_cons in HQ as [Hu HQ].
  match goal with
  | Hsc : scan_dijkstra _ _ _ _ _ = Ok _, Hd : deref _ ?u = Ok ?su |- _ =>
      pose proof (scan_dijkstra_frame _ _ _ _ _ _ _ Hsc) as Hfr;
      apply (scan_dijkstra_sound _ _ _ _ _ _ _) in Hsc as [Hpi1 HQ1];
        [|done|by eapply same_on_edges|done|done]
  end.
  eapply IH; eauto using same_on_frame.
Qed.

End Unreachable.

Lemma reset_pi_sound R E s ds : (∀ x, s_pi (R x) = None) -> pi_sound E s (wipe R ds).
Proof.
  intros HR p sp Hp [q Hq]. unfold wipe in Hp. simpl in Hp.
  rewrite lookup_fmap in Hp. destruct (nodes ds !! p) as [x|]; [|done].
  simpl in Hp. simplify_eq. by rewrite HR in Hq.
Qed.

Lemma same_on_reset R ds :
  (∀ x, s_stations_to (R x) = s_stations_to x) -> same_on s_stations_to ds (wipe R ds).
Proof.
  intros HR. split; [done|]. intros p. unfold wipe. simpl.
  rewrite lookup_fmap. destruct (nodes ds !! p) as [x|]; [|done]. simpl. by rewrite HR.
Qed.

Lemma stations_at_Ok ds id p : stations_at ds id = Ok p -> stations_find ds id = Some p.
Proof. unfold stations_at, stations_find. by destruct (stations ds !! id); intros [= ->]. Qed.

(** Uses the soundness of the predecessor links on the goal node. *)
Ltac goal_pi_none Hpi Hno :=
  match goal with
  | Hg : deref ?d ?g = Ok ?sg |- _ =>
      let Hnone := fresh "Hnone" in
      assert (Hnone : s_pi sg = None);
      [ apply deref_Some in Hg; destruct (s_pi sg) eqn:?; [|done];
        exfalso; apply Hno; eapply Hpi; [exact Hg | eauto]
      | rewrite Hnone in * ]
  end.

(** When both stations are known and no edge path leads from the first to
    the second, the four point-to-point queries return the empty route. *)
Lemma no_route_empty place fuel ds fromid toid ps pg starttime :
  stations_find ds fromid = Some ps -> stations_find ds toid = Some pg ->
  fromid ≠ toid -> ¬ tc (edge ds) ps pg ->
  (∀ r ds', route_any fuel ds fromid toid = Ok (r, ds') -> r = []) ∧
  (∀ r ds', route_least_stations fuel ds fromid toid = Ok (r, ds') -> r = []) ∧
  (∀ r ds', route_shortest_distance place fuel ds fromid toid = Ok (r, ds') -> r = []) ∧
  (∀ r ds', route_earliest_arrival place fuel ds fromid toid starttime = Ok (r, ds') ->
            r = []).
Proof.
  intros Hs Hg Hne Hno. split_and!; intros r ds' H.
  - unfold route_any in H. rewrite Hs, Hg, bool_decide_eq_false_2 in H by done.
    cbv zeta in H. unfold reset_any in H.
    change (with_nodes (?R <$> nodes ?d) ?d) with (wipe R d) in H.
    apply bind_Ok in H as (s & Hs' & H). apply stations_at_Ok in Hs'.
    apply bind_Ok in H as (g & Hg' & H). apply stations_at_Ok in Hg'.
    rewrite stations_find_wipe in Hs', Hg'. simplify_eq.
    apply bind_Ok in H as (ds1 & H1 & H). apply bind_Ok in H as (ds2 & H2 & H).
    apply bind_Ok in H as (sg & Hsg & H).
    assert (Hpi : pi_sound (edge ds) ps ds2).
    { eapply (bfs_any_sound ds ps); [exact H2| | |by repeat constructor].
      - eapply same_on_trans; [|eapply modify_same_on; [|exact H1]; done].
        by apply same_on_reset.
      - eapply modify_pi_kept; [|exact H1|by apply reset_pi_sound]. done. }
    goal_pi_none Hpi Hno. destruct fuel; simpl in H; by simplify_eq.
  - unfold route_least_stations in H.
    rewrite Hs, Hg, bool_decide_eq_false_2 in H by done.
    cbv zeta in H. unfold reset_least_stations in H.
    change (with_nodes (?R <$> nodes ?d) ?d) with (wipe R d) in H.
    apply bind_Ok in H as (s & Hs' & H). apply stations_at_Ok in Hs'.
    apply bind_Ok in H as (g & Hg' & H). apply stations_at_Ok in Hg'.
    rewrite stations_find_wipe in Hs', Hg'. simplify_eq.
    apply bind_Ok in H as (ds1 & H1 & H). apply bind_Ok in H as (ds2 & H2 & H).
    apply bind_Ok in H as (sg & Hsg & H).
    assert (Hpi : pi_sound (edge ds) ps ds2).
    { eapply (bfs_least_stations_sound ds ps); [exact H2| | |by repeat constructor].
      - eapply same_on_trans; [|eapply modify_same_on; [|exact H1]; done].
        by apply same_on_reset.
      - eapply modify_pi_kept; [|exact H1|by apply reset_pi_sound]. done. }
    goal_pi_none Hpi Hno. destruct fuel; simpl in H; by simplify_eq.
  - unfold route_shortest_distance in H.
    rewrite Hs, Hg, bool_decide_eq_false_2 in H by done.
    cbv zeta in H. unfold reset_shortest_distance in H.
    change (with_nodes (?R <$> nodes ?d) ?d) with (wipe R d) in H.
    apply bind_Ok in H as (s & Hs' & H). apply stations_at_Ok in Hs'.
    apply bind_Ok in H as (g & Hg' & H). apply stations_at_Ok in Hg'.
    rewrite stations_find_wipe in Hs', Hg'. simplify_eq.
    apply bind_Ok in H as (ds1 & H1 & H). apply bind_Ok in H as (ds2 & H2 & H).
    apply bind_Ok in H as (sg & Hsg & H).
    assert (Hpi : pi_sound (edge ds) ps ds2).
    { eapply (astar_loop_sound ds ps); [exact H2| | |by repeat constructor].
      - eapply same_on_trans; [|eapply modify_same_on; [|exact H1]; done].
        by apply same_on_reset.
      - eapply modify_pi_kept; [|exact H1|by apply reset_pi_sound]. done. }
    goal_pi_none Hpi Hno. destruct fuel; simpl in H; by simplify_eq.
  - unfold route_earliest_arrival in H.
    rewrite Hs, Hg, bool_decide_eq_false_2 in H by done.
    cbv zeta in H. unfold reset_earliest_arrival in H.
    change (with_nodes (?R <$> nodes ?d) ?d) with (wipe R d) in H.
    apply bind_Ok in H as (s & Hs' & H). apply stations_at_Ok in Hs'.
    apply bind_Ok in H as (g & Hg' & H). apply stations_at_Ok in Hg'.
    rewrite stations_find_wipe in Hs', Hg'. simplify_eq.
    apply bind_Ok in H as (ds1 & H1 & H). apply bind_Ok in H as (ds2 & H2 & H).
    apply bind_Ok in H as (sg & Hsg & H).
    assert (Hpi : pi_sound (edge ds) ps ds2).
    { eapply (dijkstra_loop_sound ds ps); [exact H2| | |by repeat constructor].
      - eapply same_on_trans; [|eapply modify_same_on; [|exact H1]; done].
        by apply same_on_reset.
      - eapply modify_pi_kept; [|exact H1|by apply reset_pi_sound]. done. }
    goal_pi_none Hpi Hno. destruct fuel; simpl in H; by simplify_eq.
Qed.

(** * Further properties of the registry *)

(** ** The station map stays well formed *)

Lemma add_departure_stations ds sid tid t b ds' :
  add_departure ds sid tid t = Ok (b, ds') -> stations ds' = stations ds.
Proof. unfold add_departure. intros H. inv_ok; eauto using modify_stations. Qed.

Lemma add_train_edges_stations trainid (stationtimes : list (string * Z)) :
  ∀ ds ds', add_train_edges ds trainid stationtimes = Ok ds' -> stations ds' = stations ds.
Proof.
  induction stationtimes as [|[sid t] rest IH]; intros ds ds' H.
  - simpl in H. by simplify_eq.
  - destruct rest as [|[sid' t'] rest]; [simpl in H; by simplify_eq|].
    rewrite add_train_edges_cons in H. inv_ok. apply IH in H. rewrite H.
    erewrite modify_stations by eassumption. eauto using add_departure_stations.
Qed.

(** Apart from [add_station], [remove_station] and [clear_all], an operation
    keeps the key lookup and the identifier of every node. *)
Lemma exec_keeps_stations place o ds ds' :
  keeps_stations o = true -> exec place o ds = Ok ds' ->
  stations ds' = stations ds ∧ same_on s_id ds ds'.
Proof.
  intros Hk H.
  destruct (is_query o) eqn:Hq.
  { unfold exec in H. apply fmap_Ok in H as ([a ds1] & H & ->).
    apply query_frame_preserved in H; [|done]. simpl.
    split; [by apply frame_stations | by apply frame_same_on]. }
  destruct o; try discriminate Hq; try discriminate Hk; exec_inv H.
  - split; [|by eapply change_station_coord_same_on].
    unfold change_station_coord in H. inv_ok; eauto using modify_stations.
  - split; [|by eapply add_departure_same_on]. eauto using add_departure_stations.
  - split; [|by eapply remove_departure_same_on].
    unfold remove_departure in H. inv_ok; eauto using modify_stations.
  - unfold add_region in H. inv_ok; by repeat split.
  - unfold add_subregion_to_region in H. inv_ok; by repeat split.
  - split; [|by eapply add_station_to_region_same_on].
    unfold add_station_to_region in H. inv_ok; eauto using modify_stations.
  - split; [|by eapply add_train_same_on].
    unfold add_train in H. inv_ok; try done.
    match goal with
    | H : add_train_edges _ _ _ = Ok _ |- _ =>
        apply add_train_edges_stations in H; by rewrite H
    end.
  - simplify_eq. by repeat split.
Qed.

Lemma same_on_id_lookup ds ds' p s' :
  same_on s_id ds ds' -> nodes ds' !! p = Some s' ->
  ∃ s, nodes ds !! p = Some s ∧ s_id s = s_id s'.
Proof.
  intros [_ H] Hs'. specialize (H p). rewrite Hs' in H.
  destruct (nodes ds !! p) as [s|]; [|done]. simpl in H. exists s. split; congruence.
Qed.

Lemma same_on_id_lookup_inv ds ds' p s :
  same_on s_id ds ds' -> nodes ds !! p = Some s ->
  ∃ s', nodes ds' !! p = Some s' ∧ s_id s' = s_id s.
Proof.
  intros [_ H] Hs. specialize (H p). rewrite Hs in H.
  destruct (nodes ds' !! p) as [s'|]; [|done]. simpl in H. exists s'. split; congruence.
Qed.

Lemma exec_registry_wf place o ds ds' :
  registry_wf ds -> exec place o ds = Ok ds' -> registry_wf ds'.
Proof.
  intros (Hix & Hnd & Hb) H.
  pose proof (proj1 (exec_nodes_bounded place o ds ds' H Hb)) as Hb'.
  destruct (keeps_stations o) eqn:Hk.
  { destruct (exec_keeps_stations place o ds ds' Hk H) as [Hst Hsame].
    split_and!; [| |done].
    - intros id p Hp. rewrite Hst in Hp. destruct (Hix id p Hp) as (s & Hs & Hid).
      destruct (same_on_id_lookup_inv ds ds' p s Hsame Hs) as (s' & Hs' & Hid').
      exists s'. split; congruence.
    - intros p s' Hs'. destruct (same_on_id_lookup ds ds' p s' Hsame Hs') as (s & Hs & Hid).
      rewrite Hst, <- Hid. by apply Hnd. }
  destruct o; try discriminate Hk; exec_inv H.
  - (* add_station *)
    unfold add_station in H. inv_ok; try by split_and!.
    split_and!; [| |done]; simpl.
    + intros id' p Hp. destruct (decide (id = id')) as [<-|Hne].
      * rewrite lookup_insert_eq in Hp. simplify_eq.
        rewrite lookup_insert_eq. eauto.
      * rewrite lookup_insert_ne in Hp by done.
        destruct (Hix id' p Hp) as (s & Hs & Hid).
        exists s. split; [|done]. rewrite lookup_insert_ne; [done|].
        intros <-. assert (next_node ds < next_node ds)%nat; [|lia]. apply Hb. eauto.
    + intros p s Hs. destruct (decide (next_node ds = p)) as [<-|Hne].
      * rewrite lookup_insert_eq in Hs. simplify_eq. simpl. by rewrite lookup_insert_eq.
      * rewrite lookup_insert_ne in Hs by done. pose proof (Hnd p s Hs) as Hp.
        rewrite lookup_insert_ne; [done|]. intros ->.
        unfold stations_find in *. congruence.
  - (* remove_station *)
    unfold remove_station in H. inv_ok; try by split_and!.
    match goal with Hf : stations_find ds _ = Some ?n |- _ => rename Hf into Hfind end.
    unfold stations_find in Hfind.
    destruct (Hix _ _ Hfind) as (s0 & Hs0 & Hid0).
    split_and!; [| |done]; simpl.
    + intros id' p Hp. apply lookup_delete_Some in Hp as [Hne Hp].
      destruct (Hix id' p Hp) as (s & Hs & Hid). exists s. split; [|done].
      rewrite lookup_delete_ne; [done|]. intros <-. congruence.
    + intros p s Hs. apply lookup_delete_Some in Hs as [Hne Hs].
      pose proof (Hnd p s Hs) as Hp. rewrite lookup_delete_ne; [done|].
      intros Heq. rewrite <- Heq in Hp. congruence.
  - (* clear_all *)
    simplify_eq. split_and!; [| |done]; simpl; intros ? ? Hx;
      by rewrite lookup_empty in Hx.
Qed.

Lemma run_registry_wf place ops : ∀ ds ds',
  registry_wf ds -> run place ops ds = Ok ds' -> registry_wf ds'.
Proof.
  induction ops as [|o ops IH]; intros ds ds' Hwf H; simpl in H.
  - by simplify_eq.
  - apply bind_Ok in H as (ds1 & H1 & H). eauto using exec_registry_wf.
Qed.

Lemma init_registry_wf : registry_wf Datastructures_init.
Proof.
  split_and!.
  - intros id p Hp. simpl in Hp. by rewrite lookup_empty in Hp.
  - intros p s Hs. simpl in Hs. by rewrite lookup_empty in Hs.
  - intros p Hp. simpl in Hp. rewrite lookup_empty in Hp. by destruct Hp.
Qed.

Lemma line_network_registry_wf : registry_wf line_network.
Proof.
  eapply (run_registry_wf default_place line_ops); [apply init_registry_wf|].
  vm_compute. reflexivity.
Qed.

(** X1. In every state the object can reach, the station map is well formed:
    every registered identifier leads to a node that carries this identifier,
    every node is registered under its own identifier, and the address that
    [add_station] takes next is free. *)
Theorem reachable_registry_wf place ds : reachable place ds -> registry_wf ds.
Proof.
  intros [ops H]. eapply run_registry_wf; [|exact H]. apply init_registry_wf.
Qed.

Lemma reachable_registry_wf_witness : registry_wf regional_network.
Proof.
  apply (reachable_registry_wf default_place).
  exists regional_ops. vm_compute. reflexivity.
Defined.

(** ** Stations: insert, look up, change, remove *)

Lemma get_station_agree ds ds' id :
  stations ds' !! id = stations ds !! id ->
  (∀ p, stations ds !! id = Some p -> nodes ds' !! p = nodes ds !! p) ->
  get_station_name ds' id = get_station_name ds id ∧
  get_station_coordinates ds' id = get_station_coordinates ds id.
Proof.
  intros Hix Hnd.
  unfold get_station_name, get_station_coordinates, stations_find, stations_at, deref.
  rewrite Hix. destruct (stations ds !! id) as [p|] eqn:E; [|done].
  destruct (bool_decide (id ≠ NO_STATION)); [|done]. simpl.
  by rewrite (Hnd p eq_refl).
Qed.

Lemma get_station_name_found ds id p s :
  id ≠ NO_STATION -> stations ds !! id = Some p -> nodes ds !! p = Some s ->
  get_station_name ds id = Ok (s_name s).
Proof.
  intros Hid Hp Hs. unfold get_station_name, stations_find, stations_at, deref.
  rewrite Hp, bool_decide_eq_true_2 by done. simpl. by rewrite Hs.
Qed.

Lemma get_station_coordinates_found ds id p s :
  id ≠ NO_STATION -> stations ds !! id = Some p -> nodes ds !! p = Some s ->
  get_station_coordinates ds id = Ok (s_location s).
Proof.
  intros Hid Hp Hs. unfold get_station_coordinates, stations_find, stations_at, deref.
  rewrite Hp, bool_decide_eq_true_2 by done. simpl. by rewrite Hs.
Qed.

(** X2. [add_station] succeeds exactly when the identifier is not registered
    and neither the identifier, the name nor the coordinate is the "not
    found" value; a call that fails leaves the state as it was.  After a
    successful call the name and the coordinate are found under the
    identifier, there is one station more, every other station is looked up
    as before, and adding the identifier again fails. *)
Theorem add_station_round_trip ds id name xy b ds' :
  registry_wf ds -> add_station ds id name xy = (b, ds') ->
  (b = true <->
     stations_find ds id = None ∧ id ≠ NO_STATION ∧ name ≠ NO_NAME ∧ xy ≠ NO_COORD) ∧
  (b = false -> ds' = ds) ∧
  (b = true ->
     get_station_name ds' id = Ok name ∧ get_station_coordinates ds' id = Ok xy ∧
     station_count ds' = S (station_count ds) ∧
     (∀ id', id' ≠ id ->
        get_station_name ds' id' = get_station_name ds id' ∧
        get_station_coordinates ds' id' = get_station_coordinates ds id') ∧
     (∀ name' xy', add_station ds' id name' xy' = (false, ds'))).
Proof.
  intros (Hix & Hnd & Hb) H. unfold add_station in H.
  destruct (stations_find ds id) as [p|] eqn:Hfind.
  { simplify_eq. split_and!; [|done|done]. split; [done|]. by intros [? _]. }
  destruct (bool_decide (id ≠ NO_STATION)) eqn:H1; simpl in H;
    [|simplify_eq; apply bool_decide_eq_false_1 in H1;
      split_and!; [|done|done]; split; [done|]; intros (_ & ? & _); done].
  destruct (bool_decide (name ≠ NO_NAME)) eqn:H2; simpl in H;
    [|simplify_eq; apply bool_decide_eq_false_1 in H2;
      split_and!; [|done|done]; split; [done|]; intros (_ & _ & ? & _); done].
  destruct (bool_decide (xy ≠ NO_COORD)) eqn:H3; simpl in H;
    [|simplify_eq; apply bool_decide_eq_false_1 in H3;
      split_and!; [|done|done]; split; [done|]; intros (_ & _ & _ & ?); done].
  apply bool_decide_eq_true_1 in H1, H2, H3. simplify_eq.
  unfold stations_find in Hfind.
  split_and!; [done|done|]. intros _. split_and!.
  - apply (get_station_name_found _ id (next_node ds)
             (mkStation id name xy NO_REGION ∅ [] 0 999999 999999 None));
      [done|..]; simpl; by rewrite lookup_insert_eq.
  - apply (get_station_coordinates_found _ id (next_node ds)
             (mkStation id name xy NO_REGION ∅ [] 0 999999 999999 None));
      [done|..]; simpl; by rewrite lookup_insert_eq.
  - unfold station_count. simpl. by rewrite map_size_insert_None.
  - intros id' Hne. apply get_station_agree; simpl.
    + by rewrite lookup_insert_ne.
    + intros p Hp. rewrite lookup_insert_ne; [done|]. intros <-.
      destruct (Hix id' _ Hp) as (s & Hs & _).
      assert (next_node ds < next_node ds)%nat; [|lia]. apply Hb. eauto.
  - intros name' xy'. unfold add_station, stations_find. simpl.
    by rewrite lookup_insert_eq.
Qed.

Lemma add_station_round_trip_witness :
  get_station_name (add_station line_network "S4" "Fourth" (mkCoord 9 12)).2 "S4"
  = Ok "Fourth"%string.
Proof.
  refine (proj1 (proj2 (proj2 (add_station_round_trip line_network "S4" "Fourth"
            (mkCoord 9 12) true _ _ _)) eq_refl)).
  - apply line_network_registry_wf.
  - vm_compute. reflexivity.
Defined.

(** X3. [remove_station] succeeds exactly when the identifier is registered,
    and a call that fails leaves the state as it was.  After a successful
    call the identifier is looked up as "not found", there is one station
    less, and every other station is looked up as before. *)
Theorem remove_station_lookup ds id b ds' :
  registry_wf ds -> remove_station ds id = (b, ds') ->
  (b = true <-> is_Some (stations_find ds id)) ∧
  (b = false -> ds' = ds) ∧
  (b = true ->
     get_station_name ds' id = Ok NO_NAME ∧
     get_station_coordinates ds' id = Ok NO_COORD ∧
     S (station_count ds') = station_count ds ∧
     (∀ id', id' ≠ id ->
        get_station_name ds' id' = get_station_name ds id' ∧
        get_station_coordinates ds' id' = get_station_coordinates ds id')).
Proof.
  intros (Hix & Hnd & Hb) H. unfold remove_station in H.
  destruct (stations_find ds id) as [p|] eqn:Hfind; simplify_eq.
  2:{ split_and!; [|done|done]. split; [done|]. by intros [? ?]. }
  unfold stations_find in Hfind.
  split_and!; [by split; eauto|done|]. intros _. split_and!.
  - unfold get_station_name, stations_find. simpl. by rewrite lookup_delete_eq.
  - unfold get_station_coordinates, stations_find. simpl. by rewrite lookup_delete_eq.
  - unfold station_count. simpl.
    rewrite map_size_delete, Hfind.
    assert (size (stations ds) ≠ 0)%nat; [|lia].
    intros H0. apply map_size_empty_inv in H0. rewrite H0 in Hfind.
    by rewrite lookup_empty in Hfind.
  - intros id' Hne. apply get_station_agree; simpl.
    + by rewrite lookup_delete_ne.
    + intros q Hq. rewrite lookup_delete_ne; [done|]. intros <-.
      destruct (Hix _ _ Hq) as (s1 & Hs1 & Hid1).
      destruct (Hix _ _ Hfind) as (s2 & Hs2 & Hid2). congruence.
Qed.

Lemma remove_station_lookup_witness :
  get_station_name (remove_station line_network "S2").2 "S2" = Ok NO_NAME.
Proof.
  refine (proj1 (proj2 (proj2 (remove_station_lookup line_network "S2" true _ _ _))
                   eq_refl)).
  - apply line_network_registry_wf.
  - vm_compute. reflexivity.
Defined.

(** X4. [change_station_coord] on a registered station returns true and the
    new coordinate is what [get_station_coordinates] finds afterwards (the
    coordinate is not validated: NO_COORD is stored like any other); the
    name and every other station are looked up as before.  On an identifier
    that is not registered it returns false and changes nothing. *)
Theorem change_station_coord_lookup ds id newcoord :
  registry_wf ds -> id ≠ NO_STATION ->
  (stations_find ds id = None ->
     change_station_coord ds id newcoord = Ok (false, ds)) ∧
  (is_Some (stations_find ds id) ->
     ∃ ds', change_station_coord ds id newcoord = Ok (true, ds') ∧
       get_station_coordinates ds' id = Ok newcoord ∧
       get_station_name ds' id = get_station_name ds id ∧
       ∀ id', id' ≠ id ->
         get_station_name ds' id' = get_station_name ds id' ∧
         get_station_coordinates ds' id' = get_station_coordinates ds id').
Proof.
  intros (Hix & Hnd & Hb) Hid. split.
  - intros Hnone. unfold change_station_coord. by rewrite Hnone.
  - intros [p Hp]. unfold change_station_coord. rewrite Hp.
    unfold stations_find in Hp. destruct (Hix _ _ Hp) as (s & Hs & Hsid).
    unfold modify, deref. rewrite Hs. simpl. eexists. split; [reflexivity|].
    split_and!.
    + apply (get_station_coordinates_found _ id p (set_location newcoord s));
        [done|done|]. simpl. by rewrite lookup_insert_eq.
    + rewrite (get_station_name_found ds id p s Hid Hp Hs).
      apply (get_station_name_found _ id p (set_location newcoord s));
        [done|done|]. simpl. by rewrite lookup_insert_eq.
    + intros id' Hne. apply get_station_agree; simpl; [done|].
      intros q Hq. rewrite lookup_insert_ne; [done|]. intros <-.
      destruct (Hix _ _ Hq) as (s1 & Hs1 & Hid1). congruence.
Qed.

Lemma change_station_coord_lookup_witness :
  ∃ ds', change_station_coord line_network "S2" (mkCoord 7 7) = Ok (true, ds') ∧
         get_station_coordinates ds' "S2" = Ok (mkCoord 7 7).
Proof.
  destruct (proj2 (change_station_coord_lookup line_network "S2" (mkCoord 7 7)
    line_network_registry_wf
    ltac:(discriminate)) ltac:(vm_compute; eexists; reflexivity))
    as (ds' & H1 & H2 & _).
  exists ds'. split; assumption.
Defined.

(** ** Departures *)

Lemma modify_lookup ds p f s :
  nodes ds !! p = Some s ->
  modify ds p f = Ok (with_nodes (<[p := f s]> (nodes ds)) ds).
Proof. intros Hs. unfold modify, deref. by rewrite Hs. Qed.

(** X5. [add_departure] on an unknown station returns false and changes
    nothing.  On a known station it returns true exactly when the train did
    not yet leave the station at that time, a call that returns false
    changes nothing, and afterwards the departures of the station are the
    ones it had together with the new one; no time is left with an empty set
    of trains. *)
Theorem add_departure_departs ds stationid trainid time :
  (stations_find ds stationid = None ->
     add_departure ds stationid trainid time = Ok (false, ds)) ∧
  (∀ p s, stations_find ds stationid = Some p -> nodes ds !! p = Some s ->
     ∃ b ds' s',
       add_departure ds stationid trainid time = Ok (b, ds') ∧
       nodes ds' !! p = Some s' ∧
       (b = true <-> ¬ departs s time trainid) ∧
       (b = false -> ds' = ds) ∧
       (∀ t tr, departs s' t tr <-> departs s t tr ∨ (t = time ∧ tr = trainid)) ∧
       (departures_tidy s -> departures_tidy s')).
Proof.
  split.
  { intros Hnone. unfold add_departure. by rewrite Hnone. }
  intros p s Hp Hs. unfold add_departure, deref. rewrite Hp, Hs. simpl.
  destruct (s_departures s !! time) as [trs|] eqn:E.
  - destruct (decide (trainid ∈ trs)) as [Hin|Hnin].
    + rewrite bool_decide_eq_true_2 by done.
      exists false, ds, s. split_and!; try done.
      * split; [done|]. intros Hno. exfalso. apply Hno. by exists trs.
      * intros t tr. split; [by left|]. intros [H|[-> ->]]; [done|]. by exists trs.
    + rewrite bool_decide_eq_false_2 by done.
      rewrite (modify_lookup _ _ _ s Hs). simpl.
      eexists true, _, _. split_and!; [reflexivity|simpl; apply lookup_insert_eq| | | |].
      * split; [|done]. intros _ (trs' & E' & Hin'). congruence.
      * done.
      * intros t tr. unfold departs. simpl. destruct (decide (time = t)) as [<-|Hne].
        -- rewrite lookup_insert_eq. split.
           ++ intros (trs' & [= <-] & Hin'). apply elem_of_union in Hin' as [Hin'|Hin'].
              ** left. eauto.
              ** right. by apply elem_of_singleton in Hin' as ->.
           ++ intros [(trs' & E' & Hin')|[_ ->]]; eexists; (split; [reflexivity|]).
              ** simplify_eq. set_solver.
              ** set_solver.
        -- rewrite lookup_insert_ne by done. split; [by left|].
           intros [H|[-> _]]; done.
      * intros Htidy t trs' Ht. simpl in Ht.
        destruct (decide (time = t)) as [<-|Hne].
        -- rewrite lookup_insert_eq in Ht. simplify_eq. set_solver.
        -- rewrite lookup_insert_ne in Ht by done. eauto.
  - rewrite (modify_lookup _ _ _ s Hs). simpl.
    eexists true, _, _. split_and!; [reflexivity|simpl; apply lookup_insert_eq| | | |].
    * split; [|done]. intros _ (trs' & E' & Hin'). congruence.
    * done.
    * intros t tr. unfold departs. simpl. destruct (decide (time = t)) as [<-|Hne].
      -- rewrite lookup_insert_eq. split.
         ++ intros (trs' & [= <-] & Hin'). right. by apply elem_of_singleton in Hin' as ->.
         ++ intros [(trs' & E' & Hin')|[_ ->]]; [congruence|].
            eexists; (split; [reflexivity|]). set_solver.
      -- rewrite lookup_insert_ne by done. split; [by left|].
         intros [H|[-> _]]; done.
    * intros Htidy t trs' Ht. simpl in Ht.
      destruct (decide (time = t)) as [<-|Hne].
      -- rewrite lookup_insert_eq in Ht. simplify_eq. set_solver.
      -- rewrite lookup_insert_ne in Ht by done. eauto.
Qed.

(** X6. [remove_departure] on an unknown station returns false and changes
    nothing.  On a known station it returns true exactly when the train left
    the station at that time, a call that returns false changes nothing, and
    afterwards the departures of the station are the ones it had without the
    removed one; a time whose last train is removed is dropped, so no time
    is left with an empty set of trains. *)
Theorem remove_departure_departs ds stationid trainid time :
  (stations_find ds stationid = None ->
     remove_departure ds stationid trainid time = Ok (false, ds)) ∧
  (∀ p s, stations_find ds stationid = Some p -> nodes ds !! p = Some s ->
     ∃ b ds' s',
       remove_departure ds stationid trainid time = Ok (b, ds') ∧
       nodes ds' !! p = Some s' ∧
       (b = true <-> departs s time trainid) ∧
       (b = false -> ds' = ds) ∧
       (∀ t tr, departs s' t tr <-> departs s t tr ∧ ¬ (t = time ∧ tr = trainid)) ∧
       (departures_tidy s -> departures_tidy s')).
Proof.
  split.
  { intros Hnone. unfold remove_departure. by rewrite Hnone. }
  intros p s Hp Hs. unfold remove_departure, deref. rewrite Hp, Hs. simpl.
  destruct (s_departures s !! time) as [trs|] eqn:E.
  2:{ exists false, ds, s. split_and!; try done.
      - split; [done|]. intros (trs' & E' & _). congruence.
      - intros t tr. split; [|tauto]. intros Hd. split; [done|].
        intros [-> ->]. destruct Hd as (trs' & E' & _). congruence. }
  destruct (decide (trainid ∈ trs)) as [Hin|Hnin].
  2:{ rewrite bool_decide_eq_false_2 by done.
      exists false, ds, s. split_and!; try done.
      - split; [done|]. intros (trs' & E' & Hin'). congruence.
      - intros t tr. split; [|tauto]. intros Hd. split; [done|].
        intros [-> ->]. destruct Hd as (trs' & E' & Hin'). congruence. }
  rewrite bool_decide_eq_true_2 by done.
  rewrite (modify_lookup _ _ _ s Hs). simpl.
  eexists true, _, _. split_and!; [reflexivity|simpl; apply lookup_insert_eq| | | |].
  - split; [|done]. intros _. by exists trs.
  - done.
  - intros t tr. unfold departs. simpl.
    destruct (decide (size (trs ∖ {[trainid]}) = 0%nat)) as [Hz|Hnz].
    + rewrite bool_decide_eq_true_2 by done. apply size_empty_iff in Hz.
      destruct (decide (time = t)) as [<-|Hne].
      * rewrite lookup_delete_eq. split; [by intros (? & ? & _)|].
        intros [(trs' & E' & Hin') Hno]. simplify_eq.
        assert (tr ≠ trainid) by (intros ->; by apply Hno). set_solver.
      * rewrite lookup_delete_ne by done. split; [|tauto].
        intros Hd. split; [done|]. by intros [-> _].
    + rewrite bool_decide_eq_false_2 by done.
      destruct (decide (time = t)) as [<-|Hne].
      * rewrite lookup_insert_eq. split.
        -- intros (trs' & [= <-] & Hin').
           apply elem_of_difference in Hin' as [Hin' Hne'].
           split; [by exists trs|]. intros [_ ->]. apply Hne'. by apply elem_of_singleton.
        -- intros [(trs' & E' & Hin') Hno]. simplify_eq.
           eexists; split; [reflexivity|].
           assert (tr ≠ trainid) by (intros ->; by apply Hno). set_solver.
      * rewrite lookup_insert_ne by done. split; [|tauto].
        intros Hd. split; [done|]. by intros [-> _].
  - intros Htidy t trs' Ht. simpl in Ht.
    destruct (decide (size (trs ∖ {[trainid]}) = 0%nat)) as [Hz|Hnz].
    + rewrite bool_decide_eq_true_2 in Ht by done.
      apply lookup_delete_Some in Ht as [_ Ht]. eauto.
    + rewrite bool_decide_eq_false_2 in Ht by done.
      destruct (decide (time = t)) as [<-|Hne].
      * rewrite lookup_insert_eq in Ht. simplify_eq.
        intros Hempty. apply Hnz. apply size_empty_iff. by rewrite Hempty.
      * rewrite lookup_insert_ne in Ht by done. eauto.
Qed.

Lemma add_departure_departs_witness :
  ∃ b ds' s', add_departure line_network "S3" "T9" 500 = Ok (b, ds') ∧
              nodes ds' !! 2%nat = Some s' ∧ (b = true <-> ¬ departs
                (mkStation "S3" "S3" (mkCoord 6 8) NO_REGION ∅ [] 0 999999 999999 None)
                500 "T9").
Proof.
  destruct (proj2 (add_departure_departs line_network "S3" "T9" 500) 2%nat
              (mkStation "S3" "S3" (mkCoord 6 8) NO_REGION ∅ [] 0 999999 999999 None))
    as (b & ds' & s' & H1 & H2 & H3 & _);
    [vm_compute; reflexivity | vm_compute; reflexivity |].
  exists b, ds', s'. split_and!; assumption.
Defined.

(** ** The order of [station_departures_after] *)

Lemma string_ltb_lt a b :
  String.ltb a b = true <-> OrderedTypeEx.String_as_OT.lt a b.
Proof.
  rewrite <- OrderedTypeEx.String_as_OT.cmp_lt.
  unfold String.ltb, OrderedTypeEx.String_as_OT.cmp.
  destruct (String.compare a b); split; congruence.
Qed.

Lemma string_ltb_trans a b c :
  String.ltb a b = true -> String.ltb b c = true -> String.ltb a c = true.
Proof.
  rewrite !string_ltb_lt. apply OrderedTypeEx.String_as_OT.lt_trans.
Qed.

Lemma string_ltb_asym a b : String.ltb a b = true -> String.ltb b a = false.
Proof.
  unfold String.ltb. rewrite (String.compare_antisym a b).
  by destruct (String.compare b a).
Qed.

Lemma string_ltb_total a b : a = b ∨ String.ltb a b = true ∨ String.ltb b a = true.
Proof.
  unfold String.ltb. rewrite (String.compare_antisym a b).
  destruct (String.compare b a) eqn:E; simpl; auto.
  left. symmetry. by apply String.compare_eq_iff.
Qed.

Lemma departure_lt_spec a b :
  departure_lt a b = true <-> a.1 < b.1 ∨ (a.1 = b.1 ∧ String.ltb a.2 b.2 = true).
Proof.
  unfold departure_lt. case_bool_decide as Hne.
  - rewrite Z.ltb_lt. split; [by left|]. intros [?|[? _]]; [done|]. done.
  - split; [by right|]. intros [?|[_ ?]]; [lia|done].
Qed.

Lemma departure_lt_trans a b c :
  departure_lt a b = true -> departure_lt b c = true -> departure_lt a c = true.
Proof.
  rewrite !departure_lt_spec. intros [H1|[H1 H1']] [H2|[H2 H2']]; try (left; lia).
  right. split; [lia|]. eauto using string_ltb_trans.
Qed.

Lemma departure_lt_asym a b : departure_lt a b = true -> departure_lt b a = false.
Proof.
  intros H. apply not_true_is_false. revert H. rewrite !departure_lt_spec.
  intros [H1|[H1 H1']] [H2|[H2 H2']]; try lia.
  apply string_ltb_asym in H1'. congruence.
Qed.

Lemma departure_lt_total a b : a = b ∨ departure_lt a b = true ∨ departure_lt b a = true.
Proof.
  rewrite !departure_lt_spec. destruct a as [t1 s1], b as [t2 s2]. simpl.
  destruct (Z.lt_trichotomy t1 t2) as [?|[->|?]]; [tauto| |tauto].
  destruct (string_ltb_total s1 s2) as [->|[?|?]]; tauto.
Qed.

Lemma departure_le_total : Total departure_le.
Proof.
  intros a b. unfold departure_le.
  destruct (departure_lt_total a b) as [->|[H|H]].
  - left. destruct (departure_lt b b) eqn:E; [|done]. by rewrite (departure_lt_asym _ _ E) in E.
  - left. by apply departure_lt_asym.
  - right. by apply departure_lt_asym.
Qed.

Lemma departure_le_trans : Transitive departure_le.
Proof.
  intros a b c Hab Hbc. unfold departure_le in *.
  destruct (departure_lt c a) eqn:Hca; [|done]. exfalso.
  destruct (departure_lt_total a b) as [->|[H|H]]; [congruence| |congruence].
  pose proof (departure_lt_trans _ _ _ Hca H). congruence.
Qed.

Lemma departures_from_elem time (deps : gmap Z (gset string)) t tr :
  (t, tr) ∈ departures_from time deps <->
  time <= t ∧ ∃ trs, deps !! t = Some trs ∧ tr ∈ trs.
Proof.
  unfold departures_from. rewrite list_elem_of_bind. split.
  - intros ([t' trs] & Hin & Hm). apply elem_of_map_to_list in Hm.
    case_bool_decide; [|by inversion Hin].
    apply list_elem_of_fmap in Hin as (tr' & [= -> ->] & Hin).
    apply elem_of_elements in Hin. eauto.
  - intros (Hle & trs & Hm & Hin). exists (t, trs). split.
    + rewrite bool_decide_eq_true_2 by done. apply list_elem_of_fmap.
      exists tr. split; [done|]. by apply elem_of_elements.
    + by apply elem_of_map_to_list.
Qed.

Lemma departures_from_NoDup time (deps : gmap Z (gset string)) :
  NoDup (departures_from time deps).
Proof.
  unfold departures_from. apply NoDup_bind.
  - intros [t1 trs1] [t2 trs2] x H1 H2 Hx1 Hx2.
    apply elem_of_map_to_list in H1, H2.
    destruct (bool_decide (time <= t1)); [|by inversion Hx1].
    destruct (bool_decide (time <= t2)); [|by inversion Hx2].
    apply list_elem_of_fmap in Hx1 as (? & -> & _).
    apply list_elem_of_fmap in Hx2 as (? & [= -> _] & _). congruence.
  - intros [t trs] _. case_bool_decide; [|constructor].
    apply NoDup_fmap_2; [|apply NoDup_elements]. intros ? ?. congruence.
  - apply NoDup_map_to_list.
Qed.

(** X7. [station_departures_after] on an unknown station returns the one
    "not found" pair.  On a known station it returns, without repetition,
    exactly the departures of the station at or after the given time, in the
    order of its comparison: by time, and by train identifier at equal
    times. *)
Theorem station_departures_after_sorted ds stationid time :
  (stations_find ds stationid = None ->
     station_departures_after ds stationid time = Ok [(NO_TIME, NO_TRAIN)]) ∧
  (∀ p s, stations_find ds stationid = Some p -> nodes ds !! p = Some s ->
     ∃ l, station_departures_after ds stationid time = Ok l ∧
          StronglySorted departure_le l ∧ NoDup l ∧
          ∀ t tr, (t, tr) ∈ l <-> departs s t tr ∧ time <= t).
Proof.
  split.
  { intros Hnone. unfold station_departures_after. by rewrite Hnone. }
  intros p s Hp Hs. unfold station_departures_after, deref. rewrite Hp, Hs. simpl.
  eexists. split; [reflexivity|]. unfold sort_by. split_and!.
  - apply (@StronglySorted_merge_sort _ departure_le _ departure_le_trans
             departure_le_total).
  - rewrite (merge_sort_Permutation departure_le). apply departures_from_NoDup.
  - intros t tr. rewrite (merge_sort_Permutation departure_le).
    rewrite departures_from_elem. unfold departs. tauto.
Qed.

Lemma station_departures_after_sorted_witness :
  ∃ l, station_departures_after line_network "S1" 50 = Ok l ∧
       StronglySorted departure_le l.
Proof.
  destruct (proj2 (station_departures_after_sorted line_network "S1" 50) 0%nat
              (mkStation "S1" "S1" (mkCoord 0 0) NO_REGION {[100 := {["T1"%string]}]}
                 [(100, (110, 1%nat))] 0 999999 999999 None))
    as (l & H1 & H2 & _);
    [vm_compute; reflexivity | vm_compute; reflexivity |].
  exists l. split; assumption.
Defined.

Lemma remove_departure_departs_witness :
  ∃ b ds' s', remove_departure line_network "S1" "T1" 100 = Ok (b, ds') ∧
              nodes ds' !! 0%nat = Some s' ∧ b = true.
Proof.
  destruct (proj2 (remove_departure_departs line_network "S1" "T1" 100) 0%nat
              (mkStation "S1" "S1" (mkCoord 0 0) NO_REGION {[100 := {["T1"%string]}]}
                 [(100, (110, 1%nat))] 0 999999 999999 None))
    as (b & ds' & s' & H1 & H2 & H3 & _);
    [vm_compute; reflexivity | vm_compute; reflexivity |].
  exists b, ds', s'. split_and!; [assumption..|].
  apply H3. exists {["T1"%string]}. split; [vm_compute; reflexivity|].
  by apply elem_of_singleton.
Defined.

(** * Further properties of the regions *)

(** ** Insert and look up *)

(** X8. [add_region] succeeds exactly when the identifier is not registered;
    neither the identifier nor the name is compared with the "not found"
    values.  A call that fails leaves the state as it was.  After a
    successful call the name and the polygon are found under the identifier,
    every other region is looked up as before, and adding the identifier
    again fails. *)
Theorem add_region_round_trip ds id name coords b ds' :
  add_region ds id name coords = (b, ds') ->
  (b = true <-> regions ds !! id = None) ∧
  (b = false -> ds' = ds) ∧
  (b = true ->
     get_region_name ds' id = name ∧ get_region_coords ds' id = coords ∧
     (∀ id', id' ≠ id ->
        get_region_name ds' id' = get_region_name ds id' ∧
        get_region_coords ds' id' = get_region_coords ds id') ∧
     (∀ name' coords', add_region ds' id name' coords' = (false, ds'))).
Proof.
  unfold add_region. intros H.
  destruct (regions ds !! id) as [r|] eqn:E; simplify_eq.
  { split_and!; done. }
  split_and!; [done|done|]. intros _.
  unfold get_region_name, get_region_coords, add_region. simpl.
  split_and!.
  - by rewrite lookup_insert_eq.
  - by rewrite lookup_insert_eq.
  - intros id' Hne. by rewrite lookup_insert_ne.
  - intros name' coords'. by rewrite lookup_insert_eq.
Qed.

Lemma add_region_round_trip_witness :
  get_region_name (add_region three_levels NO_REGION NO_NAME []).2 NO_REGION = NO_NAME ∧
  (add_region three_levels NO_REGION NO_NAME []).1 = true.
Proof.
  split; [|vm_compute; reflexivity].
  refine (proj1 (proj2 (proj2 (add_region_round_trip three_levels NO_REGION NO_NAME []
            true _ _)) eq_refl)).
  vm_compute. reflexivity.
Defined.

(** ** The region map under the operations *)

Lemma add_departure_regions ds sid tid t b ds' :
  add_departure ds sid tid t = Ok (b, ds') -> regions ds' = regions ds.
Proof. unfold add_departure. intros H. inv_ok; eauto using modify_regions. Qed.

Lemma add_train_edges_regions trainid (stationtimes : list (string * Z)) :
  ∀ ds ds', add_train_edges ds trainid stationtimes = Ok ds' -> regions ds' = regions ds.
Proof.
  induction stationtimes as [|[sid t] rest IH]; intros ds ds' H.
  - simpl in H. by simplify_eq.
  - destruct rest as [|[sid' t'] rest]; [simpl in H; by simplify_eq|].
    rewrite add_train_edges_cons in H. inv_ok. apply IH in H. rewrite H.
    erewrite modify_regions by eassumption. eauto using add_departure_regions.
Qed.

(** Apart from [add_region], [add_subregion_to_region] and [clear_all], an
    operation keeps the region map. *)
Lemma exec_keeps_regions place o ds ds' :
  keeps_regions o = true -> exec place o ds = Ok ds' -> regions ds' = regions ds.
Proof.
  intros Hk H.
  destruct (is_query o) eqn:Hq.
  { unfold exec in H. apply fmap_Ok in H as ([a ds1] & H & ->).
    apply query_frame_preserved in H; [|done]. exact (f_equal regions H). }
  destruct o; try discriminate Hq; try discriminate Hk; exec_inv H.
  - unfold add_station in H. by inv_ok.
  - unfold change_station_coord in H. inv_ok; eauto using modify_regions.
  - eauto using add_departure_regions.
  - unfold remove_departure in H. inv_ok; eauto using modify_regions.
  - unfold add_station_to_region in H. inv_ok; eauto using modify_regions.
  - unfold remove_station in H. by inv_ok.
  - unfold add_train in H. inv_ok; try done.
    match goal with
    | H : add_train_edges _ _ _ = Ok _ |- _ =>
        apply add_train_edges_regions in H; by rewrite H
    end.
  - by simplify_eq.
Qed.

(** A region that has a parent is refused another one. *)
Lemma add_subregion_refused ds id r :
  regions ds !! id = Some r -> r_parent r ≠ NO_REGION ->
  ∀ parentid, add_subregion_to_region ds id parentid = (false, ds).
Proof.
  intros Hr Hp parentid. unfold add_subregion_to_region. rewrite Hr.
  destruct (regions ds !! parentid); [|done]. by rewrite bool_decide_eq_true_2.
Qed.

(** What a successful [add_subregion_to_region] stores. *)
Lemma add_subregion_lookup ds id parentid r rp k :
  regions ds !! id = Some r -> regions ds !! parentid = Some rp ->
  r_parent r = NO_REGION ->
  ∃ ds', add_subregion_to_region ds id parentid = (true, ds') ∧
    nodes ds' = nodes ds ∧ stations ds' = stations ds ∧
    regions ds' !! k =
      (fun x => (if bool_decide (k = id) then set_r_parent parentid else (fun y => y))
                  ((if bool_decide (k = parentid)
                    then set_r_subregions (r_subregions x ∪ {[id]}) else (fun y => y)) x))
      <$> regions ds !! k.
Proof.
  intros Hr Hrp Hroot. unfold add_subregion_to_region. rewrite Hr, Hrp.
  rewrite bool_decide_eq_false_2 by (intros ?; congruence).
  eexists. split; [reflexivity|]. split_and!; [done..|]. simpl.
  rewrite lookup_alter. case_decide as Hk.
  - subst k. rewrite bool_decide_eq_true_2 by done.
    destruct (decide (id = parentid)) as [<-|Hne].
    + rewrite lookup_insert_eq, Hr, bool_decide_eq_true_2 by done. simpl. by simplify_eq.
    + rewrite lookup_insert_ne, Hr, bool_decide_eq_false_2 by done. done.
  - rewrite (bool_decide_eq_false_2 (k = id)) by done.
    destruct (decide (k = parentid)) as [->|Hne].
    + rewrite lookup_insert_eq, Hrp, bool_decide_eq_true_2 by done. done.
    + rewrite lookup_insert_ne, bool_decide_eq_false_2 by done.
      by destruct (regions ds !! k).
Qed.

(** No operation other than [clear_all] removes a region or changes its
    identifier, name or polygon, or a parent link that is set. *)
Lemma exec_region_kept_record place o ds ds' id r :
  o ≠ ClearAll -> exec place o ds = Ok ds' -> regions ds !! id = Some r ->
  ∃ r', regions ds' !! id = Some r' ∧ r_id r' = r_id r ∧ r_name r' = r_name r ∧
        r_coordinates r' = r_coordinates r ∧
        (r_parent r ≠ NO_REGION -> r_parent r' = r_parent r).
Proof.
  intros Hno H Hr.
  destruct (keeps_regions o) eqn:Hk.
  { rewrite (exec_keeps_regions place o ds ds' Hk H). by exists r. }
  destruct o; try discriminate Hk; try done; exec_inv H.
  - unfold add_region in H. inv_ok; [by exists r|]. simpl.
    rewrite lookup_insert_ne; [by exists r|]. intros <-. congruence.
  - unfold add_subregion_to_region in H.
    destruct (regions ds !! id0) as [r0|] eqn:E0; [|simplify_eq; by exists r].
    destruct (regions ds !! parentid) as [rp|] eqn:Ep; [|simplify_eq; by exists r].
    destruct (decide (r_parent r0 = NO_REGION)) as [Hroot|Hset].
    2:{ rewrite bool_decide_eq_true_2 in H by done. simplify_eq. by exists r. }
    destruct (add_subregion_lookup ds id0 parentid r0 rp id E0 Ep Hroot)
      as (ds1 & H1 & _ & _ & Hlook).
    unfold add_subregion_to_region in H1. rewrite E0, Ep in H1.
    rewrite H in H1. simplify_eq. rewrite Hlook, Hr. simpl.
    eexists. split; [reflexivity|].
    repeat case_bool_decide; simplify_eq; simpl; split_and!; try done.
Qed.

Lemma run_region_kept_record place ops : ∀ ds ds' id r,
  ClearAll ∉ ops -> run place ops ds = Ok ds' -> regions ds !! id = Some r ->
  ∃ r', regions ds' !! id = Some r' ∧ r_id r' = r_id r ∧ r_name r' = r_name r ∧
        r_coordinates r' = r_coordinates r ∧
        (r_parent r ≠ NO_REGION -> r_parent r' = r_parent r).
Proof.
  induction ops as [|o ops IH]; intros ds ds' id r Hno H Hr; simpl in H.
  - simplify_eq. by exists r.
  - apply bind_Ok in H as (ds1 & H1 & H).
    apply not_elem_of_cons in Hno as [Ho Hno].
    destruct (exec_region_kept_record place o ds ds1 id r) as (r1 & Hr1 & Hi1 & Hn1 & Hc1 & Hp1);
      [done..|].
    destruct (IH ds1 ds' id r1 Hno H Hr1) as (r' & Hr' & Hi & Hn & Hc & Hp).
    exists r'. split_and!; try congruence.
    intros Hset. rewrite <- (Hp1 Hset). apply Hp. by rewrite (Hp1 Hset).
Qed.

(** X9. A region's parent link, once set, is not overwritten: when the region
    has a parent, [add_subregion_to_region] returns false for every parent
    and leaves the state as it was; and whatever operations other than
    [clear_all] follow, the region stays registered with the same parent,
    name and polygon. *)
Theorem region_parent_once place ds id r :
  regions ds !! id = Some r -> r_parent r ≠ NO_REGION ->
  (∀ parentid, add_subregion_to_region ds id parentid = (false, ds)) ∧
  (∀ ops ds', ClearAll ∉ ops -> run place ops ds = Ok ds' ->
     ∃ r', regions ds' !! id = Some r' ∧ r_parent r' = r_parent r ∧
           r_name r' = r_name r ∧ r_coordinates r' = r_coordinates r).
Proof.
  intros Hr Hp. split; [by eapply add_subregion_refused|].
  intros ops ds' Hno H.
  destruct (run_region_kept_record place ops ds ds' id r Hno H Hr)
    as (r' & Hr' & _ & Hn & Hc & Hpar).
  exists r'. split_and!; auto.
Qed.

Lemma region_parent_once_witness :
  add_subregion_to_region three_levels 3 1 = (false, three_levels).
Proof.
  refine (proj1 (region_parent_once default_place three_levels 3
                   (mkRegion 3 "City" [] 2 ∅) _ _) 1%N).
  - vm_compute. reflexivity.
  - vm_compute. discriminate.
Defined.

(** ** Parent links and child sets agree *)

Lemma hierarchy_wf_regions ds ds' :
  regions ds' = regions ds -> hierarchy_wf ds -> hierarchy_wf ds'.
Proof.
  intros Heq (H1 & H2 & H3). unfold hierarchy_wf, parent_of. rewrite Heq.
  split_and!; done.
Qed.

Lemma add_region_hierarchy_wf ds id name coords b ds' :
  add_region ds id name coords = (b, ds') -> hierarchy_wf ds -> hierarchy_wf ds'.
Proof.
  unfold add_region. intros H (H1 & H2 & H3).
  destruct (regions ds !! id) as [r0|] eqn:E; simplify_eq; [done|].
  unfold hierarchy_wf, parent_of. simpl. split_and!.
  - intros k r Hk. destruct (decide (id = k)) as [<-|Hne].
    + rewrite lookup_insert_eq in Hk. by simplify_eq.
    + rewrite lookup_insert_ne in Hk by done. eauto.
  - intros c p (r & Hc & Hp & Hset).
    destruct (decide (id = c)) as [<-|Hne].
    { rewrite lookup_insert_eq in Hc. by simplify_eq. }
    rewrite lookup_insert_ne in Hc by done.
    destruct (H2 c p) as (rp & Hrp & Hin); [by exists r|].
    exists rp. split; [|done]. rewrite lookup_insert_ne; [done|].
    intros <-. congruence.
  - intros p rp c Hp Hin.
    destruct (decide (id = p)) as [<-|Hne].
    { rewrite lookup_insert_eq in Hp. simplify_eq. simpl in Hin. set_solver. }
    rewrite lookup_insert_ne in Hp by done.
    destruct (H3 p rp c Hp Hin) as [[rc Hc] Hpar].
    assert (id ≠ c) by (intros <-; congruence).
    split; [rewrite lookup_insert_ne by done; eauto|].
    intros Hnp. destruct (Hpar Hnp) as (r & Hr & Hpr & _).
    exists r. rewrite lookup_insert_ne by done. done.
Qed.

Lemma add_subregion_hierarchy_wf ds id parentid b ds' :
  add_subregion_to_region ds id parentid = (b, ds') -> hierarchy_wf ds -> hierarchy_wf ds'.
Proof.
  intros H (H1 & H2 & H3).
  destruct (regions ds !! id) as [r0|] eqn:E0;
    [|unfold add_subregion_to_region in H; rewrite E0 in H; by simplify_eq].
  destruct (regions ds !! parentid) as [rp0|] eqn:Ep;
    [|unfold add_subregion_to_region in H; rewrite E0, Ep in H; by simplify_eq].
  destruct (decide (r_parent r0 = NO_REGION)) as [Hroot|Hset].
  2:{ rewrite (add_subregion_refused ds id r0 E0 Hset) in H. by simplify_eq. }
  assert (Hlook : ∀ k, regions ds' !! k =
      (fun x => (if bool_decide (k = id) then set_r_parent parentid else (fun y => y))
                  ((if bool_decide (k = parentid)
                    then set_r_subregions (r_subregions x ∪ {[id]}) else (fun y => y)) x))
      <$> regions ds !! k).
  { intros k. destruct (add_subregion_lookup ds id parentid r0 rp0 k E0 Ep Hroot)
      as (ds1 & Hadd & _ & _ & Hl). rewrite H in Hadd. by simplify_eq. }
  clear H. unfold hierarchy_wf, parent_of. split_and!.
  - intros k r Hk. rewrite Hlook in Hk.
    destruct (regions ds !! k) as [x|] eqn:Ex; [|done]. simpl in Hk. simplify_eq.
    rewrite <- (H1 k x Ex). by repeat case_bool_decide.
  - intros c p (r & Hc & Hp & Hset).
    destruct (decide (c = id)) as [->|Hne].
    + rewrite Hlook, E0 in Hc. simpl in Hc.
      rewrite (bool_decide_eq_true_2 (id = id)) in Hc by done.
      injection Hc as <-. simpl in Hp. subst p.
      rewrite Hlook, Ep. simpl. eexists. split; [reflexivity|].
      rewrite (bool_decide_eq_true_2 (parentid = parentid)) by done.
      destruct (bool_decide (parentid = id)); simpl; set_solver.
    + rewrite Hlook in Hc.
      destruct (regions ds !! c) as [x|] eqn:Ex; [|done]. simpl in Hc.
      rewrite (bool_decide_eq_false_2 (c = id)) in Hc by done.
      injection Hc as <-.
      assert (Hpx : p = r_parent x).
      { rewrite <- Hp. by destruct (bool_decide (c = parentid)). }
      destruct (H2 c p) as (rp & Hrp & Hin); [by exists x|].
      rewrite Hlook, Hrp. simpl. eexists. split; [reflexivity|].
      destruct (bool_decide (p = id)), (bool_decide (p = parentid)); simpl; set_solver.
  - intros p rp c Hp Hin. rewrite Hlook in Hp.
    destruct (regions ds !! p) as [x|] eqn:Ex; [|done]. simpl in Hp. simplify_eq.
    assert (Hin' : c ∈ r_subregions x ∨ (c = id ∧ p = parentid)).
    { repeat case_bool_decide; simpl in Hin; set_solver. }
    clear Hin. rewrite Hlook. destruct Hin' as [Hin|[-> ->]].
    + destruct (H3 p x c Ex Hin) as [[rc Hc] Hpar]. rewrite Hc. simpl.
      split; [eauto|]. intros Hnp. destruct (Hpar Hnp) as (r & Hr & Hpr & _).
      simplify_eq. eexists. split; [reflexivity|].
      assert (c ≠ id) by (intros ->; congruence).
      rewrite (bool_decide_eq_false_2 (c = id)) by done.
      split; [|done]. by case_bool_decide.
    + rewrite E0. simpl. split; [eauto|]. intros Hnp.
      eexists. split; [reflexivity|]. by rewrite bool_decide_eq_true_2.
Qed.

Lemma exec_hierarchy_wf place o ds ds' :
  exec place o ds = Ok ds' -> hierarchy_wf ds -> hierarchy_wf ds'.
Proof.
  intros H Hwf.
  destruct (keeps_regions o) eqn:Hk.
  { eapply hierarchy_wf_regions; [|done]. by eapply exec_keeps_regions. }
  destruct o; try discriminate Hk; exec_inv H.
  - eauto using add_region_hierarchy_wf.
  - eauto using add_subregion_hierarchy_wf.
  - simplify_eq. unfold hierarchy_wf, parent_of. simpl.
    split_and!; intros; repeat match goal with
      | H : ∅ !! _ = Some _ |- _ => by rewrite lookup_empty in H
      | H : ∃ _, _ |- _ => destruct H as (? & ? & ?)
      end.
Qed.

Lemma run_hierarchy_wf place ops : ∀ ds ds',
  run place ops ds = Ok ds' -> hierarchy_wf ds -> hierarchy_wf ds'.
Proof.
  induction ops as [|o ops IH]; intros ds ds' H Hwf; simpl in H.
  - by simplify_eq.
  - apply bind_Ok in H as (ds1 & H1 & H). eauto using exec_hierarchy_wf.
Qed.

Lemma init_hierarchy_wf : hierarchy_wf Datastructures_init.
Proof.
  unfold hierarchy_wf, parent_of. simpl.
  split_and!; intros; repeat match goal with
    | H : ∅ !! _ = Some _ |- _ => by rewrite lookup_empty in H
    | H : ∃ _, _ |- _ => destruct H as (? & ? & ?)
    end.
Qed.

(** X10. In every state the object can reach, the region records agree with
    one another: each is stored under its own identifier; a parent link that
    is set names a registered region whose child set holds the child; and
    every member of a child set is registered and, unless the set belongs to
    the region whose identifier is NO_REGION, has that region as its
    parent. *)
Theorem reachable_hierarchy_wf place ds : reachable place ds -> hierarchy_wf ds.
Proof.
  intros [ops H]. eapply run_hierarchy_wf; [exact H|]. apply init_hierarchy_wf.
Qed.

Lemma reachable_hierarchy_wf_witness : hierarchy_wf three_levels.
Proof.
  apply (reachable_hierarchy_wf default_place).
  exists three_levels_ops. vm_compute. reflexivity.
Defined.

(** ** The regions of a station *)

Lemma regions_walk_chain ds :
  (∀ k r, regions ds !! k = Some r -> r_id r = k) ->
  ∀ fuel k acc l,
    regions_walk fuel ds (regions ds !! k) acc = Ok l <->
    ∃ l', l = acc ++ l' ∧ chain_from ds k l' ∧ (length l' < fuel)%nat.
Proof.
  intros Hid. induction fuel as [|fuel IH]; intros k acc l; simpl.
  - split; [done|]. intros (? & _ & _ & ?). lia.
  - destruct (regions ds !! k) as [r|] eqn:E.
    + rewrite IH, (Hid _ _ E). split.
      * intros (l' & -> & Hc & Hlen). exists (k :: l'). rewrite <- app_assoc.
        split_and!; [done| |simpl; lia]. simpl. split; [done|]. eauto.
      * intros (l' & -> & Hc & Hlen). destruct l' as [|a l']; simpl in Hc; [congruence|].
        destruct Hc as (-> & r' & Hr' & Hc). simplify_eq. exists l'.
        rewrite <- app_assoc. split_and!; [done|done|simpl in Hlen; lia].
    + split.
      * intros [= <-]. exists []. rewrite app_nil_r. simpl. split_and!; [done|done|lia].
      * intros (l' & -> & Hc & _). destruct l'; simpl in Hc; [by rewrite app_nil_r|].
        destruct Hc as (_ & r & Hr & _). congruence.
Qed.

(** A walk that starts inside a set of registered regions which the parent
    link never leaves uses up any amount of fuel. *)
Lemma regions_walk_trapped ds (P : N -> Prop) :
  (∀ k, P k -> ∃ r, regions ds !! k = Some r ∧ P (r_parent r)) ->
  ∀ fuel k acc, P k -> regions_walk fuel ds (regions ds !! k) acc = Fail OutOfFuel.
Proof.
  intros HP. induction fuel as [|fuel IH]; intros k acc Hk; simpl; [done|].
  destruct (HP k Hk) as (r & -> & Hr). eauto.
Qed.

Lemma station_in_regions_walk fuel ds id p s :
  stations_find ds id = Some p -> nodes ds !! p = Some s -> s_region s ≠ NO_REGION ->
  station_in_regions fuel ds id = regions_walk fuel ds (regions ds !! s_region s) [].
Proof.
  intros Hp Hs Hr. unfold station_in_regions. rewrite Hp.
  apply deref_Some in Hs. rewrite Hs. simpl.
  by rewrite bool_decide_eq_false_2.
Qed.

(** X11. [station_in_regions] returns the one-element list NO_REGION for an
    unknown station and the empty list for a station without a region.  For
    a station with a region it returns, when the fuel exceeds the length of
    the answer, exactly the chain of regions that starts at the station's
    region and follows the parent links up to the first link that names no
    registered region; and it returns nothing else. *)
Theorem station_in_regions_chain ds id :
  hierarchy_wf ds ->
  (stations_find ds id = None -> ∀ fuel, station_in_regions fuel ds id = Ok [NO_REGION]) ∧
  (∀ p s, stations_find ds id = Some p -> nodes ds !! p = Some s ->
     (s_region s = NO_REGION -> ∀ fuel, station_in_regions fuel ds id = Ok []) ∧
     (s_region s ≠ NO_REGION -> ∀ fuel l,
        station_in_regions fuel ds id = Ok l <->
        chain_from ds (s_region s) l ∧ (length l < fuel)%nat)).
Proof.
  intros (Hid & _ & _). split.
  - intros Hnone fuel. unfold station_in_regions. by rewrite Hnone.
  - intros p s Hp Hs. split.
    + intros Hr fuel. unfold station_in_regions. rewrite Hp.
      apply deref_Some in Hs. rewrite Hs. simpl. by rewrite bool_decide_eq_true_2.
    + intros Hr fuel l. rewrite (station_in_regions_walk fuel ds id p s) by done.
      rewrite (regions_walk_chain ds Hid). split.
      * by intros (l' & -> & Hc & Hlen).
      * intros [Hc Hlen]. by exists l.
Qed.

Lemma station_in_regions_chain_witness :
  station_in_regions 4 regional_network "S1" = Ok [3; 2; 1]%N.
Proof.
  assert (Hwf : hierarchy_wf regional_network).
  { eapply (run_hierarchy_wf default_place regional_ops); [|apply init_hierarchy_wf].
    vm_compute. reflexivity. }
  destruct (station_in_regions_chain regional_network "S1" Hwf) as [_ H].
  destruct (stations_find regional_network "S1") as [p|] eqn:Ep;
    [|vm_compute in Ep; discriminate].
  vm_compute in Ep. simplify_eq.
  destruct (nodes regional_network !! 0%nat) as [s|] eqn:Es;
    [|vm_compute in Es; discriminate].
  destruct (H 0%nat s eq_refl Es) as [_ H'].
  vm_compute in Es. simplify_eq.
  apply H'; [vm_compute; discriminate|].
  split; [|simpl; lia]. vm_compute. eauto 10.
Defined.

(** ** Parent links that never end *)

Lemma add_subregion_parent ds id parentid r rp :
  regions ds !! id = Some r -> regions ds !! parentid = Some rp ->
  r_parent r = NO_REGION ->
  ∃ ds', add_subregion_to_region ds id parentid = (true, ds') ∧
    nodes ds' = nodes ds ∧ stations ds' = stations ds ∧
    ∀ k, r_parent <$> regions ds' !! k =
         if bool_decide (k = id) then Some parentid else r_parent <$> regions ds !! k.
Proof.
  intros Hr Hrp Hroot.
  destruct (add_subregion_lookup ds id parentid r rp id Hr Hrp Hroot)
    as (ds' & Hcall & Hn & Hs & _).
  exists ds'. split_and!; [done..|]. intros k.
  destruct (add_subregion_lookup ds id parentid r rp k Hr Hrp Hroot)
    as (ds'' & Hcall' & _ & _ & Hk).
  rewrite Hcall in Hcall'. simplify_eq. rewrite Hk.
  destruct (regions ds !! k) as [x|] eqn:Ex; simpl.
  - case_bool_decide; [done|]. by destruct (bool_decide (k = parentid)).
  - case_bool_decide; [|done]. subst. congruence.
Qed.

Lemma parent_lookup ds k (p : N) :
  r_parent <$> regions ds !! k = Some p -> ∃ r, regions ds !! k = Some r ∧ r_parent r = p.
Proof. destruct (regions ds !! k) as [r|]; [|done]. intros [= <-]. eauto. Qed.

(** X12. [add_subregion_to_region] does not look for cycles.  A registered
    region without a parent can be made its own subregion, and two such
    regions can be made subregions of each other: the calls return true.
    Afterwards [station_in_regions] uses up any amount of fuel for every
    station whose region lies on the cycle. *)
Theorem parent_cycle_accepted ds a b ra rb :
  regions ds !! a = Some ra -> regions ds !! b = Some rb ->
  r_parent ra = NO_REGION -> r_parent rb = NO_REGION ->
  a ≠ NO_REGION -> b ≠ NO_REGION ->
  ∃ ds1, add_subregion_to_region ds a b = (true, ds1) ∧
    (a = b ->
       ∀ id p s, stations_find ds1 id = Some p -> nodes ds1 !! p = Some s ->
         s_region s = a ->
         ∀ fuel, station_in_regions fuel ds1 id = Fail OutOfFuel) ∧
    (a ≠ b ->
       ∃ ds2, add_subregion_to_region ds1 b a = (true, ds2) ∧
         ∀ id p s, stations_find ds2 id = Some p -> nodes ds2 !! p = Some s ->
           s_region s = a ∨ s_region s = b ->
           ∀ fuel, station_in_regions fuel ds2 id = Fail OutOfFuel).
Proof.
  intros Ha Hb Hra Hrb Hna Hnb.
  destruct (add_subregion_parent ds a b ra rb Ha Hb Hra) as (ds1 & Hc1 & _ & _ & H1).
  exists ds1. split_and!; [done| |].
  - intros <- id p s Hp Hs Hreg fuel.
    rewrite (station_in_regions_walk fuel ds1 id p s) by congruence.
    rewrite Hreg. apply (regions_walk_trapped ds1 (fun k => k = a)); [|done].
    intros k ->. pose proof (H1 a) as Hk.
    rewrite bool_decide_eq_true_2 in Hk by done.
    apply parent_lookup in Hk as (r & Hr & Hpar). eauto.
  - intros Hne.
    pose proof (H1 a) as Ha1. rewrite bool_decide_eq_true_2 in Ha1 by done.
    apply parent_lookup in Ha1 as (ra1 & Ha1 & Hpa1).
    pose proof (H1 b) as Hb1. rewrite bool_decide_eq_false_2, Hb in Hb1 by done.
    apply parent_lookup in Hb1 as (rb1 & Hb1 & Hpb1). simpl in Hpb1.
    destruct (add_subregion_parent ds1 b a rb1 ra1 Hb1 Ha1) as (ds2 & Hc2 & _ & _ & H2);
      [congruence|].
    exists ds2. split; [done|].
    intros id p s Hp Hs Hreg fuel.
    rewrite (station_in_regions_walk fuel ds2 id p s) by (destruct Hreg; congruence).
    apply (regions_walk_trapped ds2 (fun k => k = a ∨ k = b)); [|done].
    intros k [->| ->].
    + pose proof (H2 a) as Hk. rewrite bool_decide_eq_false_2, Ha1 in Hk by done.
      apply parent_lookup in Hk as (r & Hr & Hpar). simpl in Hpar.
      exists r. split; [done|]. right. congruence.
    + pose proof (H2 b) as Hk. rewrite bool_decide_eq_true_2 in Hk by done.
      apply parent_lookup in Hk as (r & Hr & Hpar).
      exists r. split; [done|]. by left.
Qed.

Lemma parent_cycle_accepted_witness :
  ∃ ds1,
    add_subregion_to_region
      (the_state (setup (regional_ops ++ [AddStationToRegion "S2" 1%N]))) 1 1 = (true, ds1) ∧
    ∀ fuel, station_in_regions fuel ds1 "S2" = Fail OutOfFuel.
Proof.
  set (W := the_state (setup (regional_ops ++ [AddStationToRegion "S2" 1%N]))).
  destruct (regions W !! 1%N) as [ra|] eqn:Ea; [|vm_compute in Ea; discriminate].
  assert (Hpar : r_parent ra = NO_REGION).
  { vm_compute in Ea. by simplify_eq. }
  destruct (parent_cycle_accepted W 1 1 ra ra Ea Ea Hpar Hpar)
    as (ds1 & Hc & Hself & _); [discriminate..|].
  exists ds1. split; [done|].
  vm_compute in Hc. simplify_eq.
  eapply (Hself eq_refl "S2"%string 1%nat); vm_compute; reflexivity.
Defined.

(** X13. [add_region] accepts the identifier NO_REGION, which the parent
    field uses for "no parent".  In a state the object can reach where such
    a region is registered, the walk of [station_in_regions] passes from
    every root to that region and from that region to itself:
    [station_in_regions] uses up any amount of fuel for every station whose
    region is set and registered. *)
Theorem sentinel_region_traps ds id p s :
  hierarchy_wf ds -> is_Some (regions ds !! NO_REGION) ->
  stations_find ds id = Some p -> nodes ds !! p = Some s ->
  s_region s ≠ NO_REGION -> is_Some (regions ds !! s_region s) ->
  ∀ fuel, station_in_regions fuel ds id = Fail OutOfFuel.
Proof.
  intros (_ & Hup & _) Hno Hp Hs Hreg Hsome fuel.
  rewrite (station_in_regions_walk fuel ds id p s) by done.
  apply (regions_walk_trapped ds (fun k => is_Some (regions ds !! k))); [|done].
  intros k [r Hr]. exists r. split; [done|].
  destruct (decide (r_parent r = NO_REGION)) as [->|Hne]; [done|].
  destruct (Hup k (r_parent r)) as (rp & Hrp & _); [by exists r|]. eauto.
Qed.

Lemma sentinel_region_traps_witness :
  station_in_regions 1000
    (the_state (setup (regional_ops ++ [AddRegion NO_REGION "Nowhere" []]))) "S1"
  = Fail OutOfFuel.
Proof.
  set (W := the_state (setup (regional_ops ++ [AddRegion NO_REGION "Nowhere" []]))).
  assert (Hwf : hierarchy_wf W).
  { eapply (run_hierarchy_wf default_place
              (regional_ops ++ [AddRegion NO_REGION "Nowhere" []]));
      [|apply init_hierarchy_wf].
    vm_compute. reflexivity. }
  refine (sentinel_region_traps W "S1" 0%nat _ Hwf _ _ _ _ _ 1000%nat).
  - vm_compute. eauto.
  - vm_compute. reflexivity.
  - vm_compute. reflexivity.
  - vm_compute. discriminate.
  - vm_compute. eauto.
Defined.

(** ** The nearest common parent *)

Lemma ancestors_registered ds k l : ancestors ds k l -> is_Some (regions ds !! k).
Proof. destruct l; intros (r & Hr & _); eauto. Qed.

Lemma find_first_of_spec l1 l2 :
  match find_first_of l1 l2 with
  | Some a => ∃ pre post, l1 = pre ++ a :: post ∧ a ∈ l2 ∧ ∀ x, x ∈ pre -> x ∉ l2
  | None => ∀ x, x ∈ l1 -> x ∉ l2
  end.
Proof.
  induction l1 as [|a l1 IH]; simpl.
  - intros x Hx. by inversion Hx.
  - case_bool_decide as Ha.
    + exists [], l1. split_and!; [done|done|]. intros x Hx. by inversion Hx.
    + destruct (find_first_of l1 l2) as [c|].
      * destruct IH as (pre & post & -> & Hc & Hpre). exists (a :: pre), post.
        split_and!; [done|done|]. intros x [->|Hx]%elem_of_cons; auto.
      * intros x [->|Hx]%elem_of_cons; auto.
Qed.

(** With enough fuel the loop of [common_parent_of_regions] collects both
    chains of parents in full. *)
Lemma parents_loop_collects ds : ∀ fuel k1 k2 l1 l2 acc1 acc2,
  ancestors ds k1 l1 -> ancestors ds k2 l2 ->
  (length l1 <= fuel)%nat -> (length l2 <= fuel)%nat -> (1 <= fuel)%nat ->
  parents_loop fuel ds (regions ds !! k1) (regions ds !! k2) acc1 acc2
  = Ok (acc1 ++ l1, acc2 ++ l2).
Proof.
  induction fuel as [|fuel IH]; intros k1 k2 l1 l2 acc1 acc2 H1 H2 Hl1 Hl2 Hf; [lia|].
  assert (Hstep : ∀ k l acc, ancestors ds k l -> (length l <= S fuel)%nat ->
    ∃ r k' l' acc', regions ds !! k = Some r ∧
      (if bool_decide (r_parent r ≠ NO_REGION)
       then (regions ds !! r_parent r, acc ++ [r_parent r])
       else (regions ds !! k, acc)) = (regions ds !! k', acc') ∧
      ancestors ds k' l' ∧ acc' ++ l' = acc ++ l ∧ (length l' <= fuel)%nat ∧
      (l' = [] ∨ (1 <= fuel)%nat) ∧
      (match regions ds !! k' with
       | None => true
       | Some r => bool_decide (r_parent r = NO_REGION)
       end = bool_decide (l' = []))).
  { intros k l acc Hk Hlen. destruct l as [|p rest].
    - destruct Hk as (r & Hr & Hpar). exists r, k, [], acc.
      rewrite bool_decide_eq_false_2 by (intros ?; congruence).
      split_and!; [done|done|by exists r|done|simpl; lia|by left|].
      rewrite Hr, Hpar. by rewrite !bool_decide_eq_true_2.
    - destruct Hk as (r & Hr & Hpar & Hne & Hrest). exists r, p, rest, (acc ++ [p]).
      rewrite bool_decide_eq_true_2 by congruence. rewrite Hpar.
      split_and!; [done|done|done|by rewrite <- app_assoc|simpl in Hlen; lia| |].
      + destruct rest; [by left|right; simpl in Hlen; lia].
      + destruct rest as [|q rest]; simpl in Hrest.
        * destruct Hrest as (rp & -> & Hq). by rewrite Hq, !bool_decide_eq_true_2.
        * destruct Hrest as (rp & -> & Hq & Hnq & _).
          rewrite bool_decide_eq_false_2 by congruence.
          by rewrite bool_decide_eq_false_2. }
  destruct (Hstep k1 l1 acc1 H1 Hl1) as (r1 & k1' & l1' & acc1' & Hr1 & E1 & Ha1 & Hacc1 & Hlen1 & Hf1 & Hroot1).
  destruct (Hstep k2 l2 acc2 H2 Hl2) as (r2 & k2' & l2' & acc2' & Hr2 & E2 & Ha2 & Hacc2 & Hlen2 & Hf2 & Hroot2).
  simpl. rewrite Hr1. simpl. rewrite <- Hr1, E1. rewrite Hr2. simpl.
  rewrite <- Hr2, E2. rewrite Hroot1, Hroot2.
  destruct l1' as [|x1 l1'], l2' as [|x2 l2'];
    rewrite ?bool_decide_eq_true_2, ?(bool_decide_eq_false_2 (_ :: _ = [])) by done; simpl.
  - rewrite <- Hacc1, <- Hacc2, !app_nil_r. done.
  - rewrite <- Hacc1, <- Hacc2. apply IH; try done. destruct Hf2; [done|lia].
  - rewrite <- Hacc1, <- Hacc2. apply IH; try done. destruct Hf1; [done|lia].
  - rewrite <- Hacc1, <- Hacc2. apply IH; try done. destruct Hf1; [done|lia].
Qed.

(** X14. [common_parent_of_regions] returns NO_REGION when one of the
    regions is not registered.  When both are registered and their chains
    of parents end, the call returns as soon as the fuel reaches the length
    of the longer chain, and the result is the nearest parent of the first
    region that is also among the parents of the second region: the first
    entry of the first chain that occurs in the second chain, or NO_REGION
    when the chains share no entry.  The regions themselves are not part of
    their chains. *)
Theorem common_parent_nearest ds id1 id2 fuel :
  (regions ds !! id1 = None ∨ regions ds !! id2 = None ->
   common_parent_of_regions fuel ds id1 id2 = Ok NO_REGION) ∧
  (∀ l1 l2, ancestors ds id1 l1 -> ancestors ds id2 l2 ->
     (length l1 <= fuel)%nat -> (length l2 <= fuel)%nat ->
     ∃ a, common_parent_of_regions fuel ds id1 id2 = Ok a ∧
       ((a = NO_REGION ∧ ∀ x, x ∈ l1 -> x ∉ l2) ∨
        (a ≠ NO_REGION ∧
         ∃ pre post, l1 = pre ++ a :: post ∧ a ∈ l2 ∧ ∀ x, x ∈ pre -> x ∉ l2))).
Proof.
  split.
  - unfold common_parent_of_regions. intros [-> | H]; [done|].
    rewrite H. by destruct (regions ds !! id1).
  - intros l1 l2 H1 H2 Hl1 Hl2.
    assert (Hno : ∀ k l x, ancestors ds k l -> x ∈ l -> x ≠ NO_REGION).
    { intros k l x. revert k. induction l as [|p rest IH]; intros k Hk Hx.
      - by inversion Hx.
      - destruct Hk as (r & _ & _ & Hp & Hrest).
        apply elem_of_cons in Hx as [->|Hx]; eauto. }
    pose proof (parents_loop_collects ds fuel id1 id2 l1 l2 [] [] H1 H2 Hl1 Hl2) as Hloop.
    unfold common_parent_of_regions.
    destruct (regions ds !! id1) as [r1|] eqn:E1;
      [|by apply ancestors_registered in H1; rewrite E1 in H1; destruct H1].
    destruct (regions ds !! id2) as [r2|] eqn:E2;
      [|by apply ancestors_registered in H2; rewrite E2 in H2; destruct H2].
    case_bool_decide as Heq.
    + eexists. split; [reflexivity|].
      destruct l1 as [|p1 rest1]; simpl in H1; rewrite E1 in H1.
      * destruct H1 as (? & [= <-] & Hp1). left. split; [done|].
        intros x Hx. by inversion Hx.
      * destruct H1 as (? & [= <-] & Hp1 & Hn1 & _). right. split; [congruence|].
        exists [], rest1. split_and!; [by rewrite Hp1| |intros x Hx; by inversion Hx].
        destruct l2 as [|p2 rest2]; simpl in H2; rewrite E2 in H2.
        -- destruct H2 as (? & [= <-] & Hp2). congruence.
        -- destruct H2 as (? & [= <-] & Hp2 & _).
           replace p2 with p1 by congruence. set_solver.
    + rewrite Hloop; cycle 1.
      { destruct l1 as [|p1 rest1]; [|simpl in Hl1; lia].
        destruct l2 as [|p2 rest2]; [|simpl in Hl2; lia].
        simpl in H1, H2. rewrite E1 in H1. rewrite E2 in H2.
        destruct H1 as (? & [= <-] & Hp1). destruct H2 as (? & [= <-] & Hp2).
        congruence. }
      simpl.
      pose proof (find_first_of_spec l1 l2) as Hspec.
      destruct l1 as [|p1 rest1].
      { eexists. split; [reflexivity|]. left. split; [done|].
        intros x Hx. by inversion Hx. }
      destruct l2 as [|p2 rest2].
      { eexists. split; [reflexivity|]. left. split; [done|].
        intros x _ Hx. by inversion Hx. }
      destruct (find_first_of (p1 :: rest1) (p2 :: rest2)) as [a|].
      * eexists. split; [reflexivity|]. right.
        destruct Hspec as (pre & post & Hl & Ha & Hpre). split; [|eauto].
        eapply (Hno id1 _ a H1). rewrite Hl. set_solver.
      * eexists. split; [reflexivity|]. by left.
Qed.

Lemma common_parent_nearest_witness :
  ∃ a, common_parent_of_regions 2 three_levels 3 2 = Ok a ∧
    ((a = NO_REGION ∧ ∀ x, x ∈ [2; 1]%N -> x ∉ [1%N]) ∨
     (a ≠ NO_REGION ∧
      ∃ pre post, [2; 1]%N = pre ++ a :: post ∧ a ∈ [1%N] ∧ ∀ x, x ∈ pre -> x ∉ [1%N])).
Proof.
  apply (proj2 (common_parent_nearest three_levels 3 2 2) [2; 1]%N [1%N]).
  - vm_compute. repeat first [reflexivity | discriminate | eexists | split].
  - vm_compute. repeat first [reflexivity | discriminate | eexists | split].
  - simpl. lia.
  - simpl. lia.
Defined.

Section Climb.
Variable ds : Datastructures.
Hypothesis Hwf : hierarchy_wf ds.

(** What the loop of [common_parent_of_regions] keeps true of one iterator
    and its list: the iterator rests on a registered region that is [id] or
    above it, and every entry of the list is a parent above [id]. *)
Let climbing (id : N) (it : option Region) (acc : list N) : Prop :=
  (∃ r, it = Some r ∧ regions ds !! r_id r = Some r ∧ rtc (plink ds) id (r_id r)) ∧
  Forall (fun x => tc (plink ds) id x ∧ is_Some (regions ds !! x)) acc.

Lemma climbing_step id r acc :
  climbing id (Some r) acc -> r_parent r ≠ NO_REGION ->
  climbing id (regions ds !! r_parent r) (acc ++ [r_parent r]).
Proof.
  destruct Hwf as (Hid & Hup & _).
  intros [(r' & [= <-] & Hr & Hreach) Hacc] Hne.
  destruct (Hup (r_id r) (r_parent r)) as (rp & Hrp & _); [by exists r|].
  assert (Hlink : plink ds (r_id r) (r_parent r)) by by exists r.
  split.
  - exists rp. rewrite (Hid _ _ Hrp). split_and!; [done|done|]. by eapply rtc_r.
  - apply Forall_app. split; [done|]. apply Forall_cons. split; [|by constructor].
    split; [|by eauto]. eapply tc_rtc_l; [exact Hreach|by apply tc_once].
Qed.

Lemma climbing_round id r acc :
  climbing id (Some r) acc ->
  climbing id
    (if bool_decide (r_parent r ≠ NO_REGION)
     then (regions ds !! r_parent r, acc ++ [r_parent r]) else (Some r, acc)).1
    (if bool_decide (r_parent r ≠ NO_REGION)
     then (regions ds !! r_parent r, acc ++ [r_parent r]) else (Some r, acc)).2.
Proof. intros H. case_bool_decide; [by apply climbing_step|done]. Qed.

Lemma parents_loop_sound id1 id2 : ∀ fuel it1 it2 acc1 acc2,
  climbing id1 it1 acc1 -> climbing id2 it2 acc2 ->
  ¬ faulty (parents_loop fuel ds it1 it2 acc1 acc2) ∧
  ∀ l1 l2, parents_loop fuel ds it1 it2 acc1 acc2 = Ok (l1, l2) ->
    Forall (fun x => tc (plink ds) id1 x ∧ is_Some (regions ds !! x)) l1 ∧
    Forall (fun x => tc (plink ds) id2 x ∧ is_Some (regions ds !! x)) l2.
Proof.
  induction fuel as [|fuel IH]; intros it1 it2 acc1 acc2 H1 H2.
  { split; [by intros [?|?]|done]. }
  pose proof H1 as [(r1 & -> & _) Hacc1]. pose proof H2 as [(r2 & -> & _) Hacc2].
  simpl.
  pose proof (climbing_round id1 r1 acc1 H1) as H1'.
  pose proof (climbing_round id2 r2 acc2 H2) as H2'.
  destruct (if bool_decide (r_parent r1 ≠ NO_REGION)
            then (regions ds !! r_parent r1, acc1 ++ [r_parent r1])
            else (Some r1, acc1)) as [it1' l1'].
  destruct (if bool_decide (r_parent r2 ≠ NO_REGION)
            then (regions ds !! r_parent r2, acc2 ++ [r_parent r2])
            else (Some r2, acc2)) as [it2' l2'].
  simpl in H1', H2'.
  match goal with |- context [if ?b then _ else _] => destruct b end.
  - split; [by intros [?|?]|]. intros l1 l2 [= <- <-]. split; [apply H1'|apply H2'].
  - by apply IH.
Qed.

End Climb.

(** X15. In every state the object can reach, [common_parent_of_regions]
    never dereferences the end iterator of the region map: it returns, or
    the fuel runs out.  A result other than NO_REGION is a registered region
    that lies above both regions: it is reached from each of them by one or
    more parent links. *)
Theorem common_parent_sound ds fuel id1 id2 :
  hierarchy_wf ds ->
  ¬ faulty (common_parent_of_regions fuel ds id1 id2) ∧
  ∀ a, common_parent_of_regions fuel ds id1 id2 = Ok a -> a ≠ NO_REGION ->
    is_Some (regions ds !! a) ∧ tc (plink ds) id1 a ∧ tc (plink ds) id2 a.
Proof.
  intros Hwf. pose proof Hwf as (Hid & Hup & _).
  unfold common_parent_of_regions.
  destruct (regions ds !! id1) as [r1|] eqn:E1;
    [|split; [by intros [?|?]|by intros a [= <-]]].
  destruct (regions ds !! id2) as [r2|] eqn:E2;
    [|split; [by intros [?|?]|by intros a [= <-]]].
  case_bool_decide as Heq.
  - split; [by intros [?|?]|]. intros a [= <-] Hne.
    destruct (Hup id1 (r_parent r1)) as (rp & Hrp & _); [by exists r1|].
    split_and!; [by eauto|apply tc_once; by exists r1|apply tc_once; by exists r2].
  - destruct (parents_loop_sound ds Hwf id1 id2 fuel (Some r1) (Some r2) [] [])
      as [Hnf Hok].
    { split; [|constructor]. exists r1. by rewrite (Hid _ _ E1). }
    { split; [|constructor]. exists r2. by rewrite (Hid _ _ E2). }
    destruct (parents_loop fuel ds (Some r1) (Some r2) [] []) as [[l1 l2]|e] eqn:El;
      simpl.
    + destruct (Hok l1 l2 eq_refl) as [Hl1 Hl2].
      pose proof (find_first_of_spec l1 l2) as Hspec.
      split.
      * destruct l1, l2; try (by intros [?|?]).
        by destruct (find_first_of _ _); intros [?|?].
      * intros a Ha Hne.
        destruct l1 as [|x1 l1]; [by simplify_eq|].
        destruct l2 as [|x2 l2]; [by simplify_eq|].
        destruct (find_first_of (x1 :: l1) (x2 :: l2)) as [c|]; [|by simplify_eq].
        simplify_eq. destruct Hspec as (pre & post & Hl & Ha & _).
        rewrite Forall_forall in Hl1, Hl2.
        destruct (Hl1 a) as [? ?]; [rewrite Hl; set_solver|].
        destruct (Hl2 a Ha) as [? ?]. done.
    + split; [|done]. intros [Hf|Hf]; apply Hnf; simplify_eq; [by left|by right].
Qed.

Lemma common_parent_sound_witness :
  ¬ faulty (common_parent_of_regions 5 regional_network 3 2) ∧
  ∀ a, common_parent_of_regions 5 regional_network 3 2 = Ok a -> a ≠ NO_REGION ->
    is_Some (regions regional_network !! a) ∧
    tc (plink regional_network) 3%N a ∧ tc (plink regional_network) 2%N a.
Proof.
  apply (common_parent_sound regional_network 5 3 2).
  eapply (run_hierarchy_wf default_place regional_ops); [|apply init_hierarchy_wf].
  vm_compute. reflexivity.
Defined.

(** ** The stops of a train after a station *)

Lemma stops_after_found stationid (l : list (string * Z)) : ∀ acc,
  stops_after stationid l true acc = (true, acc ++ l.*1).
Proof.
  induction l as [|[sid t] rest IH]; intros acc; simpl.
  - by rewrite app_nil_r.
  - replace (if bool_decide (sid = stationid) then true else true) with true
      by (by destruct (bool_decide (sid = stationid))).
    by rewrite IH, <- app_assoc.
Qed.

Lemma stops_after_absent stationid (l : list (string * Z)) : ∀ acc,
  stationid ∉ l.*1 -> stops_after stationid l false acc = (false, acc).
Proof.
  induction l as [|[sid t] rest IH]; intros acc Hnot; simpl; [done|].
  simpl in Hnot. rewrite bool_decide_eq_false_2 by set_solver.
  apply IH. set_solver.
Qed.

Lemma stops_after_first stationid (pre : list (string * Z)) t post : ∀ acc,
  stationid ∉ pre.*1 ->
  stops_after stationid (pre ++ (stationid, t) :: post) false acc = (true, acc ++ post.*1).
Proof.
  induction pre as [|[sid t'] pre IH]; intros acc Hnot; simpl.
  - rewrite bool_decide_eq_true_2 by done. apply stops_after_found.
  - simpl in Hnot. rewrite bool_decide_eq_false_2 by set_solver.
    apply IH. set_solver.
Qed.

(** X16. [train_stations_from] returns the one-element list NO_STATION when
    the station or the train is unknown, when no departure of the train is
    registered at the station, and when the station is not among the stops
    of the train.  Otherwise it returns the stops that follow the first
    occurrence of the station in the stop list of the train, in order; a
    later occurrence of the station is part of the answer. *)
Theorem train_stations_from_stops ds stationid trainid :
  (stations_find ds stationid = None ∨ trains ds !! trainid = None ->
   train_stations_from ds stationid trainid = Ok [NO_STATION]) ∧
  (∀ p s tr, stations_find ds stationid = Some p -> nodes ds !! p = Some s ->
     trains ds !! trainid = Some tr ->
     ((∀ t, ¬ departs s t trainid) ->
      train_stations_from ds stationid trainid = Ok [NO_STATION]) ∧
     (∀ t0, departs s t0 trainid ->
        (stationid ∉ (t_stationtimes tr).*1 ->
         train_stations_from ds stationid trainid = Ok [NO_STATION]) ∧
        (∀ pre t post, t_stationtimes tr = pre ++ (stationid, t) :: post ->
           stationid ∉ pre.*1 ->
           train_stations_from ds stationid trainid = Ok post.*1))).
Proof.
  split.
  - unfold train_stations_from. intros [-> | H]; [done|].
    rewrite H. by destruct (stations_find ds stationid).
  - intros p s tr Hp Hs Htr. unfold train_stations_from, stations_at.
    rewrite Hp, Htr. unfold stations_find in Hp. rewrite Hp. simpl.
    apply deref_Some in Hs. rewrite Hs. simpl. split.
    + intros Hno. rewrite bool_decide_eq_false_2; [done|].
      intros (t & trs & Ht & Hin). apply (Hno t). by exists trs.
    + intros t0 (trs & Ht0 & Hin).
      rewrite bool_decide_eq_true_2 by (by exists t0, trs). split.
      * intros Hnot. by rewrite stops_after_absent.
      * intros pre t post -> Hnot. by rewrite stops_after_first.
Qed.

Lemma train_stations_from_stops_witness :
  train_stations_from line_network "S1" "T1" = Ok ["S2"; "S3"]%string.
Proof.
  destruct (train_stations_from_stops line_network "S1" "T1") as [_ H].
  destruct (nodes line_network !! 0%nat) as [s|] eqn:Es; [|vm_compute in Es; discriminate].
  destruct (trains line_network !! "T1"%string) as [tr|] eqn:Et;
    [|vm_compute in Et; discriminate].
  destruct (H 0%nat s tr) as [_ H']; [vm_compute; reflexivity|done|done|].
  vm_compute in Es. vm_compute in Et. simplify_eq.
  destruct (H' 100) as [_ H'']; [vm_compute; eauto|].
  apply (H'' [] 100 [("S2", 110); ("S3", 130)]%string); [reflexivity|].
  intros Hx. inversion Hx.
Defined.

(** ** Distances *)


(** * The searches read the station map only *)

Section Books.

(** [T] changes the state outside the station map. *)
Variable T : Datastructures -> Datastructures.
Hypothesis T_nodes : ∀ ds, nodes (T ds) = nodes ds.
Hypothesis T_stations : ∀ ds, stations (T ds) = stations ds.
Hypothesis T_with_nodes : ∀ nd ds, T (with_nodes nd ds) = with_nodes nd (T ds).

Lemma deref_books ds p : deref (T ds) p = deref ds p.
Proof. unfold deref. by rewrite T_nodes. Qed.

Lemma stations_find_books ds id : stations_find (T ds) id = stations_find ds id.
Proof. unfold stations_find. by rewrite T_stations. Qed.

Lemma stations_at_books ds id : stations_at (T ds) id = stations_at ds id.
Proof. unfold stations_at. by rewrite T_stations. Qed.

Lemma modify_books ds p f : modify (T ds) p f = T <$> modify ds p f.
Proof.
  unfold modify. rewrite deref_books. destruct (deref ds p) as [s|]; [|done].
  simpl. by rewrite T_nodes, T_with_nodes.
Qed.

Lemma wipe_books R ds : wipe R (T ds) = T (wipe R ds).
Proof. unfold wipe. by rewrite T_nodes, T_with_nodes. Qed.

Ltac books_step :=
  repeat first
    [ rewrite deref_books
    | rewrite modify_books
    | rewrite stations_at_books
    | rewrite stations_find_books ].

Ltac books_call m :=
  lazymatch m with
  | mbind _ _ => fail
  | fmap _ _ => fail
  | context [T _] => fail
  | _ => let h := head_of m in is_const h
  end.

Ltac books_solve rw IH :=
  repeat (simpl; simplify_eq; first
    [ done
    | apply IH
    | progress books_step
    | progress rw
    | match goal with
      | |- context [_ <$> ?m] => books_call m; destruct m as [?|?] eqn:?
      | |- context [?m ≫= _] => books_call m; destruct m as [?|?] eqn:?
      | |- context [match ?x with _ => _ end] =>
          lazymatch x with
          | context [T _] => fail
          | _ => destruct x eqn:?
          end
      end ]).

Lemma scan_any_books toid edges : ∀ ds u Q,
  scan_any (T ds) u toid edges Q =
  (fun '(ds', Q', b) => (T ds', Q', b)) <$> scan_any ds u toid edges Q.
Proof.
  induction edges as [|[dep [arr v]] rest IH]; intros ds u Q; [done|].
  books_solve idtac IH.
Qed.

Lemma bfs_any_books toid fuel : ∀ ds Q found,
  bfs_any fuel (T ds) toid Q found = T <$> bfs_any fuel ds toid Q found.
Proof.
  induction fuel as [|fuel IH]; intros ds Q found; [done|].
  books_solve ltac:(rewrite scan_any_books) IH.
Qed.

Lemma walk_back_books fromid fuel : ∀ ds i result,
  walk_back fuel (T ds) fromid i result = walk_back fuel ds fromid i result.
Proof.
  induction fuel as [|fuel IH]; intros ds i result; [done|].
  books_solve idtac IH.
Qed.

Lemma route_any_books fuel ds fromid toid :
  route_any fuel (T ds) fromid toid =
  (fun '(l, ds') => (l, T ds')) <$> route_any fuel ds fromid toid.
Proof.
  unfold route_any, reset_any. rewrite !stations_find_books.
  destruct (stations_find ds fromid); [|done].
  destruct (stations_find ds toid); [|done].
  destruct (bool_decide (fromid = toid)); [done|].
  cbv zeta. change (with_nodes (?R <$> nodes ?d) ?d) with (wipe R d).
  rewrite wipe_books.
  match goal with
  | |- context [T (wipe ?R ds)] => generalize (wipe R ds); intros ds0
  end.
  books_solve ltac:(first [rewrite bfs_any_books | rewrite walk_back_books]) I.
Qed.

Lemma scan_least_stations_books toid edges : ∀ ds u Q,
  scan_least_stations (T ds) u toid edges Q =
  (fun '(ds', Q', b) => (T ds', Q', b)) <$> scan_least_stations ds u toid edges Q.
Proof.
  induction edges as [|[dep [arr v]] rest IH]; intros ds u Q; [done|].
  books_solve idtac IH.
Qed.

Lemma bfs_least_stations_books toid fuel : ∀ ds Q found,
  bfs_least_stations fuel (T ds) toid Q found =
  T <$> bfs_least_stations fuel ds toid Q found.
Proof.
  induction fuel as [|fuel IH]; intros ds Q found; [done|].
  books_solve ltac:(rewrite scan_least_stations_books) IH.
Qed.

Lemma walk_back_least_stations_books fromid fuel : ∀ ds i result,
  walk_back_least_stations fuel (T ds) fromid i result =
  walk_back_least_stations fuel ds fromid i result.
Proof.
  induction fuel as [|fuel IH]; intros ds i result; [done|].
  books_solve idtac IH.
Qed.

Lemma route_least_stations_books fuel ds fromid toid :
  route_least_stations fuel (T ds) fromid toid =
  (fun '(l, ds') => (l, T ds')) <$> route_least_stations fuel ds fromid toid.
Proof.
  unfold route_least_stations, reset_least_stations. rewrite !stations_find_books.
  destruct (stations_find ds fromid); [|done].
  destruct (stations_find ds toid); [|done].
  destruct (bool_decide (fromid = toid)); [done|].
  cbv zeta. change (with_nodes (?R <$> nodes ?d) ?d) with (wipe R d).
  rewrite wipe_books.
  match goal with
  | |- context [T (wipe ?R ds)] => generalize (wipe R ds); intros ds0
  end.
  books_solve ltac:(first [rewrite bfs_least_stations_books
                          | rewrite walk_back_least_stations_books]) I.
Qed.

Lemma scan_cycle_books edges : ∀ ds u S,
  scan_cycle (T ds) u edges S =
  (fun '(ds', S', found) => (T ds', S', found)) <$> scan_cycle ds u edges S.
Proof.
  induction edges as [|[dep [arr v]] rest IH]; intros ds u S; [done|].
  books_solve idtac IH.
Qed.

Lemma dfs_cycle_books fuel : ∀ ds S,
  dfs_cycle fuel (T ds) S = (fun '(ds', found) => (T ds', found)) <$> dfs_cycle fuel ds S.
Proof.
  induction fuel as [|fuel IH]; intros ds S; [done|].
  books_solve ltac:(rewrite scan_cycle_books) IH.
Qed.

Lemma walk_back_cycle_books sid fuel : ∀ ds i result,
  walk_back_cycle fuel (T ds) sid i result = walk_back_cycle fuel ds sid i result.
Proof.
  induction fuel as [|fuel IH]; intros ds i result; [done|].
  books_solve idtac IH.
Qed.

Lemma route_with_cycle_books fuel ds fromid :
  route_with_cycle fuel (T ds) fromid =
  (fun '(l, ds') => (l, T ds')) <$> route_with_cycle fuel ds fromid.
Proof.
  unfold route_with_cycle, reset_cycle. rewrite !stations_find_books.
  destruct (stations_find ds fromid); [|done].
  cbv zeta. change (with_nodes (?R <$> nodes ?d) ?d) with (wipe R d).
  rewrite wipe_books.
  match goal with
  | |- context [T (wipe ?R ds)] => generalize (wipe R ds); intros ds0
  end.
  books_solve ltac:(first [rewrite dfs_cycle_books | rewrite walk_back_cycle_books]) I.
Qed.

Lemma relax_astar_books ds u v g :
  relax_astar (T ds) u v g = T <$> relax_astar ds u v g.
Proof. unfold relax_astar. books_solve idtac I. Qed.

Lemma scan_astar_books place edges : ∀ ds u g Q,
  scan_astar place (T ds) u g edges Q =
  (fun '(ds', Q') => (T ds', Q')) <$> scan_astar place ds u g edges Q.
Proof.
  induction edges as [|[dep [arr v]] rest IH]; intros ds u g Q; [done|].
  books_solve ltac:(rewrite relax_astar_books) IH.
Qed.

Lemma astar_loop_books place fuel : ∀ ds g Q,
  astar_loop place fuel (T ds) g Q = T <$> astar_loop place fuel ds g Q.
Proof.
  induction fuel as [|fuel IH]; intros ds g Q; [done|].
  books_solve ltac:(rewrite scan_astar_books) IH.
Qed.

Lemma route_shortest_distance_books place fuel ds fromid toid :
  route_shortest_distance place fuel (T ds) fromid toid =
  (fun '(l, ds') => (l, T ds')) <$> route_shortest_distance place fuel ds fromid toid.
Proof.
  unfold route_shortest_distance, reset_shortest_distance. rewrite !stations_find_books.
  destruct (stations_find ds fromid); [|done].
  destruct (stations_find ds toid); [|done].
  destruct (bool_decide (fromid = toid)); [done|].
  cbv zeta. change (with_nodes (?R <$> nodes ?d) ?d) with (wipe R d).
  rewrite wipe_books.
  match goal with
  | |- context [T (wipe ?R ds)] => generalize (wipe R ds); intros ds0
  end.
  books_solve ltac:(first [rewrite astar_loop_books | rewrite walk_back_books]) I.
Qed.

Lemma relax_dijkstra_books ds u v u_depart at_v :
  relax_dijkstra (T ds) u v u_depart at_v = T <$> relax_dijkstra ds u v u_depart at_v.
Proof. unfold relax_dijkstra. books_solve idtac I. Qed.

Lemma scan_dijkstra_books place edges : ∀ ds u Q,
  scan_dijkstra place (T ds) u edges Q =
  (fun '(ds', Q') => (T ds', Q')) <$> scan_dijkstra place ds u edges Q.
Proof.
  induction edges as [|[dep [arr v]] rest IH]; intros ds u Q; [done|].
  books_solve ltac:(rewrite relax_dijkstra_books) IH.
Qed.

Lemma dijkstra_loop_books place fuel : ∀ ds g Q,
  dijkstra_loop place fuel (T ds) g Q = T <$> dijkstra_loop place fuel ds g Q.
Proof.
  induction fuel as [|fuel IH]; intros ds g Q; [done|].
  books_solve ltac:(rewrite scan_dijkstra_books) IH.
Qed.

Lemma walk_back_path_books fromid fuel : ∀ ds i path,
  walk_back_path fuel (T ds) fromid i path = walk_back_path fuel ds fromid i path.
Proof.
  induction fuel as [|fuel IH]; intros ds i path; [done|].
  books_solve idtac IH.
Qed.

Lemma scan_hop_books edges : ∀ ds cur nxt prev_arrival tracker,
  scan_hop (T ds) cur nxt edges prev_arrival tracker =
  (fun '(ds', t) => (T ds', t)) <$> scan_hop ds cur nxt edges prev_arrival tracker.
Proof.
  induction edges as [|[dep [arr v]] rest IH]; intros ds cur nxt prev_arrival tracker;
    [done|].
  books_solve idtac IH.
Qed.

Lemma fix_departures_books path : ∀ ds prev_arrival tracker,
  fix_departures (T ds) path prev_arrival tracker =
  T <$> fix_departures ds path prev_arrival tracker.
Proof.
  induction path as [|cur rest IH]; intros ds prev_arrival tracker; [done|].
  destruct rest as [|nxt rest]; [done|].
  rewrite !fix_departures_cons.
  books_solve ltac:(rewrite scan_hop_books) IH.
Qed.

Lemma path_times_books path : ∀ ds, path_times (T ds) path = path_times ds path.
Proof.
  induction path as [|p rest IH]; intros ds; [done|].
  simpl. rewrite deref_books, IH. by destruct (deref ds p).
Qed.

Lemma route_earliest_arrival_books place fuel ds fromid toid starttime :
  route_earliest_arrival place fuel (T ds) fromid toid starttime =
  (fun '(l, ds') => (l, T ds'))
    <$> route_earliest_arrival place fuel ds fromid toid starttime.
Proof.
  unfold route_earliest_arrival, reset_earliest_arrival. rewrite !stations_find_books.
  destruct (stations_find ds fromid); [|done].
  destruct (stations_find ds toid); [|done].
  destruct (bool_decide (fromid = toid)); [done|].
  cbv zeta. change (with_nodes (?R <$> nodes ?d) ?d) with (wipe R d).
  rewrite wipe_books.
  match goal with
  | |- context [T (wipe ?R ds)] => generalize (wipe R ds); intros ds0
  end.
  books_solve ltac:(first [rewrite dijkstra_loop_books | rewrite walk_back_path_books
                          | rewrite fix_departures_books | rewrite path_times_books]) I.
Qed.

(** A route query answers on [T ds] as on [ds], and leaves the state it
    leaves on [ds], with [T] applied. *)
Lemma query_books place q ds :
  is_query q = true ->
  call place q (T ds) = (fun '(a, ds') => (a, T ds')) <$> call place q ds.
Proof.
  intros Hq. destruct q; try discriminate Hq; simpl; unfold lift_route.
  - rewrite route_any_books. by destruct (route_any _ _ _ _) as [[? ?]|].
  - rewrite route_least_stations_books.
    by destruct (route_least_stations _ _ _ _) as [[? ?]|].
  - rewrite route_with_cycle_books. by destruct (route_with_cycle _ _ _) as [[? ?]|].
  - rewrite route_shortest_distance_books.
    by destruct (route_shortest_distance _ _ _ _ _) as [[? ?]|].
  - rewrite route_earliest_arrival_books.
    by destruct (route_earliest_arrival _ _ _ _ _ _) as [[? ?]|].
Qed.

End Books.

(** X18. [clear_trains] empties the train map and nothing else: the edges
    and the departures that [add_train] stored at the stations stay.
    Afterwards [train_stations_from] answers NO_STATION for every station
    and train, while [station_departures_after] and every route query answer
    as before the call, and a query leaves the state it would have left,
    with the train map emptied. *)
Theorem clear_trains_keeps_network place ds :
  trains (clear_trains ds) = ∅ ∧
  stations (clear_trains ds) = stations ds ∧
  nodes (clear_trains ds) = nodes ds ∧
  regions (clear_trains ds) = regions ds ∧
  (∀ sid tid, train_stations_from (clear_trains ds) sid tid = Ok [NO_STATION]) ∧
  (∀ sid t, station_departures_after (clear_trains ds) sid t
            = station_departures_after ds sid t) ∧
  (∀ q, is_query q = true ->
     call place q (clear_trains ds)
     = (fun '(a, ds') => (a, clear_trains ds')) <$> call place q ds).
Proof.
  split_and!; try reflexivity.
  - intros sid tid. unfold train_stations_from. simpl. rewrite lookup_empty.
    by destruct (stations_find _ _).
  - intros q Hq. by apply (query_books clear_trains).
Qed.

Lemma clear_trains_keeps_network_witness :
  call default_place (RouteAny 10 "S1" "S3") (clear_trains line_network)
  = (fun '(a, ds') => (a, clear_trains ds'))
      <$> call default_place (RouteAny 10 "S1" "S3") line_network.
Proof.
  apply (clear_trains_keeps_network default_place line_network). reflexivity.
Defined.

(** * The region of a station is registered *)

Lemma regions_live_same_on ds ds' :
  same_on s_region ds ds' -> (∀ k, is_Some (regions ds !! k) -> is_Some (regions ds' !! k)) ->
  regions_live ds -> regions_live ds'.
Proof.
  intros [_ Hsame] Hreg Hlive p s' Hs' Hr. specialize (Hsame p). rewrite Hs' in Hsame.
  destruct (nodes ds !! p) as [s|] eqn:Es; [|done]. simpl in Hsame.
  injection Hsame as Hsame. rewrite Hsame in *. eauto.
Qed.

Lemma exec_regions_live place o ds ds' :
  exec place o ds = Ok ds' -> regions_live ds -> regions_live ds'.
Proof.
  intros H Hlive.
  assert (Hcl : o = ClearAll ∨ o ≠ ClearAll)
    by (destruct o; first [by left | by right]).
  destruct Hcl as [->|Hno].
  { exec_inv H. simplify_eq. intros p s Hs. simpl in Hs. by rewrite lookup_empty in Hs. }
  assert (Hreg : ∀ k, is_Some (regions ds !! k) -> is_Some (regions ds' !! k)).
  { intros k [r Hr].
    destruct (exec_region_kept_record place o ds ds' k r Hno H Hr) as (r' & Hr' & _).
    eauto. }
  destruct (is_query o) eqn:Hq.
  { unfold exec in H. apply fmap_Ok in H as ([a ds1] & H & ->).
    eapply regions_live_same_on; [|done..]. eapply query_same_on; eauto. }
  destruct o; try discriminate Hq; try done; exec_inv H.
  - unfold add_station in H. inv_ok; try done.
    intros p s Hs Hr. simpl in Hs, Hreg.
    destruct (decide (p = next_node ds)) as [->|Hne].
    + rewrite lookup_insert_eq in Hs. by simplify_eq.
    + rewrite lookup_insert_ne in Hs by done. apply Hreg. eauto.
  - eapply regions_live_same_on; [|done..]. eapply change_station_coord_same_on; eauto.
  - eapply regions_live_same_on; [|done..]. eapply add_departure_same_on; eauto.
  - eapply regions_live_same_on; [|done..]. eapply remove_departure_same_on; eauto.
  - eapply regions_live_same_on; [|done..]. unfold add_region in H. by inv_ok.
  - eapply regions_live_same_on; [|done..]. unfold add_subregion_to_region in H. by inv_ok.
  - unfold add_station_to_region in H.
    destruct (stations_find ds id) as [q|] eqn:Eq; [|by simplify_eq].
    destruct (regions ds !! parentid) as [rp|] eqn:Ep; [|by simplify_eq].
    inv_ok; try done.
    match goal with
    | H : modify _ _ _ = Ok _ |- _ => apply modify_Ok in H as (s0 & Hs0 & ->)
    end.
    intros p s Hs Hr. simpl in Hs, Hreg |- *.
    destruct (decide (q = p)) as [->|Hne].
    + rewrite lookup_insert_eq in Hs. simplify_eq. simpl. apply Hreg. eauto.
    + rewrite lookup_insert_ne in Hs by done. apply Hreg. eauto.
  - unfold remove_station in H. inv_ok; try done.
    intros p s Hs Hr. simpl in Hs, Hreg |- *.
    apply lookup_delete_Some in Hs as [_ Hs]. apply Hreg. eauto.
  - eapply regions_live_same_on; [|done..]. eapply add_train_same_on; eauto.
  - by simplify_eq.
Qed.

Lemma run_regions_live place ops : ∀ ds ds',
  run place ops ds = Ok ds' -> regions_live ds -> regions_live ds'.
Proof.
  induction ops as [|o ops IH]; intros ds ds' H Hlive; simpl in H.
  - by simplify_eq.
  - apply bind_Ok in H as (ds1 & H1 & H). eauto using exec_regions_live.
Qed.

Lemma init_regions_live : regions_live Datastructures_init.
Proof. intros p s Hs. simpl in Hs. by rewrite lookup_empty in Hs. Qed.

(** X19. In every state the object can reach, the region of a station that
    has one is a registered region, stored under that identifier.  A list
    that [station_in_regions] returns for such a station is therefore never
    empty: it starts with the region of the station. *)
Theorem reachable_regions_live place ds :
  reachable place ds ->
  ∀ id p s, stations_find ds id = Some p -> nodes ds !! p = Some s ->
    s_region s ≠ NO_REGION ->
    (∃ r, regions ds !! s_region s = Some r ∧ r_id r = s_region s) ∧
    ∀ fuel l, station_in_regions fuel ds id = Ok l -> head l = Some (s_region s).
Proof.
  intros [ops H] id p s Hp Hs Hr.
  pose proof (run_regions_live place ops _ _ H init_regions_live p s Hs Hr) as [r Hreg].
  pose proof (run_hierarchy_wf place ops _ _ H init_hierarchy_wf) as Hwf.
  pose proof Hwf as (Hid & _ & _).
  split; [by eauto|]. intros fuel l Hl.
  rewrite (station_in_regions_walk fuel ds id p s Hp Hs Hr) in Hl.
  apply (regions_walk_chain ds Hid) in Hl as (l' & -> & Hc & _).
  destruct l' as [|a l']; simpl in Hc; [congruence|]. by destruct Hc as [-> _].
Qed.

Lemma reachable_regions_live_witness :
  ∃ r, regions regional_network !! 3%N = Some r ∧ r_id r = 3%N.
Proof.
  assert (Hreach : reachable default_place regional_network).
  { exists regional_ops. vm_compute. reflexivity. }
  destruct (nodes regional_network !! 0%nat) as [s|] eqn:Es;
    [|vm_compute in Es; discriminate].
  pose proof (reachable_regions_live default_place regional_network Hreach "S1" 0%nat s)
    as Hthm.
  vm_compute in Es. simplify_eq.
  apply Hthm; [vm_compute; reflexivity|vm_compute; reflexivity|discriminate].
Defined.

(** * Edges to a removed station *)

Lemma deref_eval ds p s : nodes ds !! p = Some s -> deref ds p = Ok s.
Proof. apply deref_Some. Qed.

Lemma deref_free ds p : nodes ds !! p = None -> deref ds p = Fail UndefinedBehaviour.
Proof. unfold deref. by intros ->. Qed.

Lemma modify_eval ds p f s :
  nodes ds !! p = Some s -> modify ds p f = Ok (with_nodes (<[p := f s]> (nodes ds)) ds).
Proof. intros H. unfold modify. by rewrite (deref_eval _ _ _ H). Qed.

Lemma wipe_lookup R ds p : nodes (wipe R ds) !! p = R <$> nodes ds !! p.
Proof. unfold wipe. simpl. apply lookup_fmap. Qed.

Section Dangling.

(** The searched state: the first edge of the node [pa] leads to the free
    address [pb]. *)
Variable ds1 : Datastructures.
Variables pa pb : nat.
Variable s1 : Station.
Variables dep arr : Z.
Variable rest : list (Z * (Z * nat)).
Hypothesis Hs1 : nodes ds1 !! pa = Some s1.
Hypothesis Hedges : s_stations_to s1 = (dep, (arr, pb)) :: rest.
Hypothesis Hfree : nodes ds1 !! pb = None.

Lemma bfs_any_dangling fuel toid k Q :
  bfs_any (S fuel) ds1 toid ((k, pa) :: Q) false = Fail UndefinedBehaviour.
Proof. simpl. rewrite (deref_eval _ _ _ Hs1). simpl. rewrite Hedges. simpl. rewrite (deref_free _ _ Hfree). reflexivity. Qed.

Lemma bfs_least_stations_dangling fuel toid k Q :
  bfs_least_stations (S fuel) ds1 toid ((k, pa) :: Q) false = Fail UndefinedBehaviour.
Proof. simpl. rewrite (deref_eval _ _ _ Hs1). simpl. rewrite Hedges. simpl. rewrite (deref_free _ _ Hfree). reflexivity. Qed.

Lemma dfs_cycle_dangling fuel S :
  s_color s1 = 0 -> dfs_cycle (Datatypes.S fuel) ds1 (pa :: S) = Fail UndefinedBehaviour.
Proof.
  intros Hcol. simpl. rewrite (deref_eval _ _ _ Hs1). simpl. rewrite Hcol. simpl.
  rewrite (modify_eval _ _ _ _ Hs1). simpl. rewrite Hedges. simpl.
  rewrite deref_free; [done|]. simpl. rewrite lookup_insert_ne; [done|]. congruence.
Qed.

Lemma astar_loop_dangling place fuel g sg k Q :
  nodes ds1 !! g = Some sg -> s_id s1 ≠ s_id sg ->
  astar_loop place (S fuel) ds1 g ((k, pa) :: Q) = Fail UndefinedBehaviour.
Proof.
  intros Hg Hid. simpl. rewrite (deref_eval _ _ _ Hs1). simpl.
  rewrite (deref_eval _ _ _ Hg). simpl. rewrite bool_decide_eq_false_2 by done.
  rewrite Hedges. simpl. rewrite (deref_free _ _ Hfree). reflexivity.
Qed.

Lemma dijkstra_loop_dangling place fuel g sg k Q :
  nodes ds1 !! g = Some sg -> s_id s1 ≠ s_id sg ->
  dijkstra_loop place (S fuel) ds1 g ((k, pa) :: Q) = Fail UndefinedBehaviour.
Proof.
  intros Hg Hid. simpl. rewrite (deref_eval _ _ _ Hs1). simpl.
  rewrite (deref_eval _ _ _ Hg). simpl. rewrite bool_decide_eq_false_2 by done.
  rewrite Hedges. simpl. rewrite (deref_free _ _ Hfree). reflexivity.
Qed.

End Dangling.

Lemma res_bind_Ok {A B} (x : A) (k : A -> res B) : Ok x ≫= k = k x.
Proof. reflexivity. Qed.

Lemma res_bind_Fail {A B} (f : fault) (k : A -> res B) : Fail f ≫= k = Fail f.
Proof. reflexivity. Qed.

(** X20. [remove_station] erases the station and leaves the edges that lead
    to it in place.  When the first edge of a station leads to the removed
    station, every route query that starts at that station reads the freed
    node: the behaviour of the program is undefined, whatever the goal and
    however much fuel is given. *)
Theorem remove_station_dangling place ds a b c pa pb sa dep arr rest fuel starttime :
  registry_wf ds ->
  stations ds !! a = Some pa -> nodes ds !! pa = Some sa ->
  s_stations_to sa = (dep, (arr, pb)) :: rest ->
  stations ds !! b = Some pb -> a ≠ b ->
  is_Some (stations ds !! c) -> c ≠ a -> c ≠ b ->
  ∃ ds', remove_station ds b = (true, ds') ∧
    edge ds' pa pb ∧ nodes ds' !! pb = None ∧
    route_any (S fuel) ds' a c = Fail UndefinedBehaviour ∧
    route_least_stations (S fuel) ds' a c = Fail UndefinedBehaviour ∧
    route_with_cycle (S fuel) ds' a = Fail UndefinedBehaviour ∧
    route_shortest_distance place (S fuel) ds' a c = Fail UndefinedBehaviour ∧
    route_earliest_arrival place (S fuel) ds' a c starttime = Fail UndefinedBehaviour.
Proof.
  intros (Hix & Hnd & _) Ha Hsa Hedges Hb Hab [pc Hc] Hca Hcb.
  destruct (Hix _ _ Hc) as (sc & Hsc & Hidc).
  destruct (Hix _ _ Hb) as (sb & Hsb & Hidb).
  destruct (Hix _ _ Ha) as (sa' & Hsa' & Hida). simplify_eq.
  assert (Hpab : pa ≠ pb) by (intros ->; simplify_eq).
  assert (Hpcb : pc ≠ pb) by (intros ->; simplify_eq).
  assert (Hpac : pa ≠ pc) by (intros ->; simplify_eq).
  unfold remove_station, stations_find. rewrite Hb. eexists. split; [reflexivity|].
  set (ds' := with_stations _ _ _ _).
  assert (Ha' : stations ds' !! s_id sa = Some pa) by (simpl; by rewrite lookup_delete_ne).
  assert (Hc' : stations ds' !! s_id sc = Some pc) by (simpl; by rewrite lookup_delete_ne).
  assert (Hsa' : nodes ds' !! pa = Some sa) by (simpl; by rewrite lookup_delete_ne).
  assert (Hsc' : nodes ds' !! pc = Some sc) by (simpl; by rewrite lookup_delete_ne).
  assert (Hfree : nodes ds' !! pb = None) by (simpl; by rewrite lookup_delete_eq).
  clearbody ds'.
  assert (Hprep : ∀ R f,
    (∀ x, s_stations_to (f (R x)) = s_stations_to x) ->
    ∃ d1, modify (wipe R ds') pa f = Ok d1 ∧
      nodes d1 !! pa = Some (f (R sa)) ∧ nodes d1 !! pc = Some (R sc) ∧
      nodes d1 !! pb = None ∧ s_stations_to (f (R sa)) = (dep, (arr, pb)) :: rest).
  { intros R f Hkeep. eexists. split.
    - apply modify_eval. by rewrite wipe_lookup, Hsa'.
    - simpl. rewrite lookup_insert_eq, !lookup_insert_ne, !lookup_fmap, Hsc', Hfree by done.
      by rewrite Hkeep. }
  split_and!.
  - exists sa, dep, arr. split; [done|]. rewrite Hedges. by left.
  - done.
  - unfold route_any, stations_find. rewrite Ha', Hc', bool_decide_eq_false_2 by done.
    cbv zeta. unfold reset_any. change (with_nodes (?R <$> nodes ?d) ?d) with (wipe R d).
    rewrite !stations_at_wipe. unfold stations_at. rewrite Ha', Hc', !res_bind_Ok.
    destruct (Hprep (fun s => set_pi None (set_d 999999 s)) (set_d 0))
      as (d1 & -> & H1 & _ & H3 & H4); [done|].
    rewrite res_bind_Ok.
    by rewrite (bfs_any_dangling d1 pa pb _ dep arr rest H1 H4 H3).
  - unfold route_least_stations, stations_find.
    rewrite Ha', Hc', bool_decide_eq_false_2 by done.
    cbv zeta. unfold reset_least_stations.
    change (with_nodes (?R <$> nodes ?d) ?d) with (wipe R d).
    rewrite !stations_at_wipe. unfold stations_at. rewrite Ha', Hc', !res_bind_Ok.
    destruct (Hprep (fun s => set_pi None (set_de 999999 (set_d 999999 s)))
                (fun s => set_de 0 (set_d 0 s)))
      as (d1 & -> & H1 & _ & H3 & H4); [done|].
    rewrite res_bind_Ok.
    by rewrite (bfs_least_stations_dangling d1 pa pb _ dep arr rest H1 H4 H3).
  - unfold route_with_cycle, stations_find. rewrite Ha'.
    cbv zeta. unfold reset_cycle.
    change (with_nodes (?R <$> nodes ?d) ?d) with (wipe R d).
    rewrite !stations_at_wipe. unfold stations_at. rewrite Ha', !res_bind_Ok.
    rewrite (dfs_cycle_dangling (wipe (fun s => set_pi None (set_color 0 s)) ds') pa pb
               (set_pi None (set_color 0 sa)) dep arr rest); try done.
    + by rewrite wipe_lookup, Hsa'.
    + by rewrite wipe_lookup, Hfree.
  - unfold route_shortest_distance, stations_find.
    rewrite Ha', Hc', bool_decide_eq_false_2 by done.
    cbv zeta. unfold reset_shortest_distance.
    change (with_nodes (?R <$> nodes ?d) ?d) with (wipe R d).
    rewrite !stations_at_wipe. unfold stations_at. rewrite Ha', Hc', !res_bind_Ok.
    destruct (Hprep (fun s => set_pi None (set_de 999999 (set_d 999999 (set_color 0 s))))
                (set_d 0))
      as (d1 & -> & H1 & H2 & H3 & H4); [done|].
    rewrite res_bind_Ok.
    change (set_insert place (0, pa) []) with [(0, pa)].
    by rewrite (astar_loop_dangling d1 pa pb _ dep arr rest H1 H4 H3 place fuel pc _ 0 []
                  H2).
  - unfold route_earliest_arrival, stations_find.
    rewrite Ha', Hc', bool_decide_eq_false_2 by done.
    cbv zeta. unfold reset_earliest_arrival.
    change (with_nodes (?R <$> nodes ?d) ?d) with (wipe R d).
    rewrite !stations_at_wipe. unfold stations_at. rewrite Ha', Hc', !res_bind_Ok.
    destruct (Hprep (fun s => set_pi None (set_d 999999 (set_color 0 s)))
                (set_d starttime))
      as (d1 & -> & H1 & H2 & H3 & H4); [done|].
    rewrite res_bind_Ok.
    change (set_insert place (0, pa) []) with [(0, pa)].
    by rewrite (dijkstra_loop_dangling d1 pa pb _ dep arr rest H1 H4 H3 place fuel pc _ 0 []
                  H2).
Qed.

Lemma remove_station_dangling_witness :
  route_any 6 (remove_station line_network "S2").2 "S1" "S3" = Fail UndefinedBehaviour.
Proof.
  destruct (nodes line_network !! 0%nat) as [sa|] eqn:Es;
    [|vm_compute in Es; discriminate].
  destruct (remove_station_dangling default_place line_network "S1" "S2" "S3"
              0 1 sa 100 110 [] 5 0) as (ds' & Hrm & _ & _ & H & _).
  - apply line_network_registry_wf.
  - vm_compute. reflexivity.
  - exact Es.
  - vm_compute in Es. simplify_eq. reflexivity.
  - vm_compute. reflexivity.
  - discriminate.
  - vm_compute. eauto.
  - discriminate.
  - discriminate.
  - rewrite Hrm. exact H.
Defined.

(** * Route queries on live edges *)

Lemma safely_not_faulty {A} (P : A -> Prop) (r : res A) : safely P r -> ¬ faulty r.
Proof. destruct r as [a|f]; simpl; [by intros _ [?|?]|]. by intros -> [?|?]. Qed.

Lemma safely_mono {A} (P Q : A -> Prop) (r : res A) :
  (∀ a, P a -> Q a) -> safely P r -> safely Q r.
Proof. destruct r; simpl; auto. Qed.

Lemma safely_bind {A B} (P : A -> Prop) (Q : B -> Prop) (m : res A) (k : A -> res B) :
  safely P m -> (∀ a, P a -> safely Q (k a)) -> safely Q (m ≫= k).
Proof. destruct m as [a|f]; simpl; [auto|]. by intros ->. Qed.

Section Safety.

(** The state the query starts from; [L p]: the address [p] holds a node. *)
Variable ds0 : Datastructures.
Let L (p : nat) : Prop := is_Some (nodes ds0 !! p).
Hypothesis edges0 : edges_live ds0.

(** What a search keeps true of the state: only search fields differ from
    [ds0], and every predecessor link leads to a node. *)
Let ok (ds : Datastructures) : Prop :=
  frame ds = frame ds0 ∧ ∀ p s q, nodes ds !! p = Some s -> s_pi s = Some q -> L q.

Lemma ok_live ds p : ok ds -> L p -> ∃ s, nodes ds !! p = Some s.
Proof.
  intros [Hfr _] Hp.
  apply (same_on_live (fun _ => tt) ds0 ds p); [by apply frame_same_on|done].
Qed.

Lemma ok_edges ds p s :
  ok ds -> nodes ds !! p = Some s -> Forall (fun e : Edge => L e.2.2) (s_stations_to s).
Proof.
  intros [Hfr _] Hs. destruct (frame_lookup ds0 ds p s Hfr Hs) as (s0 & Hs0 & Hb).
  replace (s_stations_to s) with (s_stations_to s0); [by eapply edges0|].
  exact (f_equal s_stations_to Hb).
Qed.

Lemma ok_deref ds p : ok ds -> L p -> safely (fun s => nodes ds !! p = Some s) (deref ds p).
Proof. intros Hok Hp. destruct (ok_live ds p Hok Hp) as [s Hs]. by rewrite (deref_eval _ _ _ Hs). Qed.

Lemma ok_modify ds p f :
  (∀ s, blank (f s) = blank s) ->
  (∀ s q, s_pi (f s) = Some q -> s_pi s = Some q ∨ L q) ->
  ok ds -> L p -> safely ok (modify ds p f).
Proof.
  intros Hb Hpi Hok Hp. destruct (ok_live ds p Hok Hp) as [s Hs].
  rewrite (modify_eval _ _ _ _ Hs). simpl. destruct Hok as [Hfr Hlinks]. split.
  - rewrite <- Hfr. apply (modify_frame ds p f); [done|]. by apply modify_eval.
  - intros p' s' q Hs' Hq. simpl in Hs'. destruct (decide (p = p')) as [<-|Hne].
    + rewrite lookup_insert_eq in Hs'. simplify_eq.
      destruct (Hpi _ _ Hq); eauto.
    + rewrite lookup_insert_ne in Hs' by done. eauto.
Qed.

(** The call a chain of binds starts with. *)
Ltac first_call t :=
  lazymatch t with
  | ?m ≫= _ => first_call m
  | _ => t
  end.

(** Replaces the first call of the goal by its outcome, given that the call
    is safe; the fault case is closed. *)
Ltac safe_call Hm :=
  let H := fresh "Hcall" in
  pose proof Hm as H;
  match type of H with
  | safely _ ?c =>
      let fl := fresh "fl" in
      destruct c as [?|fl]; simpl in H; [simpl|subst fl; reflexivity]
  end.

Ltac link_side :=
  let Hq := fresh in
  intros ? ? Hq; simpl in Hq;
  first [ left; exact Hq | right; simplify_eq; assumption ].

(** Runs the next call of the goal on a state that is [ok]. *)
Ltac safe_step :=
  simpl;
  match goal with
  | |- safely _ ?r =>
      let h := first_call r in
      lazymatch h with
      | Ok _ => fail
      | deref ?d ?p =>
          safe_call (ok_deref d p ltac:(assumption) ltac:(eauto))
      | modify ?d ?p ?f =>
          safe_call (ok_modify d p f ltac:(reflexivity) ltac:(link_side)
                       ltac:(assumption) ltac:(eauto))
      | (if ?b then _ else _) => destruct b eqn:?
      | (match ?x with _ => _ end) => destruct x eqn:?
      end
  end.

(** Closes the liveness conditions on queue entries and edge targets. *)
Ltac live :=
  repeat first
    [ assumption
    | apply Forall_nil
    | apply Forall_app; split
    | apply Forall_cons; split
    | progress simpl ];
  eauto.

Ltac safe_end IH :=
  simpl; first [ done | split; [assumption | by live] | apply IH; by live ].

Lemma scan_any_safe toid u edges : ∀ ds Q,
  ok ds -> L u -> Forall (fun e : Edge => L e.2.2) edges -> Forall (fun q => L q.2) Q ->
  safely (fun '(ds', Q', b) => ok ds' ∧ Forall (fun q : Z * nat => L q.2) Q')
    (scan_any ds u toid edges Q).
Proof.
  induction edges as [|[dep [arr v]] rest IH]; intros ds Q Hok Hu He HQ; simpl; [done|].
  apply Forall_cons in He as [Hv He]. simpl in Hv.
  repeat safe_step; safe_end IH.
Qed.

Lemma bfs_any_safe toid fuel : ∀ ds Q found,
  ok ds -> Forall (fun q => L q.2) Q -> safely ok (bfs_any fuel ds toid Q found).
Proof.
  induction fuel as [|fuel IH]; intros ds Q found Hok HQ; simpl; [done|].
  destruct Q as [|[k u] Q]; [done|]. apply Forall_cons in HQ as [Hu HQ]. simpl in Hu.
  destruct found; [done|].
  safe_step.
  match goal with
  | Hs : nodes ds !! u = Some ?su |- _ =>
      safe_call (scan_any_safe toid u (s_stations_to su) ds Q Hok Hu
                   (ok_edges ds u su Hok Hs) HQ)
  end.
  simpl. destruct a0 as [[ds1 Q1] b]. destruct Hcall0. by apply IH.
Qed.

Lemma walk_back_safe fromid fuel : ∀ ds i result,
  ok ds -> (∀ p, i = Some p -> L p) -> safely (fun _ => True) (walk_back fuel ds fromid i result).
Proof.
  induction fuel as [|fuel IH]; intros ds i result Hok Hi; simpl; [done|].
  destruct i as [p|]; [|done]. specialize (Hi p eq_refl).
  repeat safe_step; try done.
  apply IH; [done|]. destruct Hok as [_ Hlinks]. eauto.
Qed.

Lemma scan_least_stations_safe toid u edges : ∀ ds Q,
  ok ds -> L u -> Forall (fun e : Edge => L e.2.2) edges -> Forall (fun q => L q.2) Q ->
  safely (fun '(ds', Q', b) => ok ds' ∧ Forall (fun q : Z * nat => L q.2) Q')
    (scan_least_stations ds u toid edges Q).
Proof.
  induction edges as [|[dep [arr v]] rest IH]; intros ds Q Hok Hu He HQ; simpl; [done|].
  apply Forall_cons in He as [Hv He]. simpl in Hv.
  repeat safe_step; safe_end IH.
Qed.

Lemma bfs_least_stations_safe toid fuel : ∀ ds Q found,
  ok ds -> Forall (fun q => L q.2) Q -> safely ok (bfs_least_stations fuel ds toid Q found).
Proof.
  induction fuel as [|fuel IH]; intros ds Q found Hok HQ; simpl; [done|].
  destruct Q as [|[k u] Q]; [done|]. apply Forall_cons in HQ as [Hu HQ]. simpl in Hu.
  destruct found; [done|].
  safe_step.
  match goal with
  | Hs : nodes ds !! u = Some ?su |- _ =>
      safe_call (scan_least_stations_safe toid u (s_stations_to su) ds Q Hok Hu
                   (ok_edges ds u su Hok Hs) HQ)
  end.
  destruct a0 as [[ds1 Q1] b]. destruct Hcall0. by apply IH.
Qed.

Lemma walk_back_least_stations_safe fromid fuel : ∀ ds i result,
  ok ds -> (∀ p, i = Some p -> L p) ->
  safely (fun _ => True) (walk_back_least_stations fuel ds fromid i result).
Proof.
  induction fuel as [|fuel IH]; intros ds i result Hok Hi; simpl; [done|].
  destruct i as [p|]; [|done]. specialize (Hi p eq_refl).
  repeat safe_step; try done.
  apply IH; [done|]. destruct Hok as [_ Hlinks]. eauto.
Qed.

Lemma scan_cycle_safe u edges : ∀ ds S,
  ok ds -> L u -> Forall (fun e : Edge => L e.2.2) edges -> Forall L S ->
  safely (fun '(ds', S', found) =>
            ok ds' ∧ Forall L S' ∧ ∀ g c, found = Some (g, c) -> L g ∧ L c)
    (scan_cycle ds u edges S).
Proof.
  induction edges as [|[dep [arr v]] rest IH]; intros ds S Hok Hu He HS; simpl.
  { split_and!; [done..|]. intros ? ? [=]. }
  apply Forall_cons in He as [Hv He]. simpl in Hv.
  repeat safe_step;
    first [ apply IH; by live
          | simpl; split_and!; [done..|]; by intros ? ? [= <- <-] ].
Qed.

Lemma dfs_cycle_safe fuel : ∀ ds S,
  ok ds -> Forall L S ->
  safely (fun '(ds', found) => ok ds' ∧ ∀ g c, found = Some (g, c) -> L g ∧ L c)
    (dfs_cycle fuel ds S).
Proof.
  induction fuel as [|fuel IH]; intros ds S Hok HS; simpl.
  { done. }
  destruct S as [|u S]. { simpl. split; [done|]. intros ? ? [=]. }
  apply Forall_cons in HS as [Hu HS].
  safe_step. safe_step; [|by apply IH]. safe_step.
  match goal with
  | Hs : nodes ds !! u = Some ?su, Hok1 : ok ?d1 |- _ =>
      lazymatch d1 with
      | ds => fail
      | _ =>
          safe_call (scan_cycle_safe u (s_stations_to su) d1 (u :: S) Hok1 Hu
                       (ok_edges ds u su Hok Hs) ltac:(by live))
      end
  end.
  destruct a1 as [[ds2 S2] found]. destruct Hcall1 as (Hok2 & HS2 & Hfound).
  destruct found as [[g c]|]; simpl; [by split|]. by apply IH.
Qed.

Lemma walk_back_cycle_safe sid fuel : ∀ ds i result,
  ok ds -> (∀ p, i = Some p -> L p) ->
  safely (fun _ => True) (walk_back_cycle fuel ds sid i result).
Proof.
  induction fuel as [|fuel IH]; intros ds i result Hok Hi; simpl; [done|].
  destruct i as [p|]; [|done]. specialize (Hi p eq_refl).
  repeat safe_step; try done.
  apply IH; [done|]. destruct Hok as [_ Hlinks]. eauto.
Qed.

Lemma set_insert_live place x Q :
  L x.2 -> Forall (fun q : Z * nat => L q.2) Q ->
  Forall (fun q : Z * nat => L q.2) (set_insert place x Q).
Proof.
  intros Hx. induction 1 as [|y Q Hy HQ IH]; simpl; [by repeat constructor|].
  destruct (pair_lt place x y); [by repeat constructor|].
  destruct (pair_lt place y x); by repeat constructor.
Qed.

Lemma set_requeue_live place x Q :
  L x.2 -> Forall (fun q : Z * nat => L q.2) Q ->
  Forall (fun q : Z * nat => L q.2) (set_requeue place x Q).
Proof.
  intros Hx HQ. unfold set_requeue. destruct (set_find place x Q); [|done].
  apply set_insert_live; [done|]. unfold set_erase.
  apply Forall_forall. intros y Hy%list_elem_of_filter.
  rewrite Forall_forall in HQ. apply HQ, Hy.
Qed.

Lemma relax_astar_safe ds u v g :
  ok ds -> L u -> L v -> L g -> safely ok (relax_astar ds u v g).
Proof. intros Hok Hu Hv Hg. unfold relax_astar. repeat safe_step; by simpl. Qed.

Lemma scan_astar_safe place u g edges : ∀ ds Q,
  ok ds -> L u -> L g -> Forall (fun e : Edge => L e.2.2) edges ->
  Forall (fun q => L q.2) Q ->
  safely (fun '(ds', Q') => ok ds' ∧ Forall (fun q : Z * nat => L q.2) Q')
    (scan_astar place ds u g edges Q).
Proof.
  induction edges as [|[dep [arr v]] rest IH]; intros ds Q Hok Hu Hg He HQ; simpl; [done|].
  apply Forall_cons in He as [Hv He]. simpl in Hv.
  safe_step. safe_call (relax_astar_safe ds u v g Hok Hu Hv Hg).
  repeat safe_step;
    apply IH; try done; first [by apply set_insert_live | by apply set_requeue_live].
Qed.

Lemma astar_loop_safe place fuel g : ∀ ds Q,
  ok ds -> L g -> Forall (fun q => L q.2) Q -> safely ok (astar_loop place fuel ds g Q).
Proof.
  induction fuel as [|fuel IH]; intros ds Q Hok Hg HQ; simpl; [done|].
  destruct Q as [|[k u] Q]; [done|]. apply Forall_cons in HQ as [Hu HQ]. simpl in Hu.
  safe_step. safe_step. safe_step; [done|].
  match goal with
  | Hs : nodes ds !! u = Some ?su |- context [scan_astar _ _ _ _ (s_stations_to ?su) _] =>
      safe_call (scan_astar_safe place u g (s_stations_to su) ds Q Hok Hu Hg
                   (ok_edges ds u su Hok Hs) HQ)
  end.
  destruct a1 as [ds1 Q1]. destruct Hcall1. by apply IH.
Qed.

Lemma relax_dijkstra_safe ds u v u_depart at_v :
  ok ds -> L u -> L v -> safely ok (relax_dijkstra ds u v u_depart at_v).
Proof. intros Hok Hu Hv. unfold relax_dijkstra. repeat safe_step; by simpl. Qed.

Lemma scan_dijkstra_safe place u edges : ∀ ds Q,
  ok ds -> L u -> Forall (fun e : Edge => L e.2.2) edges ->
  Forall (fun q => L q.2) Q ->
  safely (fun '(ds', Q') => ok ds' ∧ Forall (fun q : Z * nat => L q.2) Q')
    (scan_dijkstra place ds u edges Q).
Proof.
  induction edges as [|[dep [arr v]] rest IH]; intros ds Q Hok Hu He HQ; simpl; [done|].
  apply Forall_cons in He as [Hv He]. simpl in Hv.
  safe_step. safe_call (relax_dijkstra_safe ds u v dep arr Hok Hu Hv).
  repeat safe_step;
    apply IH; try done; first [by apply set_insert_live | by apply set_requeue_live].
Qed.

Lemma dijkstra_loop_safe place fuel g : ∀ ds Q,
  ok ds -> L g -> Forall (fun q => L q.2) Q -> safely ok (dijkstra_loop place fuel ds g Q).
Proof.
  induction fuel as [|fuel IH]; intros ds Q Hok Hg HQ; simpl; [done|].
  destruct Q as [|[k u] Q]; [done|]. apply Forall_cons in HQ as [Hu HQ]. simpl in Hu.
  safe_step. safe_step. safe_step; [done|].
  match goal with
  | Hs : nodes ds !! u = Some ?su |- context [scan_dijkstra _ _ _ (s_stations_to ?su) _] =>
      safe_call (scan_dijkstra_safe place u (s_stations_to su) ds Q Hok Hu
                   (ok_edges ds u su Hok Hs) HQ)
  end.
  destruct a1 as [ds1 Q1]. destruct Hcall1. by apply IH.
Qed.

Lemma walk_back_path_safe fromid fuel : ∀ ds i path,
  ok ds -> (∀ p, i = Some p -> L p) -> Forall L path ->
  safely (fun r => ∀ l, r = Some l -> Forall L l) (walk_back_path fuel ds fromid i path).
Proof.
  induction fuel as [|fuel IH]; intros ds i path Hok Hi Hpath; simpl; [done|].
  destruct i as [p|]; [|done]. specialize (Hi p eq_refl).
  repeat safe_step.
  - simpl. intros l [= <-]. by live.
  - apply IH; [done| |by live]. destruct Hok as [_ Hlinks]. eauto.
Qed.

Lemma scan_hop_safe cur nxt edges : ∀ ds prev_arrival tracker,
  ok ds -> L cur -> L nxt -> Forall (fun e : Edge => L e.2.2) edges ->
  safely (fun '(ds', _) => ok ds') (scan_hop ds cur nxt edges prev_arrival tracker).
Proof.
  induction edges as [|[dep [arr v]] rest IH]; intros ds prev_arrival tracker Hok Hc Hn He;
    simpl; [done|].
  apply Forall_cons in He as [Hv He]. simpl in Hv.
  repeat safe_step; by apply IH.
Qed.

Lemma fix_departures_safe path : ∀ ds prev_arrival tracker,
  ok ds -> Forall L path -> safely ok (fix_departures ds path prev_arrival tracker).
Proof.
  induction path as [|cur rest IH]; intros ds prev_arrival tracker Hok Hpath; [done|].
  destruct rest as [|nxt rest]; [done|]. rewrite fix_departures_cons.
  apply Forall_cons in Hpath as [Hc Hpath]. pose proof Hpath as Hpath'.
  apply Forall_cons in Hpath' as [Hn _].
  safe_step.
  match goal with
  | Hs : nodes ds !! cur = Some ?su |- _ =>
      safe_call (scan_hop_safe cur nxt (s_stations_to su) ds prev_arrival tracker
                   Hok Hc Hn (ok_edges ds cur su Hok Hs))
  end.
  destruct a0 as [ds1 tracker1]. by apply IH.
Qed.

Lemma path_times_safe path : ∀ ds,
  ok ds -> Forall L path -> safely (fun _ => True) (path_times ds path).
Proof.
  induction path as [|p rest IH]; intros ds Hok Hpath; [done|].
  apply Forall_cons in Hpath as [Hp Hpath]. simpl.
  safe_step. safe_call (IH ds Hok Hpath). done.
Qed.

End Safety.
